(** * LangGraph Essentials utilities: [src/js/src/utils/index.ts]

    The four helpers of the utilities file are one-line calls of
    ECMAScript built-ins ([JSON.stringify], [Math.random],
    [Number.prototype.toString], [String.prototype.substr],
    [Date.prototype.toISOString], [console.log], [setTimeout]).  The
    development embeds the helpers together with the part of each
    built-in they reach, following the algorithms of ECMA-262, and
    proves what the helpers guarantee: first on values that are finite
    trees, then, for [formatState], on objects held by reference. *)

From Stdlib Require Import String Ascii.
From Stdlib Require Import ZArith NArith List Bool Lia.
Import ListNotations.

Open Scope string_scope.
Open Scope list_scope.

(** ** Strings

    An ECMAScript string is a sequence of 16-bit code units. *)

Definition code_unit := N.
Definition string16 := list code_unit.

(** The code units of an ASCII literal. *)
Definition lit (s : string) : string16 :=
  map N_of_ascii (list_ascii_of_string s).

Definition string16_eqb (a b : string16) : bool :=
  if list_eq_dec N.eq_dec a b then true else false.

Lemma string16_eqb_eq a b : string16_eqb a b = true <-> a = b.
Proof.
  unfold string16_eqb. destruct (list_eq_dec N.eq_dec a b); split; congruence.
Qed.

Lemma string16_eqb_refl a : string16_eqb a a = true.
Proof. now apply string16_eqb_eq. Qed.

(** ** Digits in a radix *)

Module Digits.

(** The character of a digit value: [0-9] then [a-z]. *)
Definition digit_char (d : N) : code_unit :=
  if (d <? 10)%N then (48 + d)%N else (87 + d)%N.

Definition is_decimal_digit (c : code_unit) : bool :=
  ((48 <=? c) && (c <=? 57))%N.

(** The characters a radix-36 digit string is made of. *)
Definition is_base36_char (c : code_unit) : bool :=
  (((48 <=? c) && (c <=? 57)) || ((97 <=? c) && (c <=? 122)))%N.

Fixpoint to_digits_fuel (radix : N) (fuel : nat) (n : N) (acc : list N)
  : list N :=
  match fuel with
  | O => n :: acc
  | S f =>
      if (n <? radix)%N then n :: acc
      else to_digits_fuel radix f (n / radix)%N ((n mod radix)%N :: acc)
  end.

(** The digits of [n] in [radix], most significant first. *)
Definition to_digits (radix n : N) : list N :=
  to_digits_fuel radix (N.to_nat (N.size n)) n [].

Definition of_digits (radix : N) (ds : list N) : N :=
  fold_left (fun a d => (a * radix + d)%N) ds 0%N.

Definition digits_string (ds : list N) : string16 := map digit_char ds.

Lemma to_digits_fuel_acc radix fuel : forall n acc,
  to_digits_fuel radix fuel n acc = to_digits_fuel radix fuel n [] ++ acc.
Proof.
  induction fuel as [|f IH]; intros n acc; simpl; [reflexivity|].
  destruct (n <? radix)%N; [reflexivity|].
  rewrite IH, (IH _ [_]), <- app_assoc. reflexivity.
Qed.

Lemma of_digits_app radix a b :
  of_digits radix (a ++ b)
  = fold_left (fun x d => (x * radix + d)%N) b (of_digits radix a).
Proof. unfold of_digits. now rewrite fold_left_app. Qed.

Lemma of_digits_snoc radix a d :
  of_digits radix (a ++ [d]) = (of_digits radix a * radix + d)%N.
Proof. now rewrite of_digits_app. Qed.

Lemma size_half (radix n : N) (f : nat) :
  (2 <= radix)%N -> (n < 2 ^ N.of_nat (S f))%N ->
  (n / radix < 2 ^ N.of_nat f)%N.
Proof.
  intros Hr Hn.
  rewrite Nat2N.inj_succ, N.pow_succ_r' in Hn.
  apply N.Div0.div_lt_upper_bound.
  nia.
Qed.

Lemma to_digits_fuel_value radix : (2 <= radix)%N ->
  forall fuel n, (n < 2 ^ N.of_nat fuel)%N ->
  of_digits radix (to_digits_fuel radix fuel n []) = n.
Proof.
  intros Hr. induction fuel as [|f IH]; intros n Hn.
  - simpl in *. unfold of_digits. simpl. lia.
  - cbn [to_digits_fuel]. destruct (N.ltb_spec n radix) as [Hlt|Hge].
    + unfold of_digits. simpl. lia.
    + rewrite to_digits_fuel_acc, of_digits_snoc, IH by now apply size_half.
      rewrite N.mul_comm. symmetry. apply N.Div0.div_mod.
Qed.

Lemma size_bound n : (n < 2 ^ N.of_nat (N.to_nat (N.size n)))%N.
Proof.
  rewrite N2Nat.id. destruct n as [|p]; [simpl; lia|].
  rewrite N.size_log2 by discriminate.
  apply N.log2_spec. lia.
Qed.

Lemma of_to_digits radix n : (2 <= radix)%N ->
  of_digits radix (to_digits radix n) = n.
Proof. intros Hr. apply to_digits_fuel_value; [assumption|apply size_bound]. Qed.

Lemma to_digits_fuel_bound radix : (2 <= radix)%N ->
  forall fuel n, (n < 2 ^ N.of_nat fuel)%N ->
  Forall (fun d => d < radix)%N (to_digits_fuel radix fuel n []).
Proof.
  intros Hr. induction fuel as [|f IH]; intros n Hn.
  - simpl in *. constructor; [lia|constructor].
  - cbn [to_digits_fuel]. destruct (N.ltb_spec n radix) as [Hlt|Hge].
    + constructor; [assumption|constructor].
    + rewrite to_digits_fuel_acc. apply Forall_app. split.
      * apply IH. now apply size_half.
      * constructor; [|constructor]. apply N.mod_lt. lia.
Qed.

Lemma to_digits_bound radix n : (2 <= radix)%N ->
  Forall (fun d => d < radix)%N (to_digits radix n).
Proof. intros Hr. apply to_digits_fuel_bound; [assumption|apply size_bound]. Qed.

Lemma to_digits_fuel_head radix : (2 <= radix)%N ->
  forall fuel n, (n < 2 ^ N.of_nat fuel)%N -> (0 < n)%N ->
  exists d ds, to_digits_fuel radix fuel n [] = d :: ds /\ (0 < d)%N.
Proof.
  intros Hr. induction fuel as [|f IH]; intros n Hn Hpos.
  - simpl in Hn. lia.
  - cbn [to_digits_fuel]. destruct (N.ltb_spec n radix) as [Hlt|Hge].
    + now exists n, [].
    + rewrite to_digits_fuel_acc.
      destruct (IH (n / radix)%N) as (d & ds & E & Hd).
      * now apply size_half.
      * apply N.div_str_pos. lia.
      * rewrite E. simpl. now exists d, (ds ++ [(n mod radix)%N]).
Qed.

Lemma to_digits_head radix n : (2 <= radix)%N -> (0 < n)%N ->
  exists d ds, to_digits radix n = d :: ds /\ (0 < d)%N.
Proof. intros Hr. apply to_digits_fuel_head; [assumption|apply size_bound]. Qed.

Lemma to_digits_last radix n : (2 <= radix)%N ->
  exists ds, to_digits radix n = ds ++ [(n mod radix)%N].
Proof.
  intros Hr. unfold to_digits.
  pose proof (size_bound n) as Hb.
  destruct (N.to_nat (N.size n)) as [|f]; cbn [to_digits_fuel].
  - simpl in Hb. exists []. simpl. f_equal. rewrite N.mod_small; lia.
  - destruct (N.ltb_spec n radix) as [Hlt|Hge].
    + exists []. simpl. f_equal. now rewrite N.mod_small.
    + rewrite to_digits_fuel_acc. eexists. reflexivity.
Qed.

Lemma digit_char_decimal d : (d < 10)%N -> is_decimal_digit (digit_char d) = true.
Proof.
  intros H. unfold is_decimal_digit, digit_char.
  destruct (N.ltb_spec d 10); [|lia].
  apply andb_true_intro; split; apply N.leb_le; lia.
Qed.

Lemma digit_char_base36 d : (d < 36)%N -> is_base36_char (digit_char d) = true.
Proof.
  intros H. unfold is_base36_char, digit_char.
  destruct (N.ltb_spec d 10).
  - apply orb_true_intro; left. apply andb_true_intro; split; apply N.leb_le; lia.
  - apply orb_true_intro; right. apply andb_true_intro; split; apply N.leb_le; lia.
Qed.

Lemma of_digits_upper radix ds :
  Forall (fun d => d < radix)%N ds ->
  (of_digits radix ds < radix ^ N.of_nat (length ds))%N.
Proof.
  intros H. induction ds as [|d ds IH] using rev_ind.
  - cbn. lia.
  - apply Forall_app in H. destruct H as [Hds Hd]. inversion Hd; subst.
    rewrite of_digits_snoc, length_app. cbn [length].
    rewrite Nat.add_1_r, Nat2N.inj_succ, N.pow_succ_r'.
    specialize (IH Hds). nia.
Qed.

Lemma fold_digits_lower radix ds : forall a,
  (a * radix ^ N.of_nat (length ds)
   <= fold_left (fun x d => x * radix + d) ds a)%N.
Proof.
  induction ds as [|d ds IH]; intros a.
  - cbn. lia.
  - cbn [fold_left length]. rewrite Nat2N.inj_succ, N.pow_succ_r'.
    specialize (IH (a * radix + d)%N). nia.
Qed.

(** A number below [radix ^ p] has at most [p] digits. *)
Lemma to_digits_length radix n p : (2 <= radix)%N ->
  (n < radix ^ N.of_nat p)%N -> (length (to_digits radix n) <= Nat.max 1 p)%nat.
Proof.
  intros Hr Hn. destruct (N.eq_dec n 0) as [->|Hpos].
  - change (length (to_digits radix 0)) with 1%nat. lia.
  - destruct (to_digits_head radix n) as (d & ds & E & Hd); [lia|lia|].
    pose proof (of_to_digits radix n Hr) as Hv. rewrite E in *.
    unfold of_digits in Hv. cbn [fold_left length] in *.
    pose proof (fold_digits_lower radix ds (0 * radix + d)) as Hlow.
    rewrite Hv in Hlow.
    assert (radix ^ N.of_nat (length ds) < radix ^ N.of_nat p)%N as Hpow by nia.
    apply N.pow_lt_mono_r_iff in Hpow; lia.
Qed.

Lemma to_digits_upper radix n : (2 <= radix)%N ->
  (n < radix ^ N.of_nat (length (to_digits radix n)))%N.
Proof.
  intros Hr. rewrite <- (of_to_digits radix n Hr) at 1.
  apply of_digits_upper, to_digits_bound, Hr.
Qed.

Lemma to_digits_fuel_enough radix : (2 <= radix)%N ->
  forall f f' n, (n < 2 ^ N.of_nat f)%N -> (n < 2 ^ N.of_nat f')%N ->
  to_digits_fuel radix f n [] = to_digits_fuel radix f' n [].
Proof.
  intros Hr. induction f as [|f IH]; intros f' n Hf Hf'.
  - simpl in Hf. assert (n = 0%N) as -> by lia.
    destruct f'; cbn [to_digits_fuel]; [reflexivity|].
    destruct (N.ltb_spec 0 radix); [reflexivity|lia].
  - destruct f' as [|f'].
    + simpl in Hf'. assert (n = 0%N) as -> by lia.
      cbn [to_digits_fuel]. destruct (N.ltb_spec 0 radix); [reflexivity|lia].
    + cbn [to_digits_fuel]. destruct (n <? radix)%N; [reflexivity|].
      rewrite to_digits_fuel_acc, (to_digits_fuel_acc radix f').
      f_equal. apply IH; now apply size_half.
Qed.

Lemma to_digits_step radix n : (2 <= radix)%N -> (radix <= n)%N ->
  to_digits radix n = to_digits radix (n / radix) ++ [(n mod radix)%N].
Proof.
  intros Hr Hn. unfold to_digits.
  pose proof (size_bound n) as Hb.
  destruct (N.to_nat (N.size n)) as [|f] eqn:Ef.
  - simpl in Hb. lia.
  - cbn [to_digits_fuel]. destruct (N.ltb_spec n radix); [lia|].
    rewrite to_digits_fuel_acc. f_equal.
    apply to_digits_fuel_enough; [assumption|now apply size_half|].
    apply size_bound.
Qed.

(** Digits without a leading zero are the digits of their value. *)
Lemma to_of_digits radix ds : (2 <= radix)%N ->
  Forall (fun d => d < radix)%N ds ->
  match ds with
  | [] => False
  | [_] => True
  | d :: _ => d <> 0%N
  end ->
  to_digits radix (of_digits radix ds) = ds.
Proof.
  intros Hr Hds. induction ds as [|e front IH] using rev_ind; [contradiction|].
  intros Hhead. apply Forall_app in Hds. destruct Hds as [Hfront He].
  inversion He as [|? ? He' _]; subst. rewrite of_digits_snoc.
  destruct front as [|d front].
  - cbn. unfold to_digits.
    destruct (N.to_nat (N.size e)) as [|f] eqn:Ef; cbn [to_digits_fuel].
    + reflexivity.
    + destruct (N.ltb_spec e radix); [reflexivity|lia].
  - assert (d <> 0%N) as Hd by (destruct front; exact Hhead).
    assert (1 <= of_digits radix (d :: front))%N as Hpos.
    { unfold of_digits. cbn [fold_left].
      pose proof (fold_digits_lower radix front (0 * radix + d)) as Hlow.
      assert (radix ^ N.of_nat (length front) <> 0)%N
        by (apply N.pow_nonzero; lia).
      nia. }
    rewrite to_digits_step by nia.
    replace ((of_digits radix (d :: front) * radix + e) / radix)%N
      with (of_digits radix (d :: front)).
    + replace ((of_digits radix (d :: front) * radix + e) mod radix)%N with e.
      * rewrite IH; [reflexivity|assumption|].
        destruct front; [exact I|exact Hd].
      * rewrite N.add_comm, N.Div0.mod_add, N.mod_small; [reflexivity|assumption].
    + rewrite N.div_add_l by lia. rewrite N.div_small by assumption. lia.
Qed.

End Digits.

(** ** Numbers

    A Number is an IEEE double.  [Number::toString] is specified on the
    integers [n], [k], [s] with [k >= 1], [10^(k-1) <= s < 10^k], [s]
    times [10^(n-k)] denoting the number and [k] as small as possible: a
    finite non-zero Number is identified here with its sign and that pair
    [(s, n)], [k] being the number of decimal digits of [s]. *)

Module Number.
Import Digits.

Inductive number :=
| NaN
| Infinity (neg : bool)
| Zero (neg : bool)
| Finite (neg : bool) (s : positive) (n : Z).

(** [k] as small as possible: [s] has no trailing zero. *)
Definition canonical (x : number) : bool :=
  match x with
  | Finite _ s _ => negb (N.pos s mod 10 =? 0)%N
  | _ => true
  end.

Definition is_finite (x : number) : bool :=
  match x with
  | NaN | Infinity _ => false
  | Zero _ | Finite _ _ _ => true
  end.

(** IsStrictlyEqual on Numbers: NaN differs from itself, the two zeros
    are equal. *)
Definition equal (x y : number) : bool :=
  match x, y with
  | NaN, _ | _, NaN => false
  | Infinity a, Infinity b => Bool.eqb a b
  | Zero _, Zero _ => true
  | Finite a s n, Finite b t m => Bool.eqb a b && Pos.eqb s t && Z.eqb n m
  | _, _ => false
  end.

Definition zeros (n : nat) : string16 := repeat 48%N n.

Definition sign_string (neg : bool) : string16 :=
  if neg then lit "-" else [].

(** Steps 9 to 11 of [Number::toString]: the exponent part [e+N], [e-N]. *)
Definition exponent_string (n : Z) : string16 :=
  lit "e" ++ (if (n <? 0)%Z then lit "-" else lit "+")
  ++ digits_string (to_digits 10 (Z.abs_N (n - 1))).

(** Step 6 of [Number::toString]: the digits [ds] of [s] with the point
    after the first [n] of them. *)
Definition positional (ds : string16) (n : Z) : string16 :=
  let k := Z.of_nat (length ds) in
  if (k <=? n)%Z then ds ++ zeros (Z.to_nat (n - k))
  else if (0 <? n)%Z then
    firstn (Z.to_nat n) ds ++ lit "." ++ skipn (Z.to_nat n) ds
  else lit "0." ++ zeros (Z.to_nat (- n)) ++ ds.

(** Steps 5 to 11 of [Number::toString] for radix 10. *)
Definition finite_toString (s : positive) (n : Z) : string16 :=
  let ds := digits_string (to_digits 10 (N.pos s)) in
  if ((-5 <=? n) && (n <=? 21))%Z then positional ds n
  else
    match ds with
    | [] => []
    | [d] => d :: exponent_string n
    | d :: rest => d :: lit "." ++ rest ++ exponent_string n
    end.

(** [Number::toString(x, 10)]. *)
Definition toString (x : number) : string16 :=
  match x with
  | NaN => lit "NaN"
  | Zero _ => lit "0"
  | Infinity neg => sign_string neg ++ lit "Infinity"
  | Finite neg s n => sign_string neg ++ finite_toString s n
  end.

(** The Number denoted by a decimal literal with integer digits [int],
    fraction digits [frac] and exponent [exp]: leading and trailing zeros
    of the digit string are dropped to find [s], and [n] is the position
    of the decimal point relative to the first digit kept.  The literal
    is taken for the shortest string of the Number it denotes, as the
    literals [Number::toString] writes are; the rounding of a longer
    literal to the nearest Number is not part of the model. *)
Fixpoint drop_zeros (ds : list N) : list N :=
  match ds with
  | 0%N :: rest => drop_zeros rest
  | _ => ds
  end.

Definition of_decimal (neg : bool) (int frac : list N) (exp : Z) : number :=
  let all := int ++ frac in
  let lead := (length all - length (drop_zeros all))%nat in
  match of_digits 10 (rev (drop_zeros (rev (drop_zeros all)))) with
  | N0 => Zero neg
  | Npos s => Finite neg s (Z.of_nat (length int) - Z.of_nat lead + exp)
  end.

(** The Number of a non-negative integer literal of the source. *)
Definition of_N (n : N) : number := of_decimal false (to_digits 10 n) [] 0.

(** [ToIntegerOrInfinity]: truncation towards zero. *)
Inductive integer_or_infinity :=
| NegInfinity
| Integer (z : Z)
| PosInfinity.

Definition ToIntegerOrInfinity (x : number) : integer_or_infinity :=
  match x with
  | NaN | Zero _ => Integer 0
  | Infinity true => NegInfinity
  | Infinity false => PosInfinity
  | Finite neg s n =>
      let k := Z.of_nat (length (to_digits 10 (N.pos s))) in
      let magnitude :=
        if (n <=? 0)%Z then 0%Z
        else if (k <=? n)%Z then (Z.pos s * 10 ^ (n - k))%Z
        else (Z.pos s / 10 ^ (k - n))%Z in
      Integer (if neg then - magnitude else magnitude)
  end.

End Number.

Abbreviation number := Number.number.

(** ** Values

    The values the helpers are applied to: the primitives, opaque
    functions, arrays, and ordinary objects given by their enumerable own
    string-keyed data properties in [[OwnPropertyKeys]] order.  These
    are the structures that are finite trees, with functions left
    opaque; objects held by reference, cyclic structures and [toJSON]
    methods that are followed come with [Heap] below.  Accessors,
    proxies, prototypes and wrapper objects are not part of the
    model. *)

Unset Elimination Schemes.
Inductive value :=
| VUndefined
| VNull
| VBoolean (b : bool)
| VNumber (x : number)
| VString (s : string16)
| VBigInt (z : Z)
| VSymbol (description : string16)
| VFunction
| VArray (elements : list value)
| VObject (properties : list (string16 * value)).
Set Elimination Schemes.

Section value_induction.
  Variable P : value -> Prop.
  Hypothesis Hundefined : P VUndefined.
  Hypothesis Hnull : P VNull.
  Hypothesis Hboolean : forall b, P (VBoolean b).
  Hypothesis Hnumber : forall x, P (VNumber x).
  Hypothesis Hstring : forall s, P (VString s).
  Hypothesis Hbigint : forall z, P (VBigInt z).
  Hypothesis Hsymbol : forall d, P (VSymbol d).
  Hypothesis Hfunction : P VFunction.
  Hypothesis Harray : forall l, Forall P l -> P (VArray l).
  Hypothesis Hobject :
    forall l, Forall (fun kv => P (snd kv)) l -> P (VObject l).

Fixpoint value_nested_ind (v : value) : P v :=
  match v with
  | VUndefined => Hundefined
  | VNull => Hnull
  | VBoolean b => Hboolean b
  | VNumber x => Hnumber x
  | VString s => Hstring s
  | VBigInt z => Hbigint z
  | VSymbol d => Hsymbol d
  | VFunction => Hfunction
  | VArray l =>
      Harray l ((fix all (l : list value) : Forall P l :=
                 match l with
                 | [] => Forall_nil _
                 | x :: r => Forall_cons x (value_nested_ind x) (all r)
                 end) l)
  | VObject l =>
      Hobject l ((fix all (l : list (string16 * value))
                  : Forall (fun kv => P (snd kv)) l :=
                  match l with
                  | [] => Forall_nil _
                  | kv :: r =>
                      Forall_cons kv (value_nested_ind (snd kv)) (all r)
                  end) l)
  end.
End value_induction.

(** [ToBoolean]. *)
Definition ToBoolean (v : value) : bool :=
  match v with
  | VUndefined | VNull => false
  | VBoolean b => b
  | VNumber Number.NaN | VNumber (Number.Zero _) => false
  | VNumber _ => true
  | VString s => negb (Nat.eqb (length s) 0)
  | VBigInt z => negb (Z.eqb z 0)
  | VSymbol _ | VFunction | VArray _ | VObject _ => true
  end.

(** ** Completions

    A built-in returns, throws, or hands control to code the model does
    not contain (a function value called back). *)

Inductive error := TypeError | SyntaxError | RangeError.

Inductive outcome (A : Type) :=
| Returns (a : A)
| Throws (e : error)
| RunsUserCode.
Arguments Returns {A} a.
Arguments Throws {A} e.
Arguments RunsUserCode {A}.

Definition bind {A B} (m : outcome A) (f : A -> outcome B) : outcome B :=
  match m with
  | Returns a => f a
  | Throws e => Throws e
  | RunsUserCode => RunsUserCode
  end.

Notation "x <- m ;; k" := (bind m (fun x => k))
  (at level 61, m at next level, right associativity).

(** ** Ordinary objects: own property keys

    [[OwnPropertyKeys]] of an ordinary object lists the array-index keys
    in ascending numeric order, then the other string keys in creation
    order.  A property list is kept in that order. *)

Module Obj.
Import Digits.

(** An array index is the canonical decimal string of an integer in
    [0, 2^32 - 2]. *)
Definition array_index (k : string16) : option N :=
  match k with
  | [] => None
  | c :: rest =>
      if forallb is_decimal_digit k
         && (negb (c =? 48)%N || Nat.eqb (length rest) 0)
         && (length k <=? 10)%nat
      then
        let i := of_digits 10 (map (fun c => (c - 48)%N) k) in
        if (i <? 4294967295)%N then Some i else None
      else None
  end.

Fixpoint lookup (k : string16) (props : list (string16 * value))
  : option value :=
  match props with
  | [] => None
  | (k', v) :: rest => if string16_eqb k k' then Some v else lookup k rest
  end.

Fixpoint replace (k : string16) (v : value) (props : list (string16 * value))
  : list (string16 * value) :=
  match props with
  | [] => []
  | (k', v') :: rest =>
      if string16_eqb k k' then (k', v) :: rest
      else (k', v') :: replace k v rest
  end.

Fixpoint insert_index (i : N) (k : string16) (v : value)
  (props : list (string16 * value)) : list (string16 * value) :=
  match props with
  | [] => [(k, v)]
  | (k', v') :: rest =>
      match array_index k' with
      | Some j =>
          if (j <? i)%N then (k', v') :: insert_index i k v rest
          else (k, v) :: props
      | None => (k, v) :: props
      end
  end.

(** [CreateDataProperty]: an existing property keeps its place and takes
    the new value; a new property enters at its place in key order. *)
Definition CreateDataProperty (props : list (string16 * value))
  (k : string16) (v : value) : list (string16 * value) :=
  match lookup k props with
  | Some _ => replace k v props
  | None =>
      match array_index k with
      | Some i => insert_index i k v props
      | None => props ++ [(k, v)]
      end
  end.

(** The key lists [[OwnPropertyKeys]] can produce: no key twice, the
    array indices first and ascending. *)
Fixpoint strings_only (ks : list string16) : bool :=
  match ks with
  | [] => true
  | k :: rest =>
      match array_index k with
      | Some _ => false
      | None => strings_only rest
      end
  end.

Fixpoint indices_above (low : option N) (ks : list string16) : bool :=
  match ks with
  | [] => true
  | k :: rest =>
      match array_index k with
      | Some i =>
          match low with
          | Some j => (j <? i)%N
          | None => true
          end && indices_above (Some i) rest
      | None => strings_only rest
      end
  end.

Fixpoint distinct (ks : list string16) : bool :=
  match ks with
  | [] => true
  | k :: rest => negb (existsb (string16_eqb k) rest) && distinct rest
  end.

Definition key_order (ks : list string16) : bool :=
  distinct ks && indices_above None ks.


(** A key list in key order stays so when cut short. *)
Lemma distinct_prefix a b : distinct (a ++ b) = true -> distinct a = true.
Proof.
  induction a as [|k a IH]; [reflexivity|]. cbn [app distinct].
  intros H. apply andb_prop in H. destruct H as [H1 H2].
  rewrite IH by assumption. rewrite existsb_app in H1.
  apply negb_true_iff, orb_false_elim in H1. destruct H1 as [H1 _].
  now rewrite H1.
Qed.

Lemma strings_only_prefix a b :
  strings_only (a ++ b) = true -> strings_only a = true.
Proof.
  induction a as [|k a IH]; [reflexivity|]. cbn [app strings_only].
  destruct (array_index k); [discriminate|assumption].
Qed.

Lemma indices_above_prefix a b : forall low,
  indices_above low (a ++ b) = true -> indices_above low a = true.
Proof.
  induction a as [|k a IH]; intros low; [reflexivity|].
  cbn [app indices_above]. destruct (array_index k).
  - intros H. apply andb_prop in H. destruct H as [H1 H2].
    rewrite H1. now apply IH.
  - apply strings_only_prefix.
Qed.

Lemma key_order_prefix a b : key_order (a ++ b) = true -> key_order a = true.
Proof.
  unfold key_order. intros H. apply andb_prop in H. destruct H as [H1 H2].
  apply distinct_prefix in H1. apply indices_above_prefix in H2.
  now rewrite H1, H2.
Qed.

Lemma string16_eqb_sym a b : string16_eqb a b = string16_eqb b a.
Proof.
  destruct (string16_eqb a b) eqn:E1, (string16_eqb b a) eqn:E2;
    try reflexivity.
  - apply string16_eqb_eq in E1. subst. now rewrite string16_eqb_refl in E2.
  - apply string16_eqb_eq in E2. subst. now rewrite string16_eqb_refl in E1.
Qed.

Lemma lookup_fresh props k :
  distinct (map fst props ++ [k]) = true -> lookup k props = None.
Proof.
  induction props as [|[k' v'] props IH]; [reflexivity|].
  cbn [map fst app distinct lookup]. intros H.
  apply andb_prop in H. destruct H as [H1 H2].
  rewrite existsb_app in H1. apply negb_true_iff, orb_false_elim in H1.
  destruct H1 as [_ H1]. cbn [existsb] in H1. rewrite orb_false_r in H1.
  rewrite string16_eqb_sym, H1. now apply IH.
Qed.

Lemma strings_only_last ks k :
  strings_only (ks ++ [k]) = true -> array_index k = None.
Proof.
  induction ks as [|k' ks IH]; cbn [app strings_only].
  - destruct (array_index k); [discriminate|reflexivity].
  - destruct (array_index k'); [discriminate|assumption].
Qed.

Lemma insert_index_last props k v i : forall low,
  array_index k = Some i ->
  indices_above low (map fst props ++ [k]) = true ->
  match low with Some j => (j < i)%N | None => True end
  /\ insert_index i k v props = props ++ [(k, v)].
Proof.
  induction props as [|[k' v'] props IH]; intros low Hk H.
  - cbn [map app indices_above] in H. rewrite Hk in H.
    apply andb_prop in H. destruct H as [H _]. split; [|reflexivity].
    destruct low; [now apply N.ltb_lt|exact I].
  - cbn [map fst app indices_above] in H. cbn [insert_index app].
    destruct (array_index k') as [j|] eqn:Ek'.
    + apply andb_prop in H. destruct H as [H1 H2].
      destruct (IH (Some j) Hk H2) as [Hlt Heq].
      split.
      * destruct low as [j0|]; [|exact I]. apply N.ltb_lt in H1. lia.
      * apply N.ltb_lt in Hlt. now rewrite Hlt, Heq.
    + apply strings_only_last in H. congruence.
Qed.

(** A key that extends the key order enters at the end. *)
Lemma CreateDataProperty_last props k v :
  key_order (map fst props ++ [k]) = true ->
  CreateDataProperty props k v = props ++ [(k, v)].
Proof.
  unfold key_order, CreateDataProperty. intros H.
  apply andb_prop in H. destruct H as [H1 H2].
  rewrite lookup_fresh by assumption.
  destruct (array_index k) as [i|] eqn:Ek; [|reflexivity].
  now destruct (insert_index_last props k v i None Ek H2).
Qed.

End Obj.

(** ** The JSON data model *)

(** The invariants of the representation, which every value of the
    language has: a Number is given by its shortest digits, the keys of
    an object are in [[OwnPropertyKeys]] order. *)
Fixpoint well_formed (v : value) : bool :=
  match v with
  | VNumber x => Number.canonical x
  | VArray l => forallb well_formed l
  | VObject props =>
      Obj.key_order (map fst props)
      && forallb (fun kv => well_formed (snd kv)) props
  | _ => true
  end.

(** The values JSON text denotes: [null], the booleans, the finite
    Numbers, the strings, and the arrays and objects made of them. *)
Fixpoint representable (v : value) : bool :=
  match v with
  | VNull | VBoolean _ | VString _ => true
  | VNumber x => Number.is_finite x
  | VArray l => forallb representable l
  | VObject props => forallb (fun kv => representable (snd kv)) props
  | VUndefined | VBigInt _ | VSymbol _ | VFunction => false
  end.

(** Deep equality: primitives by strict equality, arrays element by
    element, objects by their sets of keys and the values under each
    key.  Functions and symbols have an identity the model does not
    hold, and are equal to nothing. *)
Fixpoint deep_equal (a b : value) : bool :=
  match a, b with
  | VUndefined, VUndefined => true
  | VNull, VNull => true
  | VBoolean x, VBoolean y => Bool.eqb x y
  | VNumber x, VNumber y => Number.equal x y
  | VString x, VString y => string16_eqb x y
  | VBigInt x, VBigInt y => Z.eqb x y
  | VArray l, VArray m =>
      (fix all (l m : list value) : bool :=
         match l, m with
         | [], [] => true
         | x :: l', y :: m' => deep_equal x y && all l' m'
         | _, _ => false
         end) l m
  | VObject p, VObject q =>
      Nat.eqb (length p) (length q)
      && (fix all (p : list (string16 * value)) : bool :=
            match p with
            | [] => true
            | (k, x) :: p' =>
                match Obj.lookup k q with
                | Some y => deep_equal x y
                | None => false
                end && all p'
            end) p
  | _, _ => false
  end.

(** The value with every negative zero replaced by the positive one. *)
Fixpoint positive_zeros (v : value) : value :=
  match v with
  | VNumber (Number.Zero _) => VNumber (Number.Zero false)
  | VArray l => VArray (map positive_zeros l)
  | VObject props =>
      VObject (map (fun kv => (fst kv, positive_zeros (snd kv))) props)
  | _ => v
  end.

Fixpoint has_negative_zero (v : value) : bool :=
  match v with
  | VNumber (Number.Zero true) => true
  | VArray l => existsb has_negative_zero l
  | VObject props => existsb (fun kv => has_negative_zero (snd kv)) props
  | _ => false
  end.

Fixpoint entries_match (q p : list (string16 * value)) : bool :=
  match p with
  | [] => true
  | (k, x) :: p' =>
      match Obj.lookup k q with
      | Some y => deep_equal x y
      | None => false
      end && entries_match q p'
  end.

Lemma deep_equal_object p q :
  deep_equal (VObject p) (VObject q)
  = Nat.eqb (length p) (length q) && entries_match q p.
Proof.
  cbn [deep_equal]. f_equal.
  induction p as [|[k x] p IH]; [reflexivity|].
  cbn [entries_match]. now rewrite IH.
Qed.

Lemma lookup_member props k v :
  Obj.distinct (map fst props) = true -> In (k, v) props ->
  Obj.lookup k props = Some v.
Proof.
  induction props as [|[k' v'] props IH]; [contradiction|].
  cbn [map fst Obj.distinct Obj.lookup]. intros Hd Hin.
  apply andb_prop in Hd. destruct Hd as [Hfresh Hd].
  destruct Hin as [E|Hin].
  - inversion E; subst. now rewrite string16_eqb_refl.
  - destruct (string16_eqb k k') eqn:Ek; [|now apply IH].
    apply string16_eqb_eq in Ek. subst k'.
    apply negb_true_iff in Hfresh.
    assert (existsb (string16_eqb k) (map fst props) = true) as Hex.
    { apply existsb_exists. exists k. split.
      - change k with (fst (k, v)). now apply in_map.
      - apply string16_eqb_refl. }
    congruence.
Qed.

Lemma number_equal_positive_zero x :
  Number.is_finite x = true ->
  Number.equal match x with Number.Zero _ => Number.Zero false | _ => x end x
  = true.
Proof.
  destruct x as [| |neg|neg s n]; try discriminate; intros _; cbn.
  - reflexivity.
  - now rewrite Bool.eqb_reflx, Pos.eqb_refl, Z.eqb_refl.
Qed.

(** Replacing the negative zeros of a value of the JSON data model gives
    a deep-equal value. *)
Lemma deep_equal_positive_zeros v :
  well_formed v = true -> representable v = true ->
  deep_equal (positive_zeros v) v = true.
Proof.
  induction v as [| |b|x|s|z|d| |l IH|props IH] using value_nested_ind;
    intros Hwf Hrep; try discriminate.
  - reflexivity.
  - cbn. apply Bool.eqb_reflx.
  - cbn [representable] in Hrep. pose proof (number_equal_positive_zero x Hrep).
    destruct x; assumption.
  - cbn. apply string16_eqb_refl.
  - cbn [well_formed representable] in Hwf, Hrep. cbn [positive_zeros deep_equal].
    induction IH as [|e l He _ IHl]; [reflexivity|].
    cbn [forallb] in Hwf, Hrep.
    apply andb_prop in Hwf. destruct Hwf as [Hwe Hwl].
    apply andb_prop in Hrep. destruct Hrep as [Hre Hrl].
    cbn [map]. rewrite He by assumption. now apply IHl.
  - cbn [well_formed representable] in Hwf, Hrep.
    apply andb_prop in Hwf. destruct Hwf as [Hkeys Hwf].
    unfold Obj.key_order in Hkeys. apply andb_prop in Hkeys.
    destruct Hkeys as [Hdistinct _].
    cbn [positive_zeros]. rewrite deep_equal_object, length_map, Nat.eqb_refl.
    cbn [andb].
    assert (forall l, (forall kv, In kv l -> In kv props) ->
      forallb (fun kv => well_formed (snd kv)) l = true ->
      forallb (fun kv => representable (snd kv)) l = true ->
      Forall (fun kv => well_formed (snd kv) = true ->
                        representable (snd kv) = true ->
                        deep_equal (positive_zeros (snd kv)) (snd kv) = true) l ->
      entries_match props
        (map (fun kv => (fst kv, positive_zeros (snd kv))) l) = true) as Haux.
    { induction l as [|[k e] l IHl]; intros Hsub Hwl Hrl HP; [reflexivity|].
      cbn [forallb snd] in Hwl, Hrl.
      apply andb_prop in Hwl. destruct Hwl as [Hwe Hwl].
      apply andb_prop in Hrl. destruct Hrl as [Hre Hrl].
      inversion HP as [|? ? He HP']; subst. cbn [snd] in He.
      cbn [map fst snd entries_match].
      rewrite (lookup_member props k e Hdistinct) by (apply Hsub; now left).
      rewrite He by assumption. cbn [andb].
      apply IHl; try assumption.
      intros kv Hin. apply Hsub. now right. }
    now apply Haux.
Qed.

(** ** JSON *)

Module JSON.
Import Digits.

(** *** [JSON.stringify] *)

Definition is_leading_surrogate (c : code_unit) : bool :=
  ((55296 <=? c) && (c <=? 56319))%N.

Definition is_trailing_surrogate (c : code_unit) : bool :=
  ((56320 <=? c) && (c <=? 57343))%N.

(** [UnicodeEscape]: a backslash, [u] and four lowercase hexadecimal
    digits. *)
Definition hex4 (c : code_unit) : string16 :=
  map digit_char
    [(c / 4096) mod 16; (c / 256) mod 16; (c / 16) mod 16; c mod 16]%N.

Definition UnicodeEscape (c : code_unit) : string16 := lit "\u" ++ hex4 c.

(** One code point that is not a surrogate: the two-character escapes of
    the table of [QuoteJSONString], the control characters, the rest. *)
Definition quote_unit (c : code_unit) : string16 :=
  if (c =? 8)%N then lit "\b"
  else if (c =? 9)%N then lit "\t"
  else if (c =? 10)%N then lit "\n"
  else if (c =? 12)%N then lit "\f"
  else if (c =? 13)%N then lit "\r"
  else if (c =? 34)%N then [92; 34]%N
  else if (c =? 92)%N then [92; 92]%N
  else if (c <? 32)%N then UnicodeEscape c
  else [c].

(** The loop of [QuoteJSONString] over the code points of the string: a
    leading surrogate followed by a trailing one is a pair and is copied,
    any other surrogate is escaped. *)
Fixpoint quote_units (s : string16) : string16 :=
  match s with
  | [] => []
  | c :: rest =>
      if is_leading_surrogate c then
        match rest with
        | d :: rest' =>
            if is_trailing_surrogate d then c :: d :: quote_units rest'
            else UnicodeEscape c ++ quote_units rest
        | [] => UnicodeEscape c
        end
      else if is_trailing_surrogate c then UnicodeEscape c ++ quote_units rest
      else quote_unit c ++ quote_units rest
  end.

Definition QuoteJSONString (s : string16) : string16 :=
  (34 :: quote_units s ++ [34])%N.

Fixpoint join (separator : string16) (parts : list string16) : string16 :=
  match parts with
  | [] => []
  | [p] => p
  | p :: rest => p ++ separator ++ join separator rest
  end.

Definition line_feed : string16 := [10%N].

(** The last steps of [SerializeJSONObject] and [SerializeJSONArray]:
    brackets around the parts, on one line without a gap and one part a
    line with one. *)
Definition wrap (open close gap stepback indent : string16)
  (partial : list string16) : string16 :=
  match partial with
  | [] => open ++ close
  | _ =>
      match gap with
      | [] => open ++ join (lit ",") partial ++ close
      | _ =>
          open ++ line_feed ++ indent
          ++ join (lit "," ++ line_feed ++ indent) partial
          ++ line_feed ++ stepback ++ close
      end
  end.

Definition member (gap key text : string16) : string16 :=
  QuoteJSONString key ++ lit ":"
  ++ match gap with [] => [] | _ => lit " " end ++ text.

(** Step 2 of [SerializeJSONProperty] looks [toJSON] up on an object; the
    own property is the only place an ordinary object or an array of the
    model can have it. *)
Definition callable_toJSON (props : list (string16 * value)) : bool :=
  match Obj.lookup (lit "toJSON") props with
  | Some VFunction => true
  | _ => false
  end.

(** [SerializeJSONProperty] without a replacer function and without a
    property list, applied to the value found under the key.  [None] is
    the result [undefined]. *)
Fixpoint SerializeJSONProperty (gap indent : string16) (v : value)
  : outcome (option string16) :=
  match v with
  | VNull => Returns (Some (lit "null"))
  | VBoolean true => Returns (Some (lit "true"))
  | VBoolean false => Returns (Some (lit "false"))
  | VString s => Returns (Some (QuoteJSONString s))
  | VNumber x =>
      Returns (Some (if Number.is_finite x then Number.toString x
                     else lit "null"))
  | VBigInt _ => Throws TypeError
  | VUndefined | VSymbol _ | VFunction => Returns None
  | VArray elements =>
      let stepback := indent in
      let indent := indent ++ gap in
      partial <-
        (fix each (l : list value) : outcome (list string16) :=
           match l with
           | [] => Returns []
           | e :: rest =>
               strP <- SerializeJSONProperty gap indent e ;;
               more <- each rest ;;
               Returns (match strP with
                        | None => lit "null"
                        | Some text => text
                        end :: more)
           end) elements ;;
      Returns (Some (wrap (lit "[") (lit "]") gap stepback indent partial))
  | VObject props =>
      if callable_toJSON props then RunsUserCode
      else
        let stepback := indent in
        let indent := indent ++ gap in
        partial <-
          (fix each (l : list (string16 * value)) : outcome (list string16) :=
             match l with
             | [] => Returns []
             | (P, e) :: rest =>
                 strP <- SerializeJSONProperty gap indent e ;;
                 more <- each rest ;;
                 Returns (match strP with
                          | None => more
                          | Some text => member gap P text :: more
                          end)
             end) props ;;
        Returns (Some (wrap (lit "{") (lit "}") gap stepback indent partial))
  end.

(** Steps 5 to 8 of [JSON.stringify]: the gap of the [space] argument. *)
Definition gap_of_space (space : value) : string16 :=
  match space with
  | VNumber x =>
      match Number.ToIntegerOrInfinity x with
      | Number.NegInfinity => []
      | Number.Integer z => repeat 32%N (Z.to_nat (Z.min 10 z))
      | Number.PosInfinity => repeat 32%N 10
      end
  | VString s => firstn 10 s
  | _ => []
  end.

(** [JSON.stringify(value, replacer, space)] for a [replacer] that is not
    an object, as [null] is: no replacer function and no property list
    are set. *)
Definition stringify (v : value) (space : value) : outcome (option string16) :=
  SerializeJSONProperty (gap_of_space space) [] v.


(** *** [JSON.parse]

    The JSON grammar of ECMA-404, read from the front of the input; every
    reader returns what it read and the input that is left. *)

Definition is_whitespace (c : code_unit) : bool :=
  ((c =? 9) || (c =? 10) || (c =? 13) || (c =? 32))%N.

Fixpoint skip_whitespace (input : string16) : string16 :=
  match input with
  | c :: rest => if is_whitespace c then skip_whitespace rest else input
  | [] => []
  end.

Fixpoint take_digits (input : string16) : list N * string16 :=
  match input with
  | c :: rest =>
      if is_decimal_digit c then
        let (ds, input') := take_digits rest in ((c - 48)%N :: ds, input')
      else ([], input)
  | [] => ([], [])
  end.

(** [int]: a single zero, or a digit from one to nine and more digits. *)
Definition parse_int (input : string16) : option (list N * string16) :=
  match input with
  | c :: rest =>
      if (c =? 48)%N then Some ([0%N], rest)
      else if is_decimal_digit c then Some (take_digits input)
      else None
  | [] => None
  end.

(** [frac]: nothing, or a point and at least one digit. *)
Definition parse_frac (input : string16) : option (list N * string16) :=
  match input with
  | c :: rest =>
      if (c =? 46)%N then
        match take_digits rest with
        | ([], _) => None
        | found => Some found
        end
      else Some ([], input)
  | [] => Some ([], [])
  end.

(** [exp]: nothing, or [e] or [E], a sign or none, at least one digit. *)
Definition parse_exp (input : string16) : option (Z * string16) :=
  match input with
  | c :: rest =>
      if ((c =? 101) || (c =? 69))%N then
        let (neg, digits) :=
          match rest with
          | c' :: rest' =>
              if (c' =? 45)%N then (true, rest')
              else if (c' =? 43)%N then (false, rest')
              else (false, rest)
          | [] => (false, rest)
          end in
        match take_digits digits with
        | ([], _) => None
        | (ds, input') =>
            let e := Z.of_N (of_digits 10 ds) in
            Some (if neg then (- e)%Z else e, input')
        end
      else Some (0%Z, input)
  | [] => Some (0%Z, [])
  end.

Definition parse_unsigned (neg : bool) (input : string16)
  : option (number * string16) :=
  match parse_int input with
  | None => None
  | Some (int, input1) =>
      match parse_frac input1 with
      | None => None
      | Some (frac, input2) =>
          match parse_exp input2 with
          | None => None
          | Some (exp, input') =>
              Some (Number.of_decimal neg int frac exp, input')
          end
      end
  end.

(** [number]: a minus sign or none, then [int], [frac] and [exp]. *)
Definition parse_number (input : string16) : option (number * string16) :=
  match input with
  | c :: rest =>
      if (c =? 45)%N then parse_unsigned true rest
      else parse_unsigned false input
  | [] => None
  end.

Definition hex_value (c : code_unit) : option N :=
  if is_decimal_digit c then Some (c - 48)%N
  else if ((97 <=? c) && (c <=? 102))%N then Some (c - 87)%N
  else if ((65 <=? c) && (c <=? 70))%N then Some (c - 55)%N
  else None.

Definition hex4_value (a b c d : code_unit) : option code_unit :=
  match hex_value a, hex_value b, hex_value c, hex_value d with
  | Some x, Some y, Some z, Some w => Some (((x * 16 + y) * 16 + z) * 16 + w)%N
  | _, _, _, _ => None
  end.

(** The character after a backslash, [u] apart. *)
Definition escape_value (c : code_unit) : option code_unit :=
  if (c =? 34)%N then Some 34%N
  else if (c =? 47)%N then Some 47%N
  else if (c =? 92)%N then Some 92%N
  else if (c =? 98)%N then Some 8%N
  else if (c =? 102)%N then Some 12%N
  else if (c =? 110)%N then Some 10%N
  else if (c =? 114)%N then Some 13%N
  else if (c =? 116)%N then Some 9%N
  else None.

Definition consing (c : code_unit) (r : option (string16 * string16))
  : option (string16 * string16) :=
  match r with
  | Some (s, input') => Some (c :: s, input')
  | None => None
  end.

(** The characters of a string after its opening quote, up to and
    including the closing quote. *)
Fixpoint parse_string_chars (input : string16) : option (string16 * string16) :=
  match input with
  | [] => None
  | c :: rest =>
      if (c =? 34)%N then Some ([], rest)
      else if (c =? 92)%N then
        match rest with
        | [] => None
        | e :: rest1 =>
            if (e =? 117)%N then
              match rest1 with
              | h1 :: h2 :: h3 :: h4 :: rest2 =>
                  match hex4_value h1 h2 h3 h4 with
                  | Some u => consing u (parse_string_chars rest2)
                  | None => None
                  end
              | _ => None
              end
            else
              match escape_value e with
              | Some u => consing u (parse_string_chars rest1)
              | None => None
              end
        end
      else if (c <? 32)%N then None
      else consing c (parse_string_chars rest)
  end.

(** The input after a keyword, when it starts with the keyword. *)
Fixpoint expect (word input : string16) : option string16 :=
  match word with
  | [] => Some input
  | w :: word' =>
      match input with
      | c :: input' => if (c =? w)%N then expect word' input' else None
      | [] => None
      end
  end.

(** A value at the front of the input, which starts at the first
    character of the value.  An object is built member by member with
    [CreateDataProperty], so of two members with one key the later wins.
    [fuel] bounds the number of values and members read. *)
Fixpoint parse_value (fuel : nat) (input : string16)
  : option (value * string16) :=
  match fuel with
  | O => None
  | S fuel' =>
      match input with
      | [] => None
      | c :: rest =>
          if (c =? 110)%N then
            option_map (pair VNull) (expect (lit "null") input)
          else if (c =? 116)%N then
            option_map (pair (VBoolean true)) (expect (lit "true") input)
          else if (c =? 102)%N then
            option_map (pair (VBoolean false)) (expect (lit "false") input)
          else if (c =? 34)%N then
            match parse_string_chars rest with
            | Some (s, input') => Some (VString s, input')
            | None => None
            end
          else if (c =? 91)%N then
            match skip_whitespace rest with
            | c' :: rest' =>
                if (c' =? 93)%N then Some (VArray [], rest')
                else
                  match parse_elements fuel' (c' :: rest') with
                  | Some (l, input') => Some (VArray l, input')
                  | None => None
                  end
            | [] => None
            end
          else if (c =? 123)%N then
            match skip_whitespace rest with
            | c' :: rest' =>
                if (c' =? 125)%N then Some (VObject [], rest')
                else
                  match parse_members fuel' [] (c' :: rest') with
                  | Some (l, input') => Some (VObject l, input')
                  | None => None
                  end
            | [] => None
            end
          else
            match parse_number input with
            | Some (x, input') => Some (VNumber x, input')
            | None => None
            end
      end
  end

(** The elements of an array after the opening bracket and whitespace,
    up to and including the closing bracket. *)
with parse_elements (fuel : nat) (input : string16)
  : option (list value * string16) :=
  match fuel with
  | O => None
  | S fuel' =>
      match parse_value fuel' input with
      | None => None
      | Some (v, input') =>
          match skip_whitespace input' with
          | c :: rest =>
              if (c =? 44)%N then
                match parse_elements fuel' (skip_whitespace rest) with
                | Some (l, input'') => Some (v :: l, input'')
                | None => None
                end
              else if (c =? 93)%N then Some ([v], rest)
              else None
          | [] => None
          end
      end
  end

(** The members of an object after the opening brace and whitespace, up
    to and including the closing brace; [acc] holds the members read. *)
with parse_members (fuel : nat) (acc : list (string16 * value))
  (input : string16) : option (list (string16 * value) * string16) :=
  match fuel with
  | O => None
  | S fuel' =>
      match input with
      | c :: rest =>
          if (c =? 34)%N then
            match parse_string_chars rest with
            | None => None
            | Some (key, input') =>
                match skip_whitespace input' with
                | c' :: rest' =>
                    if (c' =? 58)%N then
                      match parse_value fuel' (skip_whitespace rest') with
                      | None => None
                      | Some (v, input'') =>
                          let acc' := Obj.CreateDataProperty acc key v in
                          match skip_whitespace input'' with
                          | c2 :: rest2 =>
                              if (c2 =? 44)%N then
                                parse_members fuel' acc' (skip_whitespace rest2)
                              else if (c2 =? 125)%N then Some (acc', rest2)
                              else None
                          | [] => None
                          end
                      end
                    else None
                | [] => None
                end
            end
          else None
      | [] => None
      end
  end.

(** [JSON.parse(text)] without a reviver: whitespace, one value,
    whitespace, the end of the text; a [SyntaxError] otherwise. *)
Definition parse (text : string16) : outcome value :=
  match parse_value (S (length text)) (skip_whitespace text) with
  | Some (v, input') =>
      match skip_whitespace input' with
      | [] => Returns v
      | _ => Throws SyntaxError
      end
  | None => Throws SyntaxError
  end.


(** *** Strings read back *)

Lemma hex_value_digit d : (d < 16)%N -> hex_value (digit_char d) = Some d.
Proof.
  intros H. unfold hex_value, digit_char, is_decimal_digit.
  destruct (N.ltb_spec d 10) as [Hd|Hd].
  - replace ((48 <=? 48 + d) && (48 + d <=? 57))%N with true.
    + f_equal. lia.
    + symmetry. apply andb_true_intro; split; apply N.leb_le; lia.
  - replace ((48 <=? 87 + d) && (87 + d <=? 57))%N with false.
    + replace ((97 <=? 87 + d) && (87 + d <=? 102))%N with true.
      * f_equal. lia.
      * symmetry. apply andb_true_intro; split; apply N.leb_le; lia.
    + symmetry. apply andb_false_intro2. apply N.leb_gt. lia.
Qed.

Lemma hex4_value_hex4 c : (c < 65536)%N ->
  hex4_value (digit_char ((c / 4096) mod 16)) (digit_char ((c / 256) mod 16))
             (digit_char ((c / 16) mod 16)) (digit_char (c mod 16)) = Some c.
Proof.
  intros H. unfold hex4_value.
  rewrite !hex_value_digit by (apply N.mod_lt; discriminate).
  f_equal.
  pose proof (N.Div0.div_mod c 16) as E1.
  pose proof (N.Div0.div_mod (c / 16) 16) as E2.
  pose proof (N.Div0.div_mod (c / 256) 16) as E3.
  rewrite N.Div0.div_div in E2. rewrite N.Div0.div_div in E3.
  change (16 * 16)%N with 256%N in E2. change (256 * 16)%N with 4096%N in E3.
  assert (c / 4096 < 16)%N as Hq
    by (apply N.Div0.div_lt_upper_bound; lia).
  rewrite (N.mod_small (c / 4096) 16) by assumption.
  lia.
Qed.

Lemma parse_unicode_escape c t : (c < 65536)%N ->
  parse_string_chars (UnicodeEscape c ++ t) = consing c (parse_string_chars t).
Proof.
  intros H. unfold UnicodeEscape, hex4.
  change (lit "\u") with [92; 117]%N.
  cbn [map app parse_string_chars].
  change (92 =? 34)%N with false. change (92 =? 92)%N with true.
  change (117 =? 117)%N with true. cbv iota.
  now rewrite hex4_value_hex4.
Qed.

Lemma parse_raw_unit c t : c <> 34%N -> c <> 92%N -> (32 <= c)%N ->
  parse_string_chars (c :: t) = consing c (parse_string_chars t).
Proof.
  intros H1 H2 H3. cbn [parse_string_chars].
  destruct (N.eqb_spec c 34); [contradiction|].
  destruct (N.eqb_spec c 92); [contradiction|].
  destruct (N.ltb_spec c 32); [lia|]. reflexivity.
Qed.

Lemma parse_quote_unit c t :
  parse_string_chars (quote_unit c ++ t) = consing c (parse_string_chars t).
Proof.
  unfold quote_unit.
  destruct (N.eqb_spec c 8); [subst; reflexivity|].
  destruct (N.eqb_spec c 9); [subst; reflexivity|].
  destruct (N.eqb_spec c 10); [subst; reflexivity|].
  destruct (N.eqb_spec c 12); [subst; reflexivity|].
  destruct (N.eqb_spec c 13); [subst; reflexivity|].
  destruct (N.eqb_spec c 34); [subst; reflexivity|].
  destruct (N.eqb_spec c 92); [subst; reflexivity|].
  destruct (N.ltb_spec c 32).
  - apply parse_unicode_escape. lia.
  - now apply parse_raw_unit.
Qed.

Lemma surrogate_bounds c :
  is_leading_surrogate c = true \/ is_trailing_surrogate c = true ->
  (55296 <= c < 65536)%N.
Proof.
  unfold is_leading_surrogate, is_trailing_surrogate.
  intros [H|H]; apply andb_prop in H; destruct H as [H1 H2];
    apply N.leb_le in H1; apply N.leb_le in H2; lia.
Qed.

Lemma parse_quote_units_bounded n : forall s rest, (length s <= n)%nat ->
  parse_string_chars (quote_units s ++ 34%N :: rest) = Some (s, rest).
Proof.
  induction n as [|n IH]; intros s rest Hlen.
  - destruct s; [reflexivity|simpl in Hlen; lia].
  - destruct s as [|c s]; [reflexivity|].
    simpl in Hlen. cbn [quote_units].
    destruct (is_leading_surrogate c) eqn:Hlead.
    + pose proof (surrogate_bounds c (or_introl Hlead)) as Hc.
      destruct s as [|d s].
      * rewrite parse_unicode_escape by lia. reflexivity.
      * destruct (is_trailing_surrogate d) eqn:Htrail.
        -- pose proof (surrogate_bounds d (or_intror Htrail)) as Hd.
           cbn [app]. rewrite !parse_raw_unit by lia.
           simpl in Hlen. rewrite IH by lia. reflexivity.
        -- rewrite <- app_assoc, parse_unicode_escape by lia.
           rewrite IH by lia. reflexivity.
    + destruct (is_trailing_surrogate c) eqn:Htrail.
      * pose proof (surrogate_bounds c (or_intror Htrail)) as Hc.
        rewrite <- app_assoc, parse_unicode_escape by lia.
        rewrite IH by lia. reflexivity.
      * rewrite <- app_assoc, parse_quote_unit, IH by lia. reflexivity.
Qed.

(** Reading the characters [QuoteJSONString] wrote gives the string
    back, whatever follows the closing quote. *)
Lemma parse_quoted s rest :
  parse_string_chars (quote_units s ++ 34%N :: rest) = Some (s, rest).
Proof. now apply (parse_quote_units_bounded (length s)). Qed.


(** *** Numbers read back *)

Definition digit_free (rest : string16) : bool :=
  match rest with
  | [] => true
  | c :: _ => negb (is_decimal_digit c)
  end.

(** What may follow a number for the reader to stop after it. *)
Definition number_end (rest : string16) : bool :=
  match rest with
  | [] => true
  | c :: _ =>
      negb (is_decimal_digit c) && negb (c =? 46)%N
      && negb (c =? 101)%N && negb (c =? 69)%N
  end.

Lemma number_end_digit_free rest : number_end rest = true -> digit_free rest = true.
Proof.
  destruct rest as [|c rest]; [reflexivity|]. simpl.
  intros H. repeat (apply andb_prop in H; destruct H as [H ?]). assumption.
Qed.

Lemma digit_char_value d : (d < 10)%N -> (digit_char d - 48)%N = d.
Proof. intros H. unfold digit_char. destruct (N.ltb_spec d 10); lia. Qed.

Lemma take_digits_string ds rest :
  Forall (fun d => d < 10)%N ds -> digit_free rest = true ->
  take_digits (digits_string ds ++ rest) = (ds, rest).
Proof.
  intros Hds Hrest.
  induction Hds as [|d ds Hd _ IH]; cbn [digits_string map app take_digits].
  - destruct rest as [|c rest]; [reflexivity|].
    simpl in Hrest. cbn [take_digits].
    destruct (is_decimal_digit c); [discriminate|reflexivity].
  - rewrite digit_char_decimal by assumption.
    change (map digit_char ds) with (digits_string ds).
    rewrite IH. now rewrite digit_char_value.
Qed.

Lemma zeros_digits n : Number.zeros n = digits_string (repeat 0%N n).
Proof.
  unfold Number.zeros, digits_string.
  induction n; simpl; [reflexivity|]. now rewrite <- IHn.
Qed.

Lemma Forall_repeat_zero n : Forall (fun d => d < 10)%N (repeat 0%N n).
Proof. induction n; simpl; constructor; [lia|assumption]. Qed.

Lemma drop_zeros_repeat n l :
  Number.drop_zeros (repeat 0%N n ++ l) = Number.drop_zeros l.
Proof. induction n; simpl; [reflexivity|assumption]. Qed.

Lemma drop_zeros_head d l : d <> 0%N -> Number.drop_zeros (d :: l) = d :: l.
Proof. intros H. destruct d; [contradiction|reflexivity]. Qed.

Lemma rev_repeat_zero n : rev (repeat 0%N n) = repeat 0%N n.
Proof.
  induction n; simpl; [reflexivity|].
  rewrite IHn. clear IHn. induction n; simpl; [reflexivity|].
  now rewrite IHn.
Qed.

(** The digits of a positive integer with no trailing zero. *)
Record digits_of (s : positive) (ds : list N) : Prop := {
  digits_bound : Forall (fun d => d < 10)%N ds;
  digits_value : of_digits 10 ds = N.pos s;
  digits_first : exists d rest, ds = d :: rest /\ d <> 0%N;
  digits_last : exists front e, ds = front ++ [e] /\ e <> 0%N
}.

Lemma to_digits_of s :
  Number.canonical (Number.Finite false s 0) = true ->
  digits_of s (to_digits 10 (N.pos s)).
Proof.
  intros Hc. simpl in Hc. apply negb_true_iff, N.eqb_neq in Hc.
  split.
  - apply to_digits_bound. lia.
  - apply of_to_digits. lia.
  - destruct (to_digits_head 10 (N.pos s)) as (d & rest & E & Hd); [lia|lia|].
    exists d, rest. split; [assumption|lia].
  - destruct (to_digits_last 10 (N.pos s)) as (front & E); [lia|].
    now exists front, (N.pos s mod 10)%N.
Qed.

Lemma of_decimal_digits neg s ds int frac exp a b :
  digits_of s ds ->
  int ++ frac = repeat 0%N a ++ ds ++ repeat 0%N b ->
  Number.of_decimal neg int frac exp
  = Number.Finite neg s (Z.of_nat (length int) - Z.of_nat a + exp).
Proof.
  intros [_ Hval (d & rest & E & Hd) (front & e & E' & He)] Hall.
  unfold Number.of_decimal. rewrite Hall.
  rewrite drop_zeros_repeat.
  assert (Number.drop_zeros (ds ++ repeat 0%N b) = ds ++ repeat 0%N b) as ->
    by (rewrite E; apply drop_zeros_head; assumption).
  rewrite rev_app_distr, rev_repeat_zero, drop_zeros_repeat.
  assert (Number.drop_zeros (rev ds) = rev ds) as ->
    by (rewrite E', rev_app_distr; apply drop_zeros_head; assumption).
  rewrite rev_involutive, Hval.
  f_equal. rewrite !length_app, repeat_length. lia.
Qed.

Lemma parse_int_digits d ds rest :
  Forall (fun d => d < 10)%N (d :: ds) -> d <> 0%N -> digit_free rest = true ->
  parse_int (digits_string (d :: ds) ++ rest) = Some (d :: ds, rest).
Proof.
  intros Hds Hd Hrest.
  pose proof (take_digits_string (d :: ds) rest Hds Hrest) as E.
  unfold parse_int. cbn [digits_string map app] in *.
  inversion Hds as [|? ? Hd10 _]; subst.
  destruct (N.eqb_spec (digit_char d) 48) as [E0|_].
  - unfold digit_char in E0. destruct (N.ltb_spec d 10); lia.
  - rewrite digit_char_decimal by assumption. now rewrite E.
Qed.

Lemma parse_frac_none rest : number_end rest = true ->
  parse_frac rest = Some ([], rest).
Proof.
  destruct rest as [|c rest]; [reflexivity|]. simpl. intros H.
  repeat (apply andb_prop in H; destruct H as [H ?]).
  destruct (c =? 46)%N; [discriminate|reflexivity].
Qed.

Lemma parse_exp_none rest : number_end rest = true ->
  parse_exp rest = Some (0%Z, rest).
Proof.
  destruct rest as [|c rest]; [reflexivity|]. simpl. intros H.
  repeat (apply andb_prop in H; destruct H as [H ?]).
  destruct (c =? 101)%N; [discriminate|].
  destruct (c =? 69)%N; [discriminate|reflexivity].
Qed.

Lemma parse_frac_digits d ds rest :
  Forall (fun d => d < 10)%N (d :: ds) -> digit_free rest = true ->
  parse_frac (46%N :: digits_string (d :: ds) ++ rest) = Some (d :: ds, rest).
Proof.
  intros Hds Hrest. unfold parse_frac.
  change (46 =? 46)%N with true. cbv iota.
  now rewrite take_digits_string.
Qed.

Lemma to_digits_nonempty radix n : (2 <= radix)%N ->
  exists d ds, to_digits radix n = d :: ds.
Proof.
  intros Hr. destruct (to_digits_last radix n Hr) as (front & E).
  rewrite E. destruct front as [|d front]; simpl; eauto.
Qed.

Lemma parse_exp_string n rest :
  ((-5 <=? n) && (n <=? 21))%Z = false -> digit_free rest = true ->
  parse_exp (Number.exponent_string n ++ rest) = Some ((n - 1)%Z, rest).
Proof.
  intros Hn Hrest. unfold Number.exponent_string.
  change (lit "e") with [101%N].
  pose proof (to_digits_bound 10 (Z.abs_N (n - 1))) as Hb.
  pose proof (of_to_digits 10 (Z.abs_N (n - 1))) as Hv.
  destruct (to_digits_nonempty 10 (Z.abs_N (n - 1))) as (d & ds & E); [lia|].
  rewrite E in *.
  assert (Forall (fun d => d < 10)%N (d :: ds)) as Hb' by (apply Hb; lia).
  assert (Z.of_N (of_digits 10 (d :: ds)) = Z.abs (n - 1)) as Hv'
    by (rewrite Hv by lia; apply N2Z.inj_abs_N).
  destruct (Z.ltb_spec n 0) as [Hneg|Hpos].
  - change (lit "-") with [45%N]. cbn [app parse_exp].
    change ((101 =? 101) || (101 =? 69))%N with true.
    change (45 =? 45)%N with true. cbv iota.
    rewrite take_digits_string by assumption.
    rewrite Hv'. f_equal. f_equal. lia.
  - change (lit "+") with [43%N]. cbn [app parse_exp].
    change ((101 =? 101) || (101 =? 69))%N with true.
    change (43 =? 45)%N with false. change (43 =? 43)%N with true. cbv iota.
    rewrite take_digits_string by assumption.
    rewrite Hv'. f_equal. f_equal.
    apply andb_false_iff in Hn. destruct Hn as [Hn|Hn]; apply Z.leb_gt in Hn; lia.
Qed.

Lemma digits_string_app a b :
  digits_string (a ++ b) = digits_string a ++ digits_string b.
Proof. apply map_app. Qed.

Lemma length_digits_string ds : length (digits_string ds) = length ds.
Proof. apply length_map. Qed.

Lemma digit_free_cons c rest :
  is_decimal_digit c = false -> digit_free (c :: rest) = true.
Proof. intros H. simpl. now rewrite H. Qed.

(** Every form [Number::toString] gives a finite non-zero Number is read
    back as that Number. *)
Lemma parse_unsigned_finite neg s n rest :
  Number.canonical (Number.Finite neg s n) = true ->
  number_end rest = true ->
  parse_unsigned neg (Number.finite_toString s n ++ rest)
  = Some (Number.Finite neg s n, rest).
Proof.
  intros Hc Hrest.
  pose proof (to_digits_of s Hc) as Hds.
  pose proof (number_end_digit_free rest Hrest) as Hfree.
  unfold Number.finite_toString, Number.positional.
  set (ds := to_digits 10 (N.pos s)) in *.
  pose proof Hds as [Hb Hv (d & tl & E & Hd) Hl].
  cbv zeta. rewrite !length_digits_string.
  unfold parse_unsigned.
  destruct ((-5 <=? n) && (n <=? 21))%Z eqn:Hrange.
  - destruct (Z.leb_spec (Z.of_nat (length ds)) n) as [Hkn|Hkn].
    + (* digits, then zeros *)
      rewrite zeros_digits, <- digits_string_app.
      rewrite E in *. cbn [app].
      rewrite parse_int_digits; try assumption.
      * rewrite parse_frac_none, parse_exp_none by assumption.
        f_equal. f_equal.
        rewrite (of_decimal_digits neg s (d :: tl) _ _ _ 0
                   (Z.to_nat (n - Z.of_nat (length (d :: tl)))) Hds).
        -- f_equal. cbn [length] in *. rewrite length_app, repeat_length. lia.
        -- now rewrite app_nil_r.
      * change (d :: tl ++ repeat 0%N (Z.to_nat (n - Z.of_nat (length (d :: tl)))))
          with ((d :: tl) ++ repeat 0%N (Z.to_nat (n - Z.of_nat (length (d :: tl))))).
        apply Forall_app. split; [assumption|apply Forall_repeat_zero].
    + destruct (Z.ltb_spec 0 n) as [Hpos|Hnonpos].
      * (* digits, a point, digits *)
        unfold digits_string. rewrite firstn_map, skipn_map.
        change (lit ".") with [46%N].
        rewrite <- !app_assoc. cbn [app].
        pose proof (firstn_skipn (Z.to_nat n) ds) as Hsplit.
        destruct (firstn (Z.to_nat n) ds) as [|d1 front] eqn:Efront.
        { rewrite E in Efront. destruct (Z.to_nat n) eqn:En; [lia|discriminate]. }
        destruct (skipn (Z.to_nat n) ds) as [|d2 back] eqn:Eback.
        { apply (f_equal (@length N)) in Hsplit.
          rewrite length_app, <- Efront, length_firstn in Hsplit.
          simpl in Hsplit. lia. }
        assert (Forall (fun d => d < 10)%N (d1 :: front)
                /\ Forall (fun d => d < 10)%N (d2 :: back)) as [Hf Hk]
          by (apply Forall_app; rewrite Hsplit; assumption).
        assert (d1 = d) as -> by (rewrite E in Efront;
          destruct (Z.to_nat n); [discriminate|simpl in Efront; congruence]).
        change (map digit_char (d :: front)) with (digits_string (d :: front)).
        change (map digit_char (d2 :: back)) with (digits_string (d2 :: back)).
        rewrite parse_int_digits; [|assumption|assumption|reflexivity].
        rewrite parse_frac_digits by assumption.
        rewrite parse_exp_none by assumption.
        f_equal. f_equal.
        rewrite (of_decimal_digits neg s ds _ _ _ 0
                   0 Hds).
        -- f_equal.
           assert (length (d :: front) = Z.to_nat n) as ->
             by (rewrite <- Efront, length_firstn; lia).
           lia.
        -- now rewrite Hsplit, app_nil_r.
      * (* zero, a point, zeros, digits *)
        change (lit "0.") with [48%N; 46%N].
        rewrite zeros_digits, <- !app_assoc. cbn [app].
        unfold parse_int. change (48 =? 48)%N with true. cbv iota.
        rewrite app_assoc, <- digits_string_app.
        destruct (repeat 0%N (Z.to_nat (- n)) ++ ds) as [|d0 ds0] eqn:Eall.
        { rewrite E in Eall. now destruct (repeat 0%N (Z.to_nat (- n))). }
        assert (Forall (fun d => d < 10)%N (d0 :: ds0)) as Hall
          by (rewrite <- Eall; apply Forall_app; split;
              [apply Forall_repeat_zero|assumption]).
        rewrite parse_frac_digits by assumption.
        rewrite parse_exp_none by assumption.
        f_equal. f_equal.
        rewrite (of_decimal_digits neg s ds _ _ _ (S (Z.to_nat (- n)))
                   0 Hds).
        -- f_equal. cbn [length]. lia.
        -- rewrite <- Eall, app_nil_r. reflexivity.
  - (* exponent forms *)
    assert (d < 10)%N as Hd10 by (rewrite E in Hb; now inversion Hb).
    assert (Forall (fun d => d < 10)%N tl) as Htl
      by (rewrite E in Hb; now inversion Hb).
    assert (is_decimal_digit 101%N = false) as He by reflexivity.
    assert (is_decimal_digit 46%N = false) as Hp by reflexivity.
    destruct tl as [|d2 tl]; rewrite E; cbn [digits_string map].
    + cbn [app].
      change (digit_char d :: Number.exponent_string n ++ rest)
        with (digits_string [d] ++ Number.exponent_string n ++ rest).
      rewrite parse_int_digits;
        [|now constructor|assumption|unfold Number.exponent_string;
           now apply digit_free_cons].
      unfold Number.exponent_string at 1. change (lit "e") with [101%N].
      cbn [app]. unfold parse_frac. change (101 =? 46)%N with false. cbv iota.
      change (101%N :: ((if (n <? 0)%Z then lit "-" else lit "+")
                ++ digits_string (to_digits 10 (Z.abs_N (n - 1)))) ++ rest)
        with (Number.exponent_string n ++ rest).
      rewrite parse_exp_string by assumption.
      f_equal. f_equal.
      rewrite (of_decimal_digits neg s ds _ _ _ 0 0 Hds).
      * f_equal. cbn [length]. lia.
      * now rewrite E.
    + change (lit ".") with [46%N]. cbn [app]. rewrite <- !app_assoc.
      change (digit_char d :: 46%N :: digit_char d2 :: map digit_char tl
                ++ Number.exponent_string n ++ rest)
        with (digits_string [d] ++ 46%N :: digits_string (d2 :: tl)
                ++ Number.exponent_string n ++ rest).
      rewrite parse_int_digits;
        [|now repeat constructor|assumption|now apply digit_free_cons].
      rewrite parse_frac_digits;
        [|assumption|unfold Number.exponent_string; now apply digit_free_cons].
      rewrite parse_exp_string by assumption.
      f_equal. f_equal.
      rewrite (of_decimal_digits neg s ds _ _ _ 0 0 Hds).
      * f_equal. cbn [length]. lia.
      * now rewrite E, app_nil_r.
Qed.

Lemma finite_toString_head s n :
  exists c t, Number.finite_toString s n = c :: t /\ is_decimal_digit c = true.
Proof.
  unfold Number.finite_toString, Number.positional.
  destruct (to_digits_nonempty 10 (N.pos s)) as (d & tl & E); [lia|].
  pose proof (to_digits_bound 10 (N.pos s)) as Hb.
  rewrite E in *. cbv zeta.
  assert (is_decimal_digit (digit_char d) = true) as Hd
    by (apply digit_char_decimal; assert (2 <= 10)%N as H2 by lia;
        specialize (Hb H2); now inversion Hb).
  rewrite length_digits_string.
  cbn [digits_string map].
  destruct ((-5 <=? n) && (n <=? 21))%Z.
  - destruct (Z.leb_spec (Z.of_nat (length (d :: tl))) n).
    + cbn [app]. eauto.
    + destruct (Z.ltb_spec 0 n).
      * destruct (Z.to_nat n) eqn:En; [lia|]. cbn [firstn app]. eauto.
      * exists 48%N. eexists. split; reflexivity.
  - destruct (map digit_char tl); eauto.
Qed.

Definition positive_zero (x : number) : number :=
  match x with
  | Number.Zero _ => Number.Zero false
  | _ => x
  end.

(** A finite Number is read back from its [Number::toString], up to the
    sign of zero, which the string does not show. *)
Lemma parse_number_toString x rest :
  Number.is_finite x = true -> Number.canonical x = true ->
  number_end rest = true ->
  parse_number (Number.toString x ++ rest) = Some (positive_zero x, rest).
Proof.
  intros Hfin Hc Hrest. destruct x as [| |neg|neg s n]; try discriminate.
  - change (Number.toString (Number.Zero neg) ++ rest) with (48%N :: rest).
    unfold parse_number, parse_unsigned, parse_int.
    change (48 =? 45)%N with false. change (48 =? 48)%N with true. cbv iota.
    now rewrite parse_frac_none, parse_exp_none.
  - destruct neg; cbn [Number.toString Number.sign_string].
    + change (lit "-") with [45%N]. cbn [app parse_number].
      change (45 =? 45)%N with true. cbv iota.
      now apply parse_unsigned_finite.
    + cbn [app].
      pose proof (parse_unsigned_finite false s n rest Hc Hrest) as Hp.
      destruct (finite_toString_head s n) as (c & t & E & Hd).
      rewrite E in *. cbn [app parse_number] in *.
      destruct (N.eqb_spec c 45) as [->|_]; [discriminate|assumption].
Qed.

(** *** Whitespace *)

Definition starts_value (text : string16) : bool :=
  match text with
  | c :: _ => negb (is_whitespace c) && negb (c =? 93)%N && negb (c =? 125)%N
  | [] => false
  end.

Lemma skip_whitespace_over w text :
  Forall (fun c => is_whitespace c = true) w ->
  skip_whitespace (w ++ text) = skip_whitespace text.
Proof.
  induction 1 as [|c w Hc _ IH]; [reflexivity|].
  cbn [app skip_whitespace]. now rewrite Hc.
Qed.

Lemma skip_whitespace_start text rest :
  starts_value text = true -> skip_whitespace (text ++ rest) = text ++ rest.
Proof.
  destruct text as [|c text]; [discriminate|]. cbn [starts_value].
  intros H. apply andb_prop in H. destruct H as [H _].
  apply andb_prop in H. destruct H as [H _].
  apply negb_true_iff in H.
  cbn [app skip_whitespace]. now rewrite H.
Qed.

Lemma skip_whitespace_to w text rest :
  Forall (fun c => is_whitespace c = true) w -> starts_value text = true ->
  skip_whitespace (w ++ text ++ rest) = text ++ rest.
Proof.
  intros Hw Ht. now rewrite skip_whitespace_over, skip_whitespace_start.
Qed.

(** *** Values read back *)

(** The loops of [SerializeJSONArray] and [SerializeJSONObject]. *)
Fixpoint serialize_elements (gap indent : string16) (l : list value)
  : outcome (list string16) :=
  match l with
  | [] => Returns []
  | e :: rest =>
      strP <- SerializeJSONProperty gap indent e ;;
      more <- serialize_elements gap indent rest ;;
      Returns (match strP with
               | None => lit "null"
               | Some text => text
               end :: more)
  end.

Fixpoint serialize_members (gap indent : string16)
  (l : list (string16 * value)) : outcome (list string16) :=
  match l with
  | [] => Returns []
  | (P, e) :: rest =>
      strP <- SerializeJSONProperty gap indent e ;;
      more <- serialize_members gap indent rest ;;
      Returns (match strP with
               | None => more
               | Some text => member gap P text :: more
               end)
  end.

Lemma SerializeJSONProperty_array gap indent l :
  SerializeJSONProperty gap indent (VArray l)
  = (partial <- serialize_elements gap (indent ++ gap) l ;;
     Returns (Some (wrap (lit "[") (lit "]") gap indent (indent ++ gap) partial))).
Proof.
  cbn [SerializeJSONProperty]. f_equal.
  induction l as [|e l IH]; [reflexivity|].
  cbn [serialize_elements]. now rewrite IH.
Qed.

Lemma SerializeJSONProperty_object gap indent props :
  SerializeJSONProperty gap indent (VObject props)
  = if callable_toJSON props then RunsUserCode
    else
      partial <- serialize_members gap (indent ++ gap) props ;;
      Returns (Some (wrap (lit "{") (lit "}") gap indent (indent ++ gap) partial)).
Proof.
  cbn [SerializeJSONProperty]. destruct (callable_toJSON props); [reflexivity|].
  f_equal.
  induction props as [|[k e] l IH]; [reflexivity|].
  cbn [serialize_members]. now rewrite IH.
Qed.

Lemma parse_elements_step fuel input :
  parse_elements (S fuel) input
  = match parse_value fuel input with
    | None => None
    | Some (v, input') =>
        match skip_whitespace input' with
        | c :: rest =>
            if (c =? 44)%N then
              match parse_elements fuel (skip_whitespace rest) with
              | Some (l, input'') => Some (v :: l, input'')
              | None => None
              end
            else if (c =? 93)%N then Some ([v], rest)
            else None
        | [] => None
        end
    end.
Proof. reflexivity. Qed.

Lemma parse_members_step fuel acc rest :
  parse_members (S fuel) acc (34%N :: rest)
  = match parse_string_chars rest with
    | None => None
    | Some (key, input') =>
        match skip_whitespace input' with
        | c' :: rest' =>
            if (c' =? 58)%N then
              match parse_value fuel (skip_whitespace rest') with
              | None => None
              | Some (v, input'') =>
                  let acc' := Obj.CreateDataProperty acc key v in
                  match skip_whitespace input'' with
                  | c2 :: rest2 =>
                      if (c2 =? 44)%N then
                        parse_members fuel acc' (skip_whitespace rest2)
                      else if (c2 =? 125)%N then Some (acc', rest2)
                      else None
                  | [] => None
                  end
              end
            else None
        | [] => None
        end
    end.
Proof. reflexivity. Qed.

Lemma parse_value_array fuel rest :
  parse_value (S fuel) (91%N :: rest)
  = match skip_whitespace rest with
    | c' :: rest' =>
        if (c' =? 93)%N then Some (VArray [], rest')
        else
          match parse_elements fuel (c' :: rest') with
          | Some (l, input') => Some (VArray l, input')
          | None => None
          end
    | [] => None
    end.
Proof. reflexivity. Qed.

Lemma parse_value_object fuel rest :
  parse_value (S fuel) (123%N :: rest)
  = match skip_whitespace rest with
    | c' :: rest' =>
        if (c' =? 125)%N then Some (VObject [], rest')
        else
          match parse_members fuel [] (c' :: rest') with
          | Some (l, input') => Some (VObject l, input')
          | None => None
          end
    | [] => None
    end.
Proof. reflexivity. Qed.

Lemma parse_value_string fuel rest :
  parse_value (S fuel) (34%N :: rest)
  = match parse_string_chars rest with
    | Some (s, input') => Some (VString s, input')
    | None => None
    end.
Proof. reflexivity. Qed.

Lemma parse_value_number fuel c rest :
  is_decimal_digit c = true \/ c = 45%N ->
  parse_value (S fuel) (c :: rest)
  = match parse_number (c :: rest) with
    | Some (x, input') => Some (VNumber x, input')
    | None => None
    end.
Proof.
  intros H. cbn [parse_value].
  assert (c <> 110 /\ c <> 116 /\ c <> 102 /\ c <> 34 /\ c <> 91 /\ c <> 123)%N
    as (H1 & H2 & H3 & H4 & H5 & H6).
  { destruct H as [H| ->]; [|repeat split; discriminate].
    unfold is_decimal_digit in H. apply andb_prop in H. destruct H as [Ha Hb].
    apply N.leb_le in Ha, Hb. lia. }
  destruct (N.eqb_spec c 110); [contradiction|].
  destruct (N.eqb_spec c 116); [contradiction|].
  destruct (N.eqb_spec c 102); [contradiction|].
  destruct (N.eqb_spec c 34); [contradiction|].
  destruct (N.eqb_spec c 91); [contradiction|].
  destruct (N.eqb_spec c 123); [contradiction|].
  reflexivity.
Qed.

Definition whitespace (w : string16) : Prop :=
  Forall (fun c => is_whitespace c = true) w.

(** The fuel a value takes to read. *)
Fixpoint size (v : value) : nat :=
  match v with
  | VArray l => S (fold_right (fun e n => S (size e + n)) 0 l)
  | VObject props => S (fold_right (fun kv n => S (size (snd kv) + n)) 0 props)
  | _ => 1
  end.

Definition need_elements (l : list value) : nat :=
  fold_right (fun e n => S (size e + n)) 0 l.

Definition need_members (l : list (string16 * value)) : nat :=
  fold_right (fun kv n => S (size (snd kv) + n)) 0 l.

(** The text of [v] at any indentation is read back as [v], up to the
    sign of zero, whatever follows it that ends a number. *)
Definition reads_back (v : value) : Prop :=
  forall gap indent, whitespace gap -> whitespace indent ->
  exists text,
    SerializeJSONProperty gap indent v = Returns (Some text)
    /\ starts_value text = true
    /\ (size v <= length text)%nat
    /\ forall fuel rest, (size v <= fuel)%nat -> number_end rest = true ->
         parse_value fuel (text ++ rest) = Some (positive_zeros v, rest).

Lemma whitespace_number_end c : is_whitespace c = true ->
  (negb (is_decimal_digit c) && negb (c =? 46) && negb (c =? 101)
   && negb (c =? 69))%N = true.
Proof.
  unfold is_whitespace. intros H.
  repeat (apply orb_prop in H; destruct H as [H|H]);
    apply N.eqb_eq in H; subst; reflexivity.
Qed.

Lemma number_end_after w rest :
  whitespace w -> number_end rest = true -> number_end (w ++ rest) = true.
Proof.
  intros Hw Hrest. destruct Hw as [|c w Hc _]; [assumption|].
  cbn [app number_end]. now apply whitespace_number_end.
Qed.

Lemma whitespace_app a b : whitespace a -> whitespace b -> whitespace (a ++ b).
Proof. intros Ha Hb. apply Forall_app. now split. Qed.

Lemma whitespace_line_feed w : whitespace w -> whitespace (line_feed ++ w).
Proof. intros H. constructor; [reflexivity|assumption]. Qed.

(** With a gap of whitespace, the brackets, the parts and the commas are
    set apart by whitespace only. *)
Lemma wrap_shape open close gap stepback indent t ts :
  whitespace gap -> whitespace stepback -> whitespace indent ->
  exists w0 w1 w2,
    whitespace w0 /\ whitespace w1 /\ whitespace w2
    /\ wrap open close gap stepback indent (t :: ts)
       = open ++ w0 ++ join (44%N :: w1) (t :: ts) ++ w2 ++ close.
Proof.
  intros Hg Hs Hi. unfold wrap. destruct gap as [|g gap].
  - exists [], [], []. split; [|split; [|split]]; try constructor.
  - exists (line_feed ++ indent), (line_feed ++ indent), (line_feed ++ stepback).
    split; [|split; [|split]]; try now apply whitespace_line_feed.
    change (lit ",") with [44%N]. now rewrite <- !app_assoc.
Qed.

Lemma starts_value_app t rest :
  starts_value t = true -> starts_value (t ++ rest) = true.
Proof. destruct t; [discriminate|trivial]. Qed.

Lemma starts_value_join sep t ts :
  starts_value t = true -> starts_value (join sep (t :: ts)) = true.
Proof.
  intros H. destruct ts; cbn [join]; [assumption|now apply starts_value_app].
Qed.

Lemma join_cons sep t t' ts :
  join sep (t :: t' :: ts) = t ++ sep ++ join sep (t' :: ts).
Proof. reflexivity. Qed.

Lemma elements_read_back l : forall e,
  Forall (fun v => well_formed v = true -> representable v = true ->
                   reads_back v) (e :: l) ->
  forallb well_formed (e :: l) = true ->
  forallb representable (e :: l) = true ->
  forall gap indent, whitespace gap -> whitespace indent ->
  exists t ts,
    serialize_elements gap indent (e :: l) = Returns (t :: ts)
    /\ starts_value t = true
    /\ (forall w1,
          need_elements (e :: l) <= S (length (join (44%N :: w1) (t :: ts))))%nat
    /\ forall w1 w2 fuel rest,
         whitespace w1 -> whitespace w2 ->
         (need_elements (e :: l) <= fuel)%nat ->
         parse_elements fuel
           (join (44%N :: w1) (t :: ts) ++ w2 ++ 93%N :: rest)
         = Some (map positive_zeros (e :: l), rest).
Proof.
  induction l as [|e2 l IH]; intros e HP Hwf Hrep gap indent Hg Hi;
    inversion HP as [|? ? He HP']; subst;
    cbn [forallb] in Hwf, Hrep;
    apply andb_prop in Hwf; destruct Hwf as [Hwf Hwf'];
    apply andb_prop in Hrep; destruct Hrep as [Hrep Hrep'];
    destruct (He Hwf Hrep gap indent Hg Hi) as (t & Et & Hstart & Hsize & Hparse).
  - exists t, []. cbn [serialize_elements]. rewrite Et. cbn [bind].
    repeat split; try assumption.
    + intros w1. cbn [need_elements fold_right join]. lia.
    + intros w1 w2 fuel rest Hw1 Hw2 Hfuel.
      cbn [need_elements fold_right] in Hfuel.
      destruct fuel as [|fuel]; [lia|].
      rewrite parse_elements_step. cbn [join].
      rewrite Hparse; [|lia|now apply number_end_after].
      rewrite skip_whitespace_over by assumption. reflexivity.
  - destruct (IH e2 HP' Hwf' Hrep' gap indent Hg Hi)
      as (t2 & ts & Ets & Hstart2 & Hsize2 & Hparse2).
    exists t, (t2 :: ts). cbn [serialize_elements]. rewrite Et. cbn [bind].
    cbn [serialize_elements] in Ets. rewrite Ets. cbn [bind].
    repeat split; try assumption.
    + intros w1. rewrite join_cons. specialize (Hsize2 w1).
      change (need_elements (e :: e2 :: l))
        with (S (size e + need_elements (e2 :: l))).
      rewrite !length_app. cbn [length]. lia.
    + intros w1 w2 fuel rest Hw1 Hw2 Hfuel.
      change (need_elements (e :: e2 :: l))
        with (S (size e + need_elements (e2 :: l))) in Hfuel.
      destruct fuel as [|fuel]; [lia|].
      rewrite parse_elements_step, join_cons, <- !app_assoc.
      rewrite Hparse; [|lia|reflexivity].
      cbn [app skip_whitespace]. change (is_whitespace 44%N) with false.
      change (44 =? 44)%N with true. cbv iota.
      rewrite skip_whitespace_to;
        [|assumption|now apply starts_value_join].
      rewrite Hparse2; [reflexivity|assumption|assumption|lia].
Qed.

Lemma member_shape gap k text : whitespace gap ->
  exists sp,
    whitespace sp
    /\ member gap k text
       = 34%N :: quote_units k ++ 34%N :: 58%N :: sp ++ text.
Proof.
  intros Hg. unfold member, QuoteJSONString. change (lit ":") with [58%N].
  destruct gap.
  - exists []. split; [constructor|]. cbn [app]. now rewrite <- app_assoc.
  - exists [32%N]. split; [now repeat constructor|].
    cbn [app]. now rewrite <- app_assoc.
Qed.

Definition positive_zeros_entry (kv : string16 * value) : string16 * value :=
  (fst kv, positive_zeros (snd kv)).

Lemma members_read_back l : forall k e,
  Forall (fun kv => well_formed (snd kv) = true ->
                    representable (snd kv) = true ->
                    reads_back (snd kv)) ((k, e) :: l) ->
  forallb (fun kv => well_formed (snd kv)) ((k, e) :: l) = true ->
  forallb (fun kv => representable (snd kv)) ((k, e) :: l) = true ->
  forall gap indent, whitespace gap -> whitespace indent ->
  exists t ts,
    serialize_members gap indent ((k, e) :: l) = Returns (t :: ts)
    /\ starts_value t = true
    /\ (forall w1,
          need_members ((k, e) :: l)
          <= S (length (join (44%N :: w1) (t :: ts))))%nat
    /\ forall acc w1 w2 fuel rest,
         whitespace w1 -> whitespace w2 ->
         (need_members ((k, e) :: l) <= fuel)%nat ->
         Obj.key_order (map fst acc ++ map fst ((k, e) :: l)) = true ->
         parse_members fuel acc
           (join (44%N :: w1) (t :: ts) ++ w2 ++ 125%N :: rest)
         = Some (acc ++ map positive_zeros_entry ((k, e) :: l), rest).
Proof.
  induction l as [|[k2 e2] l IH]; intros k e HP Hwf Hrep gap indent Hg Hi;
    inversion HP as [|? ? He HP']; subst;
    cbn [forallb snd] in Hwf, Hrep, He;
    apply andb_prop in Hwf; destruct Hwf as [Hwf Hwf'];
    apply andb_prop in Hrep; destruct Hrep as [Hrep Hrep'];
    destruct (He Hwf Hrep gap indent Hg Hi) as (t & Et & Hstart & Hsize & Hparse);
    destruct (member_shape gap k t Hg) as (sp & Hsp & Em).
  - exists (member gap k t), []. cbn [serialize_members]. rewrite Et. cbn [bind].
    split; [reflexivity|]. split; [now rewrite Em|]. split.
    + intros w1. cbn [need_members fold_right join snd]. rewrite Em.
      cbn [length]. rewrite !length_app. cbn [length]. rewrite length_app. lia.
    + intros acc w1 w2 fuel rest Hw1 Hw2 Hfuel Hkeys.
      cbn [need_members fold_right snd] in Hfuel.
      destruct fuel as [|fuel]; [lia|].
      cbn [join]. rewrite Em. cbn [app]. rewrite <- !app_assoc. cbn [app].
      rewrite parse_members_step, parse_quoted.
      cbn [skip_whitespace]. change (is_whitespace 58%N) with false.
      change (58 =? 58)%N with true. cbv iota.
      rewrite <- !app_assoc, skip_whitespace_to by assumption.
      rewrite Hparse; [|lia|now apply number_end_after].
      cbv zeta. rewrite skip_whitespace_over by assumption.
      cbn [skip_whitespace]. change (is_whitespace 125%N) with false.
      change (125 =? 44)%N with false. change (125 =? 125)%N with true.
      cbv iota. rewrite Obj.CreateDataProperty_last by exact Hkeys.
      reflexivity.
  - destruct (IH k2 e2 HP' Hwf' Hrep' gap indent Hg Hi)
      as (t2 & ts & Ets & Hstart2 & Hsize2 & Hparse2).
    exists (member gap k t), (t2 :: ts).
    cbn [serialize_members]. rewrite Et. cbn [bind].
    cbn [serialize_members] in Ets. rewrite Ets. cbn [bind].
    split; [reflexivity|]. split; [now rewrite Em|]. split.
    + intros w1. rewrite join_cons. specialize (Hsize2 w1).
      change (need_members ((k, e) :: (k2, e2) :: l))
        with (S (size e + need_members ((k2, e2) :: l))).
      rewrite Em. cbn [length].
      repeat (rewrite !length_app; cbn [length]). lia.
    + intros acc w1 w2 fuel rest Hw1 Hw2 Hfuel Hkeys.
      change (need_members ((k, e) :: (k2, e2) :: l))
        with (S (size e + need_members ((k2, e2) :: l))) in Hfuel.
      destruct fuel as [|fuel]; [lia|].
      rewrite join_cons, Em. cbn [app]. rewrite <- !app_assoc. cbn [app].
      rewrite parse_members_step, parse_quoted.
      cbn [skip_whitespace]. change (is_whitespace 58%N) with false.
      change (58 =? 58)%N with true. cbv iota.
      rewrite <- !app_assoc, skip_whitespace_to by assumption.
      rewrite Hparse; [|lia|reflexivity].
      cbv zeta. cbn [skip_whitespace]. change (is_whitespace 44%N) with false.
      change (44 =? 44)%N with true. cbv iota.
      rewrite skip_whitespace_to; [|assumption|now apply starts_value_join].
      cbn [map fst] in Hkeys.
      rewrite Obj.CreateDataProperty_last.
      * rewrite Hparse2; [|assumption|assumption|lia|].
        -- now rewrite <- app_assoc.
        -- rewrite map_app. cbn [map fst]. now rewrite <- app_assoc.
      * apply Obj.key_order_prefix with (b := k2 :: map fst l).
        now rewrite <- app_assoc.
Qed.

Lemma toString_head x : Number.is_finite x = true ->
  exists c t, Number.toString x = c :: t
              /\ (is_decimal_digit c = true \/ c = 45%N).
Proof.
  destruct x as [| |neg|neg s n]; try discriminate; intros _.
  - exists 48%N, []. split; [reflexivity|now left].
  - destruct (finite_toString_head s n) as (c & t & E & Hc).
    cbn [Number.toString]. rewrite E. destruct neg.
    + exists 45%N, (c :: t). split; [reflexivity|now right].
    + exists c, t. split; [reflexivity|now left].
Qed.

Lemma starts_value_number c t :
  is_decimal_digit c = true \/ c = 45%N -> starts_value (c :: t) = true.
Proof.
  intros [H| ->]; [|reflexivity].
  unfold is_decimal_digit in H. apply andb_prop in H. destruct H as [Ha Hb].
  apply N.leb_le in Ha, Hb. cbn [starts_value]. unfold is_whitespace.
  destruct (N.eqb_spec c 9); [lia|]. destruct (N.eqb_spec c 10); [lia|].
  destruct (N.eqb_spec c 13); [lia|]. destruct (N.eqb_spec c 32); [lia|].
  destruct (N.eqb_spec c 93); [lia|]. destruct (N.eqb_spec c 125); [lia|].
  reflexivity.
Qed.

Lemma representable_no_toJSON props :
  forallb (fun kv => representable (snd kv)) props = true ->
  callable_toJSON props = false.
Proof.
  unfold callable_toJSON. induction props as [|[k v] props IH]; [reflexivity|].
  cbn [forallb snd Obj.lookup]. intros H.
  apply andb_prop in H. destruct H as [Hv H].
  destruct (string16_eqb (lit "toJSON") k); [|now apply IH].
  now destruct v.
Qed.

(** Every well-formed value of the JSON data model is read back from
    its text. *)
Lemma representable_reads_back v :
  well_formed v = true -> representable v = true -> reads_back v.
Proof.
  induction v as [| |b|x|s|z|d| |l IH|props IH] using value_nested_ind;
    intros Hwf Hrep; try discriminate; intros gap indent Hg Hi.
  - exists (lit "null"). split; [reflexivity|]. split; [reflexivity|].
    split; [cbn; lia|]. intros fuel rest Hf _.
    destruct fuel; [simpl in Hf; lia|]. reflexivity.
  - destruct b.
    + exists (lit "true"). split; [reflexivity|]. split; [reflexivity|].
      split; [cbn; lia|]. intros fuel rest Hf _.
      destruct fuel; [simpl in Hf; lia|]. reflexivity.
    + exists (lit "false"). split; [reflexivity|]. split; [reflexivity|].
      split; [cbn; lia|]. intros fuel rest Hf _.
      destruct fuel; [simpl in Hf; lia|]. reflexivity.
  - cbn [well_formed representable] in Hwf, Hrep.
    exists (Number.toString x). cbn [SerializeJSONProperty]. rewrite Hrep.
    destruct (toString_head x Hrep) as (c & t & E & Hc).
    split; [reflexivity|]. split; [rewrite E; now apply starts_value_number|].
    split; [rewrite E; cbn; lia|]. intros fuel rest Hf Hrest.
    destruct fuel; [simpl in Hf; lia|].
    pose proof (parse_number_toString x rest Hrep Hwf Hrest) as Hp.
    rewrite E in *. cbn [app] in *.
    rewrite parse_value_number, Hp by assumption.
    now destruct x.
  - exists (QuoteJSONString s). split; [reflexivity|]. split; [reflexivity|].
    split; [cbn; lia|]. intros fuel rest Hf _.
    destruct fuel; [simpl in Hf; lia|].
    unfold QuoteJSONString. cbn [app]. rewrite <- app_assoc. cbn [app].
    now rewrite parse_value_string, parse_quoted.
  - cbn [well_formed representable] in Hwf, Hrep.
    rewrite SerializeJSONProperty_array.
    destruct l as [|e l].
    + exists (lit "[]"). split; [reflexivity|]. split; [reflexivity|].
      split; [cbn; lia|]. intros fuel rest Hf _.
      destruct fuel; [simpl in Hf; lia|]. reflexivity.
    + destruct (elements_read_back l e IH Hwf Hrep gap (indent ++ gap) Hg
                  (whitespace_app _ _ Hi Hg))
        as (t & ts & Eser & Hstart & Hsize & Hparse).
      rewrite Eser. cbn [bind].
      destruct (wrap_shape (lit "[") (lit "]") gap indent (indent ++ gap) t ts
                  Hg Hi (whitespace_app _ _ Hi Hg))
        as (w0 & w1 & w2 & Hw0 & Hw1 & Hw2 & Ewrap).
      rewrite Ewrap. eexists. split; [reflexivity|]. split; [reflexivity|].
      split.
      * specialize (Hsize w1). change (size (VArray (e :: l)))
          with (S (need_elements (e :: l))).
        change (lit "[") with [91%N]. change (lit "]") with [93%N].
        cbn [app length]. rewrite !length_app. cbn [length]. lia.
      * intros fuel rest Hf _.
        change (size (VArray (e :: l))) with (S (need_elements (e :: l))) in Hf.
        destruct fuel as [|fuel]; [lia|].
        change (lit "[") with [91%N]. change (lit "]") with [93%N].
        cbn [app]. rewrite <- !app_assoc. cbn [app].
        rewrite parse_value_array.
        rewrite skip_whitespace_to; [|assumption|now apply starts_value_join].
        pose proof (starts_value_join (44%N :: w1) t ts Hstart) as Hj.
        specialize (Hparse w1 w2 fuel rest Hw1 Hw2 ltac:(lia)).
        destruct (join (44%N :: w1) (t :: ts)) as [|c' J]; [discriminate|].
        cbn [app] in *. cbn [starts_value] in Hj.
        destruct (N.eqb_spec c' 93) as [->|_]; [discriminate|].
        match goal with
        | |- match ?p with _ => _ end = _ =>
            replace p with (Some (map positive_zeros (e :: l), rest))
              by (symmetry; exact Hparse)
        end.
        reflexivity.
  - cbn [well_formed representable] in Hwf, Hrep.
    apply andb_prop in Hwf. destruct Hwf as [Hkeys Hwf].
    rewrite SerializeJSONProperty_object, representable_no_toJSON by assumption.
    destruct props as [|[k e] l].
    + exists (lit "{}"). split; [reflexivity|]. split; [reflexivity|].
      split; [cbn; lia|]. intros fuel rest Hf _.
      destruct fuel; [simpl in Hf; lia|]. reflexivity.
    + destruct (members_read_back l k e IH Hwf Hrep gap (indent ++ gap) Hg
                  (whitespace_app _ _ Hi Hg))
        as (t & ts & Eser & Hstart & Hsize & Hparse).
      rewrite Eser. cbn [bind].
      destruct (wrap_shape (lit "{") (lit "}") gap indent (indent ++ gap) t ts
                  Hg Hi (whitespace_app _ _ Hi Hg))
        as (w0 & w1 & w2 & Hw0 & Hw1 & Hw2 & Ewrap).
      rewrite Ewrap. eexists. split; [reflexivity|]. split; [reflexivity|].
      split.
      * specialize (Hsize w1). change (size (VObject ((k, e) :: l)))
          with (S (need_members ((k, e) :: l))).
        change (lit "{") with [123%N]. change (lit "}") with [125%N].
        cbn [app length]. rewrite !length_app. cbn [length]. lia.
      * intros fuel rest Hf _.
        change (size (VObject ((k, e) :: l)))
          with (S (need_members ((k, e) :: l))) in Hf.
        destruct fuel as [|fuel]; [lia|].
        change (lit "{") with [123%N]. change (lit "}") with [125%N].
        cbn [app]. rewrite <- !app_assoc. cbn [app].
        rewrite parse_value_object.
        rewrite skip_whitespace_to; [|assumption|now apply starts_value_join].
        pose proof (starts_value_join (44%N :: w1) t ts Hstart) as Hj.
        specialize (Hparse [] w1 w2 fuel rest Hw1 Hw2 ltac:(lia) Hkeys).
        destruct (join (44%N :: w1) (t :: ts)) as [|c' J]; [discriminate|].
        cbn [app] in *. cbn [starts_value] in Hj.
        destruct (N.eqb_spec c' 125) as [->|_].
        { rewrite andb_false_r in Hj. discriminate. }
        match goal with
        | |- match ?p with _ => _ end = _ =>
            replace p
              with (Some ([] ++ map positive_zeros_entry ((k, e) :: l), rest))
              by (symmetry; exact Hparse)
        end.
        reflexivity.
Qed.

End JSON.

(** ** [formatState]

    [return JSON.stringify(state, null, 2);] *)
Definition formatState (state : value) : outcome (option string16) :=
  JSON.stringify state (VNumber (Number.of_N 2)).

Lemma formatState_gap :
  JSON.gap_of_space (VNumber (Number.of_N 2)) = [32; 32]%N.
Proof. reflexivity. Qed.

Lemma whitespace_two_spaces : JSON.whitespace [32; 32]%N.
Proof. now repeat constructor. Qed.

(** What [JSON.parse] gives for the text of a value of the JSON data
    model: the value itself, with positive zeros. *)
Lemma formatState_then_parse x :
  well_formed x = true -> representable x = true ->
  exists text,
    formatState x = Returns (Some text)
    /\ JSON.parse text = Returns (positive_zeros x).
Proof.
  intros Hwf Hrep.
  destruct (JSON.representable_reads_back x Hwf Hrep [32; 32]%N []
              whitespace_two_spaces (Forall_nil _))
    as (text & Etext & Hstart & Hsize & Hparse).
  exists text. split; [exact Etext|].
  unfold JSON.parse.
  rewrite <- (app_nil_r text) at 2.
  rewrite JSON.skip_whitespace_start by assumption.
  rewrite Hparse; [reflexivity|lia|reflexivity].
Qed.

(** C1. For every value [x] of the JSON data model, [formatState x]
    returns a string, [JSON.parse] of that string returns a value, and
    that value is deep-equal to [x]. *)
Theorem formatState_round_trip (x : value) :
  well_formed x = true -> representable x = true ->
  exists text y,
    formatState x = Returns (Some text)
    /\ JSON.parse text = Returns y
    /\ deep_equal y x = true.
Proof.
  intros Hwf Hrep.
  destruct (formatState_then_parse x Hwf Hrep) as (text & Etext & Eparse).
  exists text, (positive_zeros x).
  split; [assumption|]. split; [assumption|].
  now apply deep_equal_positive_zeros.
Qed.

Definition sample_state : value :=
  VObject
    [(lit "7", VArray [VNumber (Number.Finite true 125 (-7)); VNull]);
     (lit "subject", VString (lit "Re: invoice"));
     (lit "urgent", VBoolean false);
     (lit "score", VNumber (Number.Zero true));
     (lit "tags", VArray []);
     (lit "meta", VObject [(lit "n", VNumber (Number.of_N 1200))])].

Lemma formatState_round_trip_witness :
  exists text y,
    formatState sample_state = Returns (Some text)
    /\ JSON.parse text = Returns y
    /\ deep_equal y sample_state = true.
Proof.
  apply (formatState_round_trip sample_state); reflexivity.
Defined.

(** ** Indented text

    The text the specification describes: the value written out with an
    indent of two spaces for each level of nesting.  It is stated by
    nesting depth, without the gap and indent strings of
    [JSON.stringify]. *)

Definition spaces (n : nat) : string16 := repeat 32%N n.

Definition each_element (f : value -> outcome (option string16))
  : list value -> outcome (list string16) :=
  fix each (l : list value) : outcome (list string16) :=
    match l with
    | [] => Returns []
    | e :: rest =>
        text <- f e ;;
        more <- each rest ;;
        Returns (match text with
                 | None => lit "null"
                 | Some t => t
                 end :: more)
    end.

Definition each_member (f : value -> outcome (option string16))
  : list (string16 * value) -> outcome (list string16) :=
  fix each (l : list (string16 * value)) : outcome (list string16) :=
    match l with
    | [] => Returns []
    | (k, e) :: rest =>
        text <- f e ;;
        more <- each rest ;;
        Returns (match text with
                 | None => more
                 | Some t => (JSON.QuoteJSONString k ++ lit ": " ++ t) :: more
                 end)
    end.

(** The parts one to a line at [depth + 1], the closing bracket on a line
    of its own at [depth]; nothing between the brackets without parts. *)
Definition block (open close : string16) (depth : nat)
  (parts : list string16) : string16 :=
  match parts with
  | [] => open ++ close
  | _ =>
      open ++ JSON.line_feed ++ spaces (2 * S depth)
      ++ JSON.join (lit "," ++ JSON.line_feed ++ spaces (2 * S depth)) parts
      ++ JSON.line_feed ++ spaces (2 * depth) ++ close
  end.

Fixpoint two_space_indented (depth : nat) (v : value)
  : outcome (option string16) :=
  match v with
  | VUndefined | VSymbol _ | VFunction => Returns None
  | VNull => Returns (Some (lit "null"))
  | VBoolean b => Returns (Some (if b then lit "true" else lit "false"))
  | VNumber x =>
      Returns (Some (if Number.is_finite x then Number.toString x
                     else lit "null"))
  | VString s => Returns (Some (JSON.QuoteJSONString s))
  | VBigInt _ => Throws TypeError
  | VArray l =>
      parts <- each_element (two_space_indented (S depth)) l ;;
      Returns (Some (block (lit "[") (lit "]") depth parts))
  | VObject props =>
      if JSON.callable_toJSON props then RunsUserCode
      else
        parts <- each_member (two_space_indented (S depth)) props ;;
        Returns (Some (block (lit "{") (lit "}") depth parts))
  end.

Lemma spaces_deeper depth :
  spaces (2 * depth) ++ [32; 32]%N = spaces (2 * S depth).
Proof.
  unfold spaces. change [32; 32]%N with (repeat 32%N 2).
  rewrite <- repeat_app. f_equal. lia.
Qed.

Lemma wrap_block open close depth parts :
  JSON.wrap open close [32; 32]%N (spaces (2 * depth)) (spaces (2 * S depth))
    parts
  = block open close depth parts.
Proof. reflexivity. Qed.

Lemma serialize_elements_each gap indent l f :
  Forall (fun e => JSON.SerializeJSONProperty gap indent e = f e) l ->
  JSON.serialize_elements gap indent l = each_element f l.
Proof.
  induction 1 as [|e l He _ IH]; [reflexivity|].
  cbn [JSON.serialize_elements each_element]. now rewrite He, IH.
Qed.

Lemma serialize_members_each indent l f :
  Forall (fun kv => JSON.SerializeJSONProperty [32; 32]%N indent (snd kv)
                    = f (snd kv)) l ->
  JSON.serialize_members [32; 32]%N indent l = each_member f l.
Proof.
  induction 1 as [|[k e] l He _ IH]; [reflexivity|].
  cbn [JSON.serialize_members each_member]. cbn [snd] in He.
  now rewrite He, IH.
Qed.

Lemma SerializeJSONProperty_two_spaces v : forall depth,
  JSON.SerializeJSONProperty [32; 32]%N (spaces (2 * depth)) v
  = two_space_indented depth v.
Proof.
  induction v as [| |b|x|s|z|d| |l IH|props IH] using value_nested_ind;
    intros depth; try reflexivity.
  - now destruct b.
  - rewrite JSON.SerializeJSONProperty_array, spaces_deeper.
    cbn [two_space_indented].
    rewrite serialize_elements_each with (f := two_space_indented (S depth)).
    + reflexivity.
    + eapply Forall_impl; [|exact IH]. intros e He. apply He.
  - rewrite JSON.SerializeJSONProperty_object, spaces_deeper.
    cbn [two_space_indented].
    destruct (JSON.callable_toJSON props); [reflexivity|].
    rewrite serialize_members_each with (f := two_space_indented (S depth)).
    + reflexivity.
    + eapply Forall_impl; [|exact IH]. intros kv He. apply He.
Qed.

(** C6. For every value [x], [formatState x] is the serialization of [x]
    with an indent of two spaces: the same string, the same [undefined],
    the same exception. *)
Theorem formatState_two_space_indent (x : value) :
  formatState x = two_space_indented 0 x.
Proof.
  unfold formatState, JSON.stringify. rewrite formatState_gap.
  apply (SerializeJSONProperty_two_spaces x 0).
Qed.

(** ** Trees that [formatState] serializes *)

(** Neither a BigInt nor an object with a callable [toJSON] anywhere in
    the value. *)
Fixpoint serializable (v : value) : bool :=
  match v with
  | VBigInt _ => false
  | VArray l => forallb serializable l
  | VObject props =>
      negb (JSON.callable_toJSON props)
      && forallb (fun kv => serializable (snd kv)) props
  | _ => true
  end.

(** The values [SerializeJSONProperty] has a text for. *)
Definition has_text (v : value) : bool :=
  match v with
  | VUndefined | VSymbol _ | VFunction => false
  | _ => true
  end.

(** The completion is a normal one: neither an exception nor a call of
    code the tree does not contain. *)
Definition returns {A} (m : outcome A) : bool :=
  match m with
  | Returns _ => true
  | _ => false
  end.

Lemma returns_bind {A B} (m : outcome A) (f : A -> outcome B) :
  (forall a, returns (f a) = true) -> returns (bind m f) = returns m.
Proof. intros H. destruct m; [apply H|reflexivity|reflexivity]. Qed.

Lemma returns_elements gap indent l :
  Forall (fun e => forall gap indent,
            returns (JSON.SerializeJSONProperty gap indent e) = serializable e) l ->
  returns (JSON.serialize_elements gap indent l) = forallb serializable l.
Proof.
  induction 1 as [|e l He _ IH]; [reflexivity|].
  cbn [JSON.serialize_elements forallb]. rewrite <- He with (gap := gap) (indent := indent).
  destruct (JSON.SerializeJSONProperty gap indent e); cbn [bind returns andb];
    try reflexivity.
  rewrite returns_bind by reflexivity. exact IH.
Qed.

Lemma returns_members gap indent l :
  Forall (fun kv => forall gap indent,
            returns (JSON.SerializeJSONProperty gap indent (snd kv))
            = serializable (snd kv)) l ->
  returns (JSON.serialize_members gap indent l)
  = forallb (fun kv => serializable (snd kv)) l.
Proof.
  induction 1 as [|[k e] l He _ IH]; [reflexivity|].
  cbn [JSON.serialize_members forallb snd] in *.
  rewrite <- He with (gap := gap) (indent := indent).
  destruct (JSON.SerializeJSONProperty gap indent e); cbn [bind returns andb];
    try reflexivity.
  rewrite returns_bind by reflexivity. exact IH.
Qed.

Lemma returns_serializable v : forall gap indent,
  returns (JSON.SerializeJSONProperty gap indent v) = serializable v.
Proof.
  induction v as [| |b|x|s|z|d| |l IH|props IH] using value_nested_ind;
    intros gap indent; try reflexivity.
  - now destruct b.
  - rewrite JSON.SerializeJSONProperty_array, returns_bind by reflexivity.
    now apply returns_elements.
  - rewrite JSON.SerializeJSONProperty_object. cbn [serializable].
    destruct (JSON.callable_toJSON props); [reflexivity|].
    rewrite returns_bind by reflexivity. now apply returns_members.
Qed.

(** ** Dates

    A time value is a number of milliseconds since the epoch, with
    [86400000] milliseconds a day; the day arithmetic is that of the Date
    objects of ECMA-262.  [new Date()] holds the time value of the
    current time, so the [RangeError] of [toISOString] on an invalid Date
    does not arise. *)

Module Date.
Import Digits.
Local Open Scope Z_scope.

Definition msPerDay : Z := 86400000.
Definition msPerHour : Z := 3600000.
Definition msPerMinute : Z := 60000.
Definition msPerSecond : Z := 1000.

Definition Day (t : Z) : Z := t / msPerDay.
Definition TimeWithinDay (t : Z) : Z := t mod msPerDay.

Definition DaysInYear (y : Z) : Z :=
  if negb (y mod 4 =? 0) then 365
  else if negb (y mod 100 =? 0) then 366
  else if negb (y mod 400 =? 0) then 365
  else 366.

Definition DayFromYear (y : Z) : Z :=
  365 * (y - 1970) + (y - 1969) / 4 - (y - 1901) / 100 + (y - 1601) / 400.

Definition TimeFromYear (y : Z) : Z := msPerDay * DayFromYear y.

(** The largest year that starts at or before [t]: of the three years
    around the mean-year estimate, the last one that does. *)
Definition YearFromTime (t : Z) : Z :=
  let d := Day t in
  let c := 1970 + (400 * d) / 146097 in
  if DayFromYear (c + 1) <=? d then c + 1
  else if DayFromYear c <=? d then c
  else c - 1.

Definition InLeapYear (t : Z) : Z :=
  if DaysInYear (YearFromTime t) =? 366 then 1 else 0.

Definition DayWithinYear (t : Z) : Z := Day t - DayFromYear (YearFromTime t).

Definition MonthFromTime (t : Z) : Z :=
  let d := DayWithinYear t in
  let leap := InLeapYear t in
  if d <? 31 then 0
  else if d <? 59 + leap then 1
  else if d <? 90 + leap then 2
  else if d <? 120 + leap then 3
  else if d <? 151 + leap then 4
  else if d <? 181 + leap then 5
  else if d <? 212 + leap then 6
  else if d <? 243 + leap then 7
  else if d <? 273 + leap then 8
  else if d <? 304 + leap then 9
  else if d <? 334 + leap then 10
  else 11.

Definition DateFromTime (t : Z) : Z :=
  let d := DayWithinYear t in
  let leap := InLeapYear t in
  match MonthFromTime t with
  | 0 => d + 1
  | 1 => d - 30
  | 2 => d - 58 - leap
  | 3 => d - 89 - leap
  | 4 => d - 119 - leap
  | 5 => d - 150 - leap
  | 6 => d - 180 - leap
  | 7 => d - 211 - leap
  | 8 => d - 242 - leap
  | 9 => d - 272 - leap
  | 10 => d - 303 - leap
  | _ => d - 333 - leap
  end.

Definition HourFromTime (t : Z) : Z := (t / msPerHour) mod 24.
Definition MinFromTime (t : Z) : Z := (t / msPerMinute) mod 60.
Definition SecFromTime (t : Z) : Z := (t / msPerSecond) mod 60.
Definition msFromTime (t : Z) : Z := t mod msPerSecond.

(** The time values of a Date: [TimeClip] keeps these. *)
Definition valid_time (t : Z) : bool :=
  (-8640000000000000 <=? t) && (t <=? 8640000000000000).

(** [width] decimal digits, with leading zeros. *)
Fixpoint fixed_digits (width : nat) (n : N) : list N :=
  match width with
  | O => []
  | S w => fixed_digits w (n / 10)%N ++ [(n mod 10)%N]
  end.

Definition padded (width : nat) (n : Z) : string16 :=
  digits_string (fixed_digits width (Z.to_N n)).

(** Four digits for the years [0] to [9999], a sign and six digits for
    the others. *)
Definition year_string (y : Z) : string16 :=
  if (0 <=? y) && (y <=? 9999) then padded 4 y
  else (if y <? 0 then lit "-" else lit "+") ++ padded 6 (Z.abs y).

(** [Date.prototype.toISOString] on a Date whose time value is [t]. *)
Definition toISOString (t : Z) : string16 :=
  year_string (YearFromTime t)
  ++ lit "-" ++ padded 2 (MonthFromTime t + 1)
  ++ lit "-" ++ padded 2 (DateFromTime t)
  ++ lit "T" ++ padded 2 (HourFromTime t)
  ++ lit ":" ++ padded 2 (MinFromTime t)
  ++ lit ":" ++ padded 2 (SecFromTime t)
  ++ lit "." ++ padded 3 (msFromTime t)
  ++ lit "Z".


(** *** Years *)

Lemma DayFromYear_next y : DayFromYear (y + 1) = DayFromYear y + DaysInYear y.
Proof.
  unfold DayFromYear, DaysInYear.
  destruct (Z.eqb_spec (y mod 4) 0); cbn [negb];
    [destruct (Z.eqb_spec (y mod 100) 0); cbn [negb];
       [destruct (Z.eqb_spec (y mod 400) 0); cbn [negb]|]|];
    Z.div_mod_to_equations; lia.
Qed.

Lemma DaysInYear_range y : DaysInYear y = 365 \/ DaysInYear y = 366.
Proof.
  unfold DaysInYear.
  destruct (negb (y mod 4 =? 0)); [now left|].
  destruct (negb (y mod 100 =? 0)); [now right|].
  destruct (negb (y mod 400 =? 0)); [now left|now right].
Qed.

Lemma DayFromYear_increasing y y' : y < y' -> DayFromYear y < DayFromYear y'.
Proof.
  intros H. unfold DayFromYear. Z.div_mod_to_equations. lia.
Qed.

(** The year of a day: it starts at or before the day, the next one
    after it. *)
Lemma YearFromTime_day t :
  DayFromYear (YearFromTime t) <= Day t < DayFromYear (YearFromTime t + 1).
Proof.
  unfold YearFromTime. cbv zeta.
  set (d := Day t). set (c := 1970 + 400 * d / 146097).
  assert (146097 * (c - 1970) <= 400 * d < 146097 * (c - 1970) + 146097) as Hc
    by (unfold c; Z.div_mod_to_equations; lia).
  assert (DayFromYear (c - 1) <= d) as Hlow
    by (unfold DayFromYear; Z.div_mod_to_equations; lia).
  assert (d < DayFromYear (c + 2)) as Hhigh
    by (unfold DayFromYear; Z.div_mod_to_equations; lia).
  destruct (Z.leb_spec (DayFromYear (c + 1)) d).
  - replace (c + 1 + 1) with (c + 2) by lia. lia.
  - destruct (Z.leb_spec (DayFromYear c) d).
    + lia.
    + replace (c - 1 + 1) with c by lia. lia.
Qed.

Lemma TimeFromYear_le y t : TimeFromYear y <= t <-> DayFromYear y <= Day t.
Proof.
  unfold TimeFromYear, Day, msPerDay. split; intros H.
  - apply Z.div_le_lower_bound; lia.
  - Z.div_mod_to_equations. lia.
Qed.

(** X11. The year computed for a timestamp is the one ECMA-262
    defines: [YearFromTime t] is the largest integer [y] such that
    [TimeFromYear y <= t]. *)
Lemma YearFromTime_largest t :
  TimeFromYear (YearFromTime t) <= t
  /\ forall y, TimeFromYear y <= t -> y <= YearFromTime t.
Proof.
  pose proof (YearFromTime_day t) as [Hlow Hhigh]. split.
  - now apply TimeFromYear_le.
  - intros y Hy. apply TimeFromYear_le in Hy.
    destruct (Z.le_gt_cases y (YearFromTime t)) as [|Hgt]; [assumption|].
    assert (DayFromYear (YearFromTime t + 1) <= DayFromYear y).
    { destruct (Z.eq_dec y (YearFromTime t + 1)) as [->|]; [lia|].
      apply Z.lt_le_incl, DayFromYear_increasing. lia. }
    lia.
Qed.

Lemma DayWithinYear_range t :
  0 <= DayWithinYear t < 365 + InLeapYear t.
Proof.
  unfold DayWithinYear, InLeapYear.
  pose proof (YearFromTime_day t) as [Hlow Hhigh].
  rewrite DayFromYear_next in Hhigh.
  destruct (DaysInYear_range (YearFromTime t)) as [E|E]; rewrite E in *;
    cbn; lia.
Qed.

Lemma YearFromTime_valid t : valid_time t = true ->
  -271821 <= YearFromTime t <= 275760.
Proof.
  unfold valid_time. intros H. apply andb_prop in H. destruct H as [Hlo Hhi].
  apply Z.leb_le in Hlo, Hhi.
  pose proof (YearFromTime_day t) as [Hlow Hhigh].
  assert (-100000000 <= Day t <= 100000000) as Hd
    by (unfold Day, msPerDay; Z.div_mod_to_equations; lia).
  unfold DayFromYear in *. Z.div_mod_to_equations. lia.
Qed.

(** *** Reading a timestamp

    The complete date-time representations of ISO 8601 in UTC: a year of
    four digits, or of six digits with a sign, month and day of the
    Gregorian calendar, the time of day to the millisecond, and [Z]. *)

Definition read_digits (cs : string16) : option N :=
  if forallb is_decimal_digit cs
  then Some (of_digits 10 (map (fun c => (c - 48)%N) cs))
  else None.

Definition read_field (width : nat) (s : string16) : option (N * string16) :=
  if Nat.eqb (length (firstn width s)) width then
    match read_digits (firstn width s) with
    | Some n => Some (n, skipn width s)
    | None => None
    end
  else None.

Definition read_char (c : code_unit) (s : string16) : option string16 :=
  match s with
  | c' :: rest => if (c' =? c)%N then Some rest else None
  | [] => None
  end.

Definition read_year (s : string16) : option (Z * string16) :=
  match s with
  | c :: rest =>
      if ((c =? 43) || (c =? 45))%N then
        match read_field 6 rest with
        | Some (y, rest') =>
            if ((c =? 45) && (y =? 0))%N then None
            else Some (if (c =? 45)%N then - Z.of_N y else Z.of_N y, rest')
        | None => None
        end
      else
        match read_field 4 s with
        | Some (y, rest') => Some (Z.of_N y, rest')
        | None => None
        end
  | [] => None
  end.

Definition leap_year (y : Z) : bool :=
  (y mod 4 =? 0) && (negb (y mod 100 =? 0) || (y mod 400 =? 0)).

Definition days_in_month (leap : bool) (m : N) : N :=
  match m with
  | 1 | 3 | 5 | 7 | 8 | 10 | 12 => 31
  | 4 | 6 | 9 | 11 => 30
  | 2 => if leap then 29 else 28
  | _ => 0
  end%N.

Definition then_char {A} (c : code_unit) (r : option (A * string16))
  : option (A * string16) :=
  match r with
  | Some (a, s) =>
      match read_char c s with
      | Some s' => Some (a, s')
      | None => None
      end
  | None => None
  end.

Record timestamp := {
  ts_year : Z;
  ts_month : N;
  ts_day : N;
  ts_hour : N;
  ts_minute : N;
  ts_second : N;
  ts_millisecond : N
}.

Definition read_timestamp (s : string16) : option timestamp :=
  match then_char 45%N (read_year s) with
  | None => None
  | Some (year, s1) =>
  match then_char 45%N (read_field 2 s1) with
  | None => None
  | Some (month, s2) =>
  match then_char 84%N (read_field 2 s2) with
  | None => None
  | Some (day, s3) =>
  match then_char 58%N (read_field 2 s3) with
  | None => None
  | Some (hour, s4) =>
  match then_char 58%N (read_field 2 s4) with
  | None => None
  | Some (minute, s5) =>
  match then_char 46%N (read_field 2 s5) with
  | None => None
  | Some (second, s6) =>
  match then_char 90%N (read_field 3 s6) with
  | None => None
  | Some (millisecond, s7) =>
      if Nat.eqb (length s7) 0 then
        Some {| ts_year := year; ts_month := month; ts_day := day;
                ts_hour := hour; ts_minute := minute; ts_second := second;
                ts_millisecond := millisecond |}
      else None
  end end end end end end end.

(** The fields are those of a date of the calendar and a time of day. *)
Definition calendar (f : timestamp) : bool :=
  ((1 <=? ts_month f) && (ts_month f <=? 12)
   && (1 <=? ts_day f)
   && (ts_day f <=? days_in_month (leap_year (ts_year f)) (ts_month f))
   && (ts_hour f <? 24) && (ts_minute f <? 60) && (ts_second f <? 60))%N.

Definition is_ISO8601 (s : string16) : bool :=
  match read_timestamp s with
  | Some f => calendar f
  | None => false
  end.

(** The days of the year before month [m], counted from zero. *)
Definition month_start (leap : Z) (m : Z) : Z :=
  match m with
  | 0 => 0
  | 1 => 31
  | 2 => 59 + leap
  | 3 => 90 + leap
  | 4 => 120 + leap
  | 5 => 151 + leap
  | 6 => 181 + leap
  | 7 => 212 + leap
  | 8 => 243 + leap
  | 9 => 273 + leap
  | 10 => 304 + leap
  | _ => 334 + leap
  end.

(** [MakeDay], [MakeTime] and [MakeDate]. *)
Definition MakeDay (year month date : Z) : Z :=
  let ym := year + month / 12 in
  let mn := month mod 12 in
  DayFromYear ym + month_start (if leap_year ym then 1 else 0) mn + date - 1.

Definition MakeTime (hour min sec ms : Z) : Z :=
  hour * msPerHour + min * msPerMinute + sec * msPerSecond + ms.

Definition MakeDate (day time : Z) : Z := day * msPerDay + time.

(** [Date.parse] on the date-time format of [toISOString]: the time
    value, or none for a string that is not a date in that format. *)
Definition parse (s : string16) : option Z :=
  match read_timestamp s with
  | Some f =>
      if calendar f then
        let tv :=
          MakeDate
            (MakeDay (ts_year f) (Z.of_N (ts_month f) - 1) (Z.of_N (ts_day f)))
            (MakeTime (Z.of_N (ts_hour f)) (Z.of_N (ts_minute f))
               (Z.of_N (ts_second f)) (Z.of_N (ts_millisecond f))) in
        if valid_time tv then Some tv else None
      else None
  | None => None
  end.

Lemma fixed_digits_length w : forall n, length (fixed_digits w n) = w.
Proof.
  induction w as [|w IH]; intros n; [reflexivity|].
  cbn [fixed_digits]. rewrite length_app, IH. cbn [length]. lia.
Qed.

Lemma fixed_digits_bound w : forall n,
  Forall (fun d => d < 10)%N (fixed_digits w n).
Proof.
  induction w as [|w IH]; intros n; [constructor|].
  cbn [fixed_digits]. apply Forall_app. split; [apply IH|].
  constructor; [|constructor]. apply N.mod_lt. discriminate.
Qed.

Lemma fixed_digits_value w : forall n, (n < 10 ^ N.of_nat w)%N ->
  of_digits 10 (fixed_digits w n) = n.
Proof.
  induction w as [|w IH]; intros n Hn.
  - simpl in Hn. cbn. lia.
  - cbn [fixed_digits]. rewrite of_digits_snoc, IH.
    + rewrite N.mul_comm. symmetry. apply N.Div0.div_mod.
    + rewrite Nat2N.inj_succ, N.pow_succ_r' in Hn.
      apply N.Div0.div_lt_upper_bound. lia.
Qed.

Lemma read_digits_string ds : Forall (fun d => d < 10)%N ds ->
  read_digits (digits_string ds) = Some (of_digits 10 ds).
Proof.
  intros H. unfold read_digits, digits_string.
  assert (forallb is_decimal_digit (map digit_char ds) = true) as ->.
  { induction H as [|d ds Hd _ IH]; [reflexivity|].
    cbn [map forallb]. now rewrite digit_char_decimal, IH. }
  f_equal. f_equal. rewrite map_map.
  induction H as [|d ds Hd _ IH]; [reflexivity|].
  cbn [map]. rewrite IH. f_equal.
  unfold digit_char. destruct (N.ltb_spec d 10); lia.
Qed.

Lemma firstn_exact {A} (a b : list A) w :
  length a = w -> firstn w (a ++ b) = a.
Proof. intros <-. induction a; cbn; [reflexivity|now f_equal]. Qed.

Lemma skipn_exact {A} (a b : list A) w :
  length a = w -> skipn w (a ++ b) = b.
Proof. intros <-. induction a; cbn; [reflexivity|assumption]. Qed.

Lemma read_field_padded w n rest : 0 <= n < 10 ^ Z.of_nat w ->
  read_field w (padded w n ++ rest) = Some (Z.to_N n, rest).
Proof.
  intros Hn. unfold read_field, padded.
  assert (length (digits_string (fixed_digits w (Z.to_N n))) = w) as Hlen
    by (unfold digits_string; now rewrite length_map, fixed_digits_length).
  rewrite firstn_exact, skipn_exact, Hlen, Nat.eqb_refl by assumption.
  rewrite read_digits_string by apply fixed_digits_bound.
  rewrite fixed_digits_value; [reflexivity|].
  apply N2Z.inj_lt. rewrite Z2N.id by lia.
  rewrite N2Z.inj_pow, nat_N_Z. apply Hn.
Qed.

Lemma padded_head w n :
  exists c t, padded (S w) n = c :: t /\ is_decimal_digit c = true.
Proof.
  unfold padded.
  pose proof (fixed_digits_length (S w) (Z.to_N n)) as Hlen.
  pose proof (fixed_digits_bound (S w) (Z.to_N n)) as Hb.
  destruct (fixed_digits (S w) (Z.to_N n)) as [|d ds]; [discriminate|].
  exists (digit_char d), (digits_string ds). split; [reflexivity|].
  apply digit_char_decimal. now inversion Hb.
Qed.

Lemma read_year_string y rest : -999999 <= y <= 999999 ->
  read_year (year_string y ++ rest) = Some (y, rest).
Proof.
  intros Hy. unfold year_string.
  destruct (Z.leb_spec 0 y) as [H0|H0];
    [destruct (Z.leb_spec y 9999) as [H1|H1]|]; cbn [andb].
  - destruct (padded_head 3 y) as (c & t & E & Hc).
    pose proof (read_field_padded 4 y rest ltac:(cbn; lia)) as Hr.
    rewrite E in *. cbn [app read_year] in *.
    assert (((c =? 43) || (c =? 45))%N = false) as ->.
    { unfold is_decimal_digit in Hc. apply andb_prop in Hc.
      destruct Hc as [Ha Hb]. apply N.leb_le in Ha, Hb.
      apply orb_false_intro; apply N.eqb_neq; lia. }
    rewrite Hr. f_equal. f_equal. lia.
  - destruct (Z.ltb_spec y 0); [lia|].
    change (lit "+") with [43%N]. cbn [app read_year].
    change ((43 =? 43) || (43 =? 45))%N with true. cbv iota.
    rewrite read_field_padded by (cbn; lia).
    change (43 =? 45)%N with false. cbn [andb]. f_equal. f_equal. lia.
  - destruct (Z.ltb_spec y 0); [|lia].
    change (lit "-") with [45%N]. cbn [app read_year].
    change ((45 =? 43) || (45 =? 45))%N with true. cbv iota.
    rewrite read_field_padded by (cbn; lia).
    change (45 =? 45)%N with true. cbn [andb].
    destruct (N.eqb_spec (Z.to_N (Z.abs y)) 0); [lia|].
    f_equal. f_equal. lia.
Qed.

Lemma leap_year_days y : leap_year y = (DaysInYear y =? 366).
Proof.
  unfold leap_year, DaysInYear.
  destruct (y mod 4 =? 0); [|reflexivity].
  destruct (y mod 100 =? 0); [|reflexivity].
  destruct (y mod 400 =? 0); reflexivity.
Qed.

Lemma days_in_month_max leap m : (days_in_month leap m <= 31)%N.
Proof.
  destruct m as [|p]; [cbn; lia|].
  do 5 (try destruct p as [p|p|]); destruct leap; cbn; lia.
Qed.

(** The month and the day of the month are those of a calendar date. *)
Lemma date_in_month t :
  0 <= MonthFromTime t <= 11
  /\ 1 <= DateFromTime t
     <= Z.of_N (days_in_month (leap_year (YearFromTime t))
                  (Z.to_N (MonthFromTime t + 1))).
Proof.
  pose proof (DayWithinYear_range t) as Hd.
  unfold DateFromTime, MonthFromTime.
  rewrite leap_year_days. unfold InLeapYear in *.
  set (d := DayWithinYear t) in *.
  destruct (DaysInYear (YearFromTime t) =? 366); cbv zeta;
    repeat match goal with
           | |- context [(?a <? ?b)] => destruct (Z.ltb_spec a b)
           end; cbn; lia.
Qed.

Definition fields (t : Z) : timestamp :=
  {| ts_year := YearFromTime t;
     ts_month := Z.to_N (MonthFromTime t + 1);
     ts_day := Z.to_N (DateFromTime t);
     ts_hour := Z.to_N (HourFromTime t);
     ts_minute := Z.to_N (MinFromTime t);
     ts_second := Z.to_N (SecFromTime t);
     ts_millisecond := Z.to_N (msFromTime t) |}.

Lemma time_of_day t :
  0 <= HourFromTime t < 24 /\ 0 <= MinFromTime t < 60
  /\ 0 <= SecFromTime t < 60 /\ 0 <= msFromTime t < 1000.
Proof.
  unfold HourFromTime, MinFromTime, SecFromTime, msFromTime, msPerSecond.
  repeat split; apply Z.mod_pos_bound; lia.
Qed.

Lemma read_timestamp_toISOString t : valid_time t = true ->
  read_timestamp (toISOString t) = Some (fields t).
Proof.
  intros Hvalid.
  pose proof (YearFromTime_valid t Hvalid) as Hyear.
  pose proof (date_in_month t) as [Hmonth Hdate].
  pose proof (time_of_day t) as (Hh & Hm & Hs & Hms).
  pose proof (days_in_month_max (leap_year (YearFromTime t))
                (Z.to_N (MonthFromTime t + 1))) as Hdim.
  unfold read_timestamp, toISOString.
  rewrite read_year_string by lia.
  change (lit "-") with [45%N]. cbn [app then_char read_char].
  change (45 =? 45)%N with true. cbv iota.
  rewrite read_field_padded by (cbn; lia).
  cbn [app then_char read_char]. change (45 =? 45)%N with true. cbv iota.
  rewrite read_field_padded by (cbn; lia).
  change (lit "T") with [84%N]. cbn [app then_char read_char].
  change (84 =? 84)%N with true. cbv iota.
  rewrite read_field_padded by (cbn; lia).
  change (lit ":") with [58%N]. cbn [app then_char read_char].
  change (58 =? 58)%N with true. cbv iota.
  rewrite read_field_padded by (cbn; lia).
  cbn [app then_char read_char]. change (58 =? 58)%N with true. cbv iota.
  rewrite read_field_padded by (cbn; lia).
  change (lit ".") with [46%N]. cbn [app then_char read_char].
  change (46 =? 46)%N with true. cbv iota.
  rewrite read_field_padded by (cbn; lia).
  reflexivity.
Qed.

Lemma calendar_fields t : calendar (fields t) = true.
Proof.
  pose proof (date_in_month t) as [Hmonth Hdate].
  pose proof (time_of_day t) as (Hh & Hm & Hs & Hms).
  unfold calendar, fields. cbn [ts_year ts_month ts_day ts_hour ts_minute ts_second].
  repeat (apply andb_true_intro; split);
    try apply N.leb_le; try apply N.ltb_lt; lia.
Qed.

(** [toISOString] of a valid time value is a complete ISO 8601
    date-time. *)
Lemma toISOString_valid t : valid_time t = true ->
  is_ISO8601 (toISOString t) = true.
Proof.
  intros Hvalid. unfold is_ISO8601.
  rewrite read_timestamp_toISOString by assumption. apply calendar_fields.
Qed.

(** The day of a time value, from its year, month and day of the
    month. *)
Lemma MakeDay_fields t :
  MakeDay (YearFromTime t) (MonthFromTime t) (DateFromTime t) = Day t.
Proof.
  pose proof (date_in_month t) as [Hmonth _].
  pose proof (DayWithinYear_range t) as Hd.
  unfold MakeDay. cbv zeta.
  rewrite Z.div_small, Z.mod_small, Z.add_0_r by lia.
  rewrite leap_year_days.
  unfold DateFromTime, MonthFromTime, InLeapYear, DayWithinYear in *.
  set (d := Day t - DayFromYear (YearFromTime t)) in *.
  destruct (DaysInYear (YearFromTime t) =? 366); cbv zeta;
    repeat match goal with
           | |- context [(?a <? ?b)] => destruct (Z.ltb_spec a b)
           end; cbn [month_start]; lia.
Qed.

Lemma MakeTime_fields t :
  MakeTime (HourFromTime t) (MinFromTime t) (SecFromTime t) (msFromTime t)
  = TimeWithinDay t.
Proof.
  unfold MakeTime, HourFromTime, MinFromTime, SecFromTime, msFromTime,
    TimeWithinDay, msPerHour, msPerMinute, msPerSecond, msPerDay.
  Z.div_mod_to_equations. lia.
Qed.

(** X10. The timestamp identifies the time value to the millisecond:
    [Date.parse] of [toISOString] gives the time value back. *)
Lemma parse_toISOString t : valid_time t = true ->
  parse (toISOString t) = Some t.
Proof.
  intros Hvalid. unfold parse.
  rewrite read_timestamp_toISOString, calendar_fields by assumption.
  pose proof (date_in_month t) as [Hmonth Hdate].
  pose proof (time_of_day t) as (Hh & Hm & Hs & Hms).
  cbn [fields ts_year ts_month ts_day ts_hour ts_minute ts_second
         ts_millisecond].
  rewrite !Z2N.id by lia.
  replace (MonthFromTime t + 1 - 1) with (MonthFromTime t) by lia.
  rewrite MakeDay_fields, MakeTime_fields. cbv zeta.
  assert (MakeDate (Day t) (TimeWithinDay t) = t) as ->.
  { unfold MakeDate, Day, TimeWithinDay, msPerDay.
    Z.div_mod_to_equations. lia. }
  now rewrite Hvalid.
Qed.

End Date.

(** ** Numbers in another radix

    For a radix other than 10, [Number::toString] writes the shortest
    digits in that radix that round to the Number.  Which digits these
    are depends on the binary value of the Number and, in the last
    digit, on the engine; the model takes them from a function
    [shortest] that gives [s] and [n] for the radix and the decimal pair
    of the Number. *)

Module NumberPrototype.
Import Digits.

Definition engine := N -> positive -> Z -> positive * Z.

(** A Number below one has its first digit after the point in every
    radix. *)
Definition keeps_fractions (shortest : engine) : Prop :=
  forall radix s n, (2 <= radix)%N -> (n <= 0)%Z ->
  (snd (shortest radix s n) <= 0)%Z.

(** [Number::toString(x, radix)]. *)
Definition toString_radix (shortest : engine) (x : number) (radix : N)
  : string16 :=
  if (radix =? 10)%N then Number.toString x
  else
    match x with
    | Number.NaN => lit "NaN"
    | Number.Zero _ => lit "0"
    | Number.Infinity neg => Number.sign_string neg ++ lit "Infinity"
    | Number.Finite neg s n =>
        let (s', n') := shortest radix s n in
        Number.sign_string neg
        ++ Number.positional (digits_string (to_digits radix (N.pos s'))) n'
    end.

(** [Number.prototype.toString(radix)] with a Number for [radix]. *)
Definition toString (shortest : engine) (x radix : number)
  : outcome string16 :=
  match Number.ToIntegerOrInfinity radix with
  | Number.Integer r =>
      if ((2 <=? r) && (r <=? 36))%Z
      then Returns (toString_radix shortest x (Z.to_N r))
      else Throws RangeError
  | _ => Throws RangeError
  end.

(** An engine for experiments: the first eleven digits of the Number in
    the radix, the rest cut off. *)
Definition eleven_digits : engine := fun radix s n =>
  let k := Z.of_nat (length (to_digits 10 (N.pos s))) in
  let scaled :=
    if (k <=? n)%Z then (N.pos s * 10 ^ Z.to_N (n - k) * radix ^ 11)%N
    else (N.pos s * radix ^ 11 / 10 ^ Z.to_N (k - n))%N in
  let ds := to_digits radix scaled in
  match of_digits radix (rev (Number.drop_zeros (rev ds))) with
  | N0 => (1%positive, (-11)%Z)
  | Npos s' => (s', (Z.of_nat (length ds) - 11)%Z)
  end.


Lemma eleven_digits_keeps_fractions : keeps_fractions eleven_digits.
Proof.
  intros radix s n Hr Hn. unfold eleven_digits. cbv zeta.
  set (k := length (to_digits 10 (N.pos s))).
  assert (1 <= k)%nat as Hk.
  { unfold k. destruct (to_digits_head 10 (N.pos s)) as (d & ds & E & _);
      [lia|lia|]. rewrite E. cbn. lia. }
  destruct (Z.leb_spec (Z.of_nat k) n); [lia|].
  set (scaled := (N.pos s * radix ^ 11 / 10 ^ Z.to_N (Z.of_nat k - n))%N).
  assert (scaled < radix ^ N.of_nat 11)%N as Hscaled.
  { unfold scaled. apply N.Div0.div_lt_upper_bound.
    pose proof (to_digits_upper 10 (N.pos s)) as Hs. fold k in Hs.
    assert (10 ^ N.of_nat k <= 10 ^ Z.to_N (Z.of_nat k - n))%N as Hle
      by (apply N.pow_le_mono_r; lia).
    change (N.of_nat 11) with 11%N.
    assert (0 < radix ^ 11)%N by (apply N.neq_0_lt_0, N.pow_nonzero; lia).
    specialize (Hs ltac:(lia)). nia. }
  pose proof (to_digits_length radix scaled 11 Hr Hscaled) as Hlen.
  destruct (of_digits radix _); cbn [snd]; lia.
Qed.

End NumberPrototype.

Module StringPrototype.

(** [String.prototype.substr(start, length)] with Numbers for both
    arguments. *)
Definition substr (S : string16) (start len : number) : string16 :=
  let size := Z.of_nat (length S) in
  let intStart :=
    match Number.ToIntegerOrInfinity start with
    | Number.NegInfinity => 0%Z
    | Number.Integer i =>
        if (i <? 0)%Z then Z.max (size + i) 0 else Z.min i size
    | Number.PosInfinity => size
    end in
  let intLength :=
    match Number.ToIntegerOrInfinity len with
    | Number.NegInfinity => 0%Z
    | Number.Integer i => Z.max 0 (Z.min i size)
    | Number.PosInfinity => size
    end in
  let intEnd := Z.min (intStart + intLength) size in
  firstn (Z.to_nat (intEnd - intStart)) (skipn (Z.to_nat intStart) S).

End StringPrototype.

(** ** The host

    What the helpers reach outside their arguments: the clock, the
    console, the source of random numbers, and the timers and promises
    of the event loop. *)

Module Math.

(** A Number that is at least zero and less than one, as [Math.random]
    returns: zero, or digits [s] after the point and [zeros] zeros. *)
Inductive unit_number :=
| UZero
| UFraction (s : positive) (zeros : nat).

Definition to_number (u : unit_number) : number :=
  match u with
  | UZero => Number.Zero false
  | UFraction s zeros => Number.Finite false s (- Z.of_nat zeros)
  end.

End Math.

Record world := {
  clock : Z;
  console : list (list value);
  random_source : nat -> Math.unit_number;
  random_drawn : nat;
  promises : nat;
  timers : list (number * nat)
}.

(** [console.log(...arguments)]: one more entry in the console. *)
Definition console_log (arguments : list value) (w : world) : world :=
  {| clock := clock w;
     console := console w ++ [arguments];
     random_source := random_source w;
     random_drawn := random_drawn w;
     promises := promises w;
     timers := timers w |}.

(** [Math.random()]: the next number of the source. *)
Definition Math_random (w : world) : number * world :=
  (Math.to_number (random_source w (random_drawn w)),
   {| clock := clock w;
      console := console w;
      random_source := random_source w;
      random_drawn := S (random_drawn w);
      promises := promises w;
      timers := timers w |}).


(** ** The helpers *)

Section Helpers.

Variable shortest : NumberPrototype.engine.


(** [return Math.random().toString(36).substr(2, 9);] *)
Definition generateId (w : world) : outcome string16 * world :=
  let (x, w') := Math_random w in
  (text <- NumberPrototype.toString shortest x (Number.of_N 36) ;;
   Returns (StringPrototype.substr text (Number.of_N 2) (Number.of_N 9)),
   w').

(** [const timestamp = new Date().toISOString();
     if (data) { console.log(`[${timestamp}] ${message}:`, data); }
     else { console.log(`[${timestamp}] ${message}`); }]
    The argument [data] is [None] when the caller leaves it out, and the
    parameter is [undefined] then. *)
Definition logWithTimestamp (message : string16) (data : option value)
  (w : world) : world :=
  let timestamp := Date.toISOString (clock w) in
  let data := match data with Some v => v | None => VUndefined end in
  if ToBoolean data then
    console_log
      [VString (lit "[" ++ timestamp ++ lit "] " ++ message ++ lit ":"); data] w
  else
    console_log [VString (lit "[" ++ timestamp ++ lit "] " ++ message)] w.

End Helpers.



Section Calls.

Variable shortest : NumberPrototype.engine.



(** *** [generateId] *)

Lemma substr_2_9 text :
  StringPrototype.substr text (Number.of_N 2) (Number.of_N 9)
  = firstn 9 (skipn 2 text).
Proof.
  unfold StringPrototype.substr.
  change (Number.ToIntegerOrInfinity (Number.of_N 2)) with (Number.Integer 2).
  change (Number.ToIntegerOrInfinity (Number.of_N 9)) with (Number.Integer 9).
  cbv beta iota zeta. change (2 <? 0)%Z with false. cbv iota.
  destruct text as [|c1 [|c2 text]]; [reflexivity|reflexivity|].
  cbn [length]. set (m := length text).
  replace (Z.to_nat (Z.min 2 (Z.of_nat (S (S m))))) with 2%nat by lia.
  cbn [skipn].
  replace (Z.to_nat _) with (Nat.min 9 m) by lia.
  unfold m. clear m.
  transitivity (firstn 9 (firstn (length text) text));
    [now rewrite firstn_firstn|now rewrite firstn_all].
Qed.

Lemma toString_36 x :
  NumberPrototype.toString shortest x (Number.of_N 36)
  = Returns (NumberPrototype.toString_radix shortest x 36).
Proof. reflexivity. Qed.

Lemma generateId_draw w :
  generateId shortest w
  = (Returns (firstn 9 (skipn 2
       (NumberPrototype.toString_radix shortest
          (Math.to_number (random_source w (random_drawn w))) 36))),
     snd (Math_random w)).
Proof.
  unfold generateId. cbn [Math_random snd]. rewrite toString_36. cbn [bind].
  now rewrite substr_2_9.
Qed.

Lemma forallb_firstn {A} (f : A -> bool) n l :
  forallb f l = true -> forallb f (firstn n l) = true.
Proof.
  revert n. induction l as [|a l IH]; intros [|n] H; try reflexivity.
  cbn [firstn forallb] in *. apply andb_prop in H. destruct H as [Ha Hl].
  now rewrite Ha, IH.
Qed.

Lemma fraction_digits u :
  NumberPrototype.keeps_fractions shortest ->
  forallb Digits.is_base36_char
    (skipn 2 (NumberPrototype.toString_radix shortest (Math.to_number u) 36))
  = true.
Proof.
  intros Hkeep. destruct u as [|s z]; [reflexivity|].
  unfold NumberPrototype.toString_radix. cbn [Math.to_number].
  change (36 =? 10)%N with false. cbv iota.
  pose proof (Hkeep 36%N s (- Z.of_nat z)%Z ltac:(lia) ltac:(lia)) as Hn.
  destruct (shortest 36%N s (- Z.of_nat z)%Z) as [s' n']. cbn [snd] in Hn.
  cbn [Number.sign_string app]. unfold Number.positional. cbv zeta.
  rewrite JSON.length_digits_string.
  destruct (JSON.to_digits_nonempty 36 (N.pos s')) as (d & ds & E); [lia|].
  pose proof (Digits.to_digits_bound 36 (N.pos s') ltac:(lia)) as Hb.
  rewrite E in *.
  destruct (Z.leb_spec (Z.of_nat (length (d :: ds))) n');
    [cbn [length] in *; lia|].
  destruct (Z.ltb_spec 0 n'); [lia|].
  change (lit "0.") with [48%N; 46%N]. cbn [app skipn].
  rewrite forallb_app. apply andb_true_intro. split.
  - unfold Number.zeros. induction (Z.to_nat (- n')); [reflexivity|assumption].
  - unfold Digits.digits_string. apply forallb_forall. intros c Hc.
    apply in_map_iff in Hc. destruct Hc as (e & <- & He).
    apply Digits.digit_char_base36.
    rewrite Forall_forall in Hb. now apply Hb.
Qed.

End Calls.

(** A world whose source of random numbers gives [u] every time. *)
Definition constant_world (u : Math.unit_number) : world :=
  {| clock := 1700000000000;
     console := [];
     random_source := fun _ => u;
     random_drawn := 0;
     promises := 0;
     timers := [] |}.

Section Guarantees.

Variable shortest : NumberPrototype.engine.

(** C5. Every string [generateId] returns is made of the characters [0]
    to [9] and [a] to [z], whatever the random source gives; and two
    calls in a row can return the same string. *)
Theorem generateId_alphabet :
  NumberPrototype.keeps_fractions shortest ->
  (forall w, exists id,
      fst (generateId shortest w) = Returns id
      /\ forallb Digits.is_base36_char id = true)
  /\ (exists w id,
        fst (generateId shortest w) = Returns id
        /\ fst (generateId shortest (snd (generateId shortest w)))
           = Returns id).
Proof.
  intros Hkeep. split.
  - intros w. rewrite generateId_draw. eexists. split; [reflexivity|].
    apply forallb_firstn. now apply fraction_digits.
  - exists (constant_world Math.UZero), []. split; reflexivity.
Qed.

(** C10. The string [generateId] returns has at most nine characters,
    whatever the random source gives, and when the source gives zero it
    is shorter than nine: it is empty. *)
Theorem generateId_length :
  (forall w, exists id,
      fst (generateId shortest w) = Returns id /\ (length id <= 9)%nat)
  /\ (exists w id,
        fst (generateId shortest w) = Returns id
        /\ (length id < 9)%nat /\ id = []).
Proof.
  split.
  - intros w. rewrite generateId_draw. eexists. split; [reflexivity|].
    apply firstn_le_length.
  - exists (constant_world Math.UZero), []. repeat split. cbn. lia.
Qed.

(** *** [logWithTimestamp] *)

Definition log_line (w : world) (message : string16) : string16 :=
  lit "[" ++ Date.toISOString (clock w) ++ lit "] " ++ message.

(** C9. [logWithTimestamp message data] logs [data] after the message if
    and only if [data] is truthy; with a falsy [data] it does what the
    call without [data] does. *)
Theorem logWithTimestamp_truthiness (message : string16) (data : value)
  (w : world) :
  (ToBoolean data = true <->
   console (logWithTimestamp message (Some data) w)
   = console w ++ [[VString (log_line w message ++ lit ":"); data]])
  /\ (ToBoolean data = false ->
      logWithTimestamp message (Some data) w
      = logWithTimestamp message None w).
Proof.
  unfold logWithTimestamp, log_line. cbv zeta. cbn [ToBoolean].
  destruct (ToBoolean data) eqn:E; split.
  - split; [intros _|reflexivity]. cbn [console_log console].
    now rewrite <- !app_assoc.
  - discriminate.
  - split; [discriminate|]. cbn [console_log console]. intros H.
    apply app_inv_head in H. discriminate.
  - reflexivity.
Qed.

Lemma logWithTimestamp_truthiness_witness :
  logWithTimestamp (lit "step") (Some (VNumber Number.NaN))
    (constant_world Math.UZero)
  = logWithTimestamp (lit "step") None (constant_world Math.UZero).
Proof.
  apply (logWithTimestamp_truthiness (lit "step") (VNumber Number.NaN)
           (constant_world Math.UZero)).
  reflexivity.
Defined.

(** C2, as the code has it.  With or without [data], [logWithTimestamp]
    adds exactly one entry to the console; its text is an opening
    bracket, a valid ISO 8601 timestamp, a closing bracket, a space and
    the message; [data] follows, after a colon, when it is truthy, and
    is left out when it is falsy or not given. *)
Theorem logWithTimestamp_line (message : string16) (data : option value)
  (w : world) :
  Date.valid_time (clock w) = true ->
  exists timestamp,
    Date.is_ISO8601 timestamp = true
    /\ console (logWithTimestamp message data w)
       = console w
         ++ [match data with
             | Some d =>
                 if ToBoolean d
                 then [VString (lit "[" ++ timestamp ++ lit "] " ++ message
                                ++ lit ":"); d]
                 else [VString (lit "[" ++ timestamp ++ lit "] " ++ message)]
             | None => [VString (lit "[" ++ timestamp ++ lit "] " ++ message)]
             end].
Proof.
  intros Hvalid. exists (Date.toISOString (clock w)).
  split; [now apply Date.toISOString_valid|].
  unfold logWithTimestamp. cbv zeta.
  destruct data as [d|]; [destruct (ToBoolean d)|]; reflexivity.
Qed.

Lemma logWithTimestamp_line_witness :
  exists timestamp,
    Date.is_ISO8601 timestamp = true
    /\ console (logWithTimestamp (lit "step") (Some (VString (lit "done")))
                  (constant_world Math.UZero))
       = [[VString (lit "[" ++ timestamp ++ lit "] step:");
           VString (lit "done")]].
Proof.
  apply (logWithTimestamp_line (lit "step") (Some (VString (lit "done")))
           (constant_world Math.UZero)).
  reflexivity.
Defined.

(** C2 fails as stated: a [data] argument that is given is not always in
    the line.  Given as zero, it is left out. *)
Lemma logWithTimestamp_zero_left_out :
  ~ (forall message data w, exists text,
        console (logWithTimestamp message (Some data) w)
        = console w ++ [[VString text; data]]).
Proof.
  intros H.
  destruct (H (lit "step") (VNumber (Number.Zero false))
              (constant_world Math.UZero)) as [text E].
  discriminate.
Qed.

End Guarantees.

Lemma generateId_alphabet_witness :
  (forall w, exists id,
      fst (generateId NumberPrototype.eleven_digits w) = Returns id
      /\ forallb Digits.is_base36_char id = true)
  /\ (exists w id,
        fst (generateId NumberPrototype.eleven_digits w) = Returns id
        /\ fst (generateId NumberPrototype.eleven_digits
                  (snd (generateId NumberPrototype.eleven_digits w)))
           = Returns id).
Proof.
  apply (generateId_alphabet NumberPrototype.eleven_digits).
  exact NumberPrototype.eleven_digits_keeps_fractions.
Defined.

(** ** More on [formatState] *)

Lemma positive_zeros_fixed v :
  positive_zeros v = v <-> has_negative_zero v = false.
Proof.
  induction v as [| |b|x|s|z|d| |l IH|props IH] using value_nested_ind;
    try (split; reflexivity).
  - destruct x as [| |[|]|]; split; try reflexivity; discriminate.
  - cbn [positive_zeros has_negative_zero]. split.
    + intros H. injection H as H. induction IH as [|e l He _ IHl];
        [reflexivity|].
      cbn [map existsb] in *. injection H as H1 H2.
      apply orb_false_intro; [now apply He|now apply IHl].
    + intros H. f_equal. induction IH as [|e l He _ IHl]; [reflexivity|].
      cbn [map existsb] in *. apply orb_false_elim in H. destruct H as [H1 H2].
      f_equal; [now apply He|now apply IHl].
  - cbn [positive_zeros has_negative_zero]. split.
    + intros H. injection H as H. induction IH as [|[k e] l He _ IHl];
        [reflexivity|].
      cbn [map existsb fst snd] in *. injection H as H1 H2.
      apply orb_false_intro; [now apply He|now apply IHl].
    + intros H. f_equal. induction IH as [|[k e] l He _ IHl]; [reflexivity|].
      cbn [map existsb fst snd] in *. apply orb_false_elim in H.
      destruct H as [H1 H2].
      f_equal; [f_equal; now apply He|now apply IHl].
Qed.

(** X1. For a value of the JSON data model, parsing the text of
    [formatState] gives the value itself exactly when it holds no
    negative zero; otherwise the zeros come back positive. *)
Theorem formatState_parse_identity (x : value) :
  well_formed x = true -> representable x = true ->
  exists text y,
    formatState x = Returns (Some text)
    /\ JSON.parse text = Returns y
    /\ y = positive_zeros x
    /\ (y = x <-> has_negative_zero x = false).
Proof.
  intros Hwf Hrep.
  destruct (formatState_then_parse x Hwf Hrep) as (text & Etext & Eparse).
  exists text, (positive_zeros x). repeat split; try assumption.
  - now apply positive_zeros_fixed.
  - now apply positive_zeros_fixed.
Qed.

Lemma formatState_parse_identity_witness :
  exists text y,
    formatState sample_state = Returns (Some text)
    /\ JSON.parse text = Returns y
    /\ y = positive_zeros sample_state
    /\ (y = sample_state <-> has_negative_zero sample_state = false).
Proof.
  apply (formatState_parse_identity sample_state); reflexivity.
Defined.

(** X2. Two values of the JSON data model with the same [formatState]
    text differ at most in the sign of their zeros. *)
Theorem formatState_injective (x y : value) :
  well_formed x = true -> representable x = true ->
  well_formed y = true -> representable y = true ->
  formatState x = formatState y ->
  positive_zeros x = positive_zeros y.
Proof.
  intros Hwx Hrx Hwy Hry E.
  destruct (formatState_then_parse x Hwx Hrx) as (tx & Ex & Px).
  destruct (formatState_then_parse y Hwy Hry) as (ty & Ey & Py).
  rewrite E, Ey in Ex. injection Ex as <-.
  rewrite Px in Py. now injection Py.
Qed.

Lemma formatState_injective_witness :
  positive_zeros (VArray [VNumber (Number.Zero true)])
  = positive_zeros (VArray [VNumber (Number.Zero false)]).
Proof.
  apply (formatState_injective (VArray [VNumber (Number.Zero true)])
           (VArray [VNumber (Number.Zero false)])); reflexivity.
Defined.

(** *** The characters of the text *)


















(** ** More on [generateId] *)

Section Identifiers.

Variable shortest : NumberPrototype.engine.
Hypothesis keeps : NumberPrototype.keeps_fractions shortest.

Lemma fraction_string s z :
  exists zeros d ds,
    NumberPrototype.toString_radix shortest
      (Math.to_number (Math.UFraction s z)) 36
    = lit "0." ++ Number.zeros zeros ++ Digits.digits_string (d :: ds).
Proof.
  unfold NumberPrototype.toString_radix. cbn [Math.to_number].
  change (36 =? 10)%N with false. cbv iota.
  pose proof (keeps 36%N s (- Z.of_nat z)%Z ltac:(lia) ltac:(lia)) as Hn.
  destruct (shortest 36%N s (- Z.of_nat z)%Z) as [s' n']. cbn [snd] in Hn.
  cbn [Number.sign_string app]. unfold Number.positional. cbv zeta.
  rewrite JSON.length_digits_string.
  destruct (JSON.to_digits_nonempty 36 (N.pos s')) as (d & ds & E); [lia|].
  rewrite E.
  destruct (Z.leb_spec (Z.of_nat (length (d :: ds))) n');
    [cbn [length] in *; lia|].
  destruct (Z.ltb_spec 0 n'); [lia|]. eauto.
Qed.

(** X6. [generateId] returns the empty string exactly when [Math.random]
    gives zero. *)
Theorem generateId_empty_iff (w : world) :
  fst (generateId shortest w) = Returns []
  <-> random_source w (random_drawn w) = Math.UZero.
Proof.
  rewrite generateId_draw. cbn [fst].
  destruct (random_source w (random_drawn w)) as [|s z].
  - split; reflexivity.
  - destruct (fraction_string s z) as (zeros & d & ds & E). rewrite E.
    change (lit "0.") with [48%N; 46%N]. cbn [app skipn].
    split; [|discriminate]. intros [= H].
    destruct zeros; discriminate.
Qed.

End Identifiers.

Lemma generateId_empty_iff_witness :
  fst (generateId NumberPrototype.eleven_digits (constant_world Math.UZero))
  = Returns [].
Proof.
  apply (generateId_empty_iff NumberPrototype.eleven_digits
           NumberPrototype.eleven_digits_keeps_fractions
           (constant_world Math.UZero)).
  reflexivity.
Defined.

(** ** The timestamp of a line *)

Lemma parse_toISOString_witness :
  Date.parse (Date.toISOString 1700000000000) = Some 1700000000000%Z.
Proof.
  apply (Date.parse_toISOString 1700000000000). reflexivity.
Defined.

Lemma padded_length w n : length (Date.padded w n) = w.
Proof.
  unfold Date.padded, Digits.digits_string.
  now rewrite length_map, Date.fixed_digits_length.
Qed.

Lemma toISOString_length t :
  length (Date.toISOString t)
  = if ((0 <=? Date.YearFromTime t) && (Date.YearFromTime t <=? 9999))%Z
    then 24%nat else 27%nat.
Proof.
  unfold Date.toISOString, Date.year_string.
  repeat (rewrite length_app || rewrite padded_length).
  destruct ((0 <=? Date.YearFromTime t) && (Date.YearFromTime t <=? 9999))%Z.
  - rewrite padded_length. reflexivity.
  - rewrite length_app, padded_length.
    destruct (Date.YearFromTime t <? 0)%Z; reflexivity.
Qed.

(** X8. In the years [0] to [9999] the timestamp has 24 characters, so
    the message of a line starts at column 27, after the bracketed
    timestamp and a space; a colon follows it when [data] is logged. *)
Theorem logWithTimestamp_message_column (message : string16)
  (data : option value) (w : world) :
  (0 <= Date.YearFromTime (clock w) <= 9999)%Z ->
  exists text more,
    console (logWithTimestamp message data w)
    = console w ++ [VString text :: more]
    /\ firstn 27 text = lit "[" ++ Date.toISOString (clock w) ++ lit "] "
    /\ skipn 27 text
       = message ++ match more with [] => [] | _ => lit ":" end.
Proof.
  intros Hyear.
  pose proof (toISOString_length (clock w)) as Hlen.
  replace ((0 <=? Date.YearFromTime (clock w))
           && (Date.YearFromTime (clock w) <=? 9999))%Z with true in Hlen
    by (symmetry; apply andb_true_intro; split; apply Z.leb_le; lia).
  assert (length (lit "[" ++ Date.toISOString (clock w) ++ lit "] ") = 27%nat)
    as Hprefix by (rewrite !length_app, Hlen; reflexivity).
  unfold logWithTimestamp. cbv zeta.
  destruct (ToBoolean match data with Some v => v | None => VUndefined end);
    eexists; eexists; (split; [reflexivity|]).
  - split.
    + rewrite (app_assoc _ _ (lit "] " ++ _)), (app_assoc _ _ (message ++ _)).
      rewrite <- (app_assoc (lit "[")).
      now apply Date.firstn_exact.
    + rewrite (app_assoc _ _ (lit "] " ++ _)), (app_assoc _ _ (message ++ _)).
      rewrite <- (app_assoc (lit "[")).
      now apply Date.skipn_exact.
  - split.
    + rewrite (app_assoc _ _ (lit "] " ++ _)), (app_assoc _ _ message).
      rewrite <- (app_assoc (lit "[")).
      now apply Date.firstn_exact.
    + rewrite (app_assoc _ _ (lit "] " ++ _)), (app_assoc _ _ message).
      rewrite <- (app_assoc (lit "[")), app_nil_r.
      now apply Date.skipn_exact.
Qed.

Lemma logWithTimestamp_message_column_witness :
  exists text more,
    console (logWithTimestamp (lit "step") None (constant_world Math.UZero))
    = [VString text :: more]
    /\ firstn 27 text = lit "[2023-11-14T22:13:20.000Z] "
    /\ skipn 27 text = lit "step" ++ match more with [] => [] | _ => lit ":" end.
Proof.
  apply (logWithTimestamp_message_column (lit "step") None
           (constant_world Math.UZero)).
  vm_compute. split; discriminate.
Defined.

(** ** Sequences of calls *)




Section Sequences.

Variable shortest : NumberPrototype.engine.



End Sequences.

(** ** The text of the value read back *)

Lemma callable_toJSON_positive_zeros props :
  JSON.callable_toJSON
    (map (fun kv => (fst kv, positive_zeros (snd kv))) props)
  = JSON.callable_toJSON props.
Proof.
  unfold JSON.callable_toJSON.
  induction props as [|[k v] props IH]; [reflexivity|].
  cbn [map fst snd Obj.lookup].
  destruct (string16_eqb (lit "toJSON") k); [|exact IH].
  destruct v as [| | |[| |[|]|]| | | | | |]; reflexivity.
Qed.

Lemma serialize_positive_zeros v : forall gap indent,
  JSON.SerializeJSONProperty gap indent (positive_zeros v)
  = JSON.SerializeJSONProperty gap indent v.
Proof.
  induction v as [| |b|x|s|z|d| |l IH|props IH] using value_nested_ind;
    intros gap indent; try reflexivity.
  - now destruct x.
  - cbn [positive_zeros]. rewrite !JSON.SerializeJSONProperty_array.
    f_equal. induction IH as [|e l He _ IHl]; [reflexivity|].
    cbn [map JSON.serialize_elements]. now rewrite He, IHl.
  - cbn [positive_zeros]. rewrite !JSON.SerializeJSONProperty_object.
    rewrite callable_toJSON_positive_zeros.
    destruct (JSON.callable_toJSON props); [reflexivity|].
    f_equal. induction IH as [|[k e] l He _ IHl]; [reflexivity|].
    cbn [map fst snd JSON.serialize_members] in *. now rewrite He, IHl.
Qed.

(** X7. The text of [formatState] is stable: formatting the value that
    [JSON.parse] reads from it gives the same text again. *)
Theorem formatState_stable (x : value) :
  well_formed x = true -> representable x = true ->
  exists text y,
    formatState x = Returns (Some text)
    /\ JSON.parse text = Returns y
    /\ formatState y = Returns (Some text).
Proof.
  intros Hwf Hrep.
  destruct (formatState_then_parse x Hwf Hrep) as (text & Etext & Eparse).
  exists text, (positive_zeros x). repeat split; try assumption.
  unfold formatState, JSON.stringify in *.
  now rewrite serialize_positive_zeros.
Qed.

Lemma formatState_stable_witness :
  exists text y,
    formatState sample_state = Returns (Some text)
    /\ JSON.parse text = Returns y
    /\ formatState y = Returns (Some text).
Proof.
  apply (formatState_stable sample_state); reflexivity.
Defined.

(** ** What [JSON.parse] returns *)

(** [CreateDataProperty] keeps the key order. *)
Lemma replace_keys k v props :
  map fst (Obj.replace k v props) = map fst props.
Proof.
  induction props as [|[k' v'] props IH]; [reflexivity|].
  cbn [Obj.replace]. destruct (string16_eqb k k'); [reflexivity|].
  cbn [map fst]. now rewrite IH.
Qed.

Lemma lookup_absent k props :
  Obj.lookup k props = None ->
  existsb (string16_eqb k) (map fst props) = false.
Proof.
  induction props as [|[k' v'] props IH]; [reflexivity|].
  cbn [Obj.lookup map fst existsb].
  destruct (string16_eqb k k'); [discriminate|exact IH].
Qed.

Lemma distinct_snoc ks k :
  Obj.distinct ks = true -> existsb (string16_eqb k) ks = false ->
  Obj.distinct (ks ++ [k]) = true.
Proof.
  induction ks as [|k' ks IH]; [reflexivity|].
  cbn [app Obj.distinct existsb]. intros Hd Hk.
  apply andb_prop in Hd. destruct Hd as [Hfresh Hd].
  apply orb_false_elim in Hk. destruct Hk as [Hkk' Hk].
  rewrite IH by assumption. rewrite existsb_app. cbn [existsb].
  apply negb_true_iff in Hfresh. rewrite Hfresh.
  rewrite Obj.string16_eqb_sym, Hkk'. reflexivity.
Qed.

Lemma strings_only_snoc ks k :
  Obj.strings_only ks = true -> Obj.array_index k = None ->
  Obj.strings_only (ks ++ [k]) = true.
Proof.
  induction ks as [|k' ks IH]; cbn [app Obj.strings_only]; intros H Hk.
  - now rewrite Hk.
  - destruct (Obj.array_index k'); [discriminate|now apply IH].
Qed.

Lemma indices_above_snoc ks k : forall low,
  Obj.indices_above low ks = true -> Obj.array_index k = None ->
  Obj.indices_above low (ks ++ [k]) = true.
Proof.
  induction ks as [|k' ks IH]; intros low; cbn [app Obj.indices_above];
    intros H Hk.
  - now rewrite Hk.
  - destruct (Obj.array_index k').
    + apply andb_prop in H. destruct H as [H1 H2]. rewrite H1.
      now apply IH.
    + now apply strings_only_snoc.
Qed.

Lemma digit_char_of_digit c :
  Digits.is_decimal_digit c = true -> Digits.digit_char (c - 48) = c.
Proof.
  unfold Digits.is_decimal_digit, Digits.digit_char. intros H.
  apply andb_prop in H. destruct H as [Ha Hb]. apply N.leb_le in Ha, Hb.
  destruct (N.ltb_spec (c - 48) 10); lia.
Qed.

(** An array index is written in one way only. *)
Lemma array_index_string k i : Obj.array_index k = Some i ->
  k = Digits.digits_string (Digits.to_digits 10 i).
Proof.
  unfold Obj.array_index. destruct k as [|c rest]; [discriminate|].
  destruct (forallb Digits.is_decimal_digit (c :: rest)) eqn:Hdigits;
    [|discriminate].
  destruct (negb (c =? 48)%N || Nat.eqb (length rest) 0) eqn:Hhead;
    [|discriminate].
  destruct (length (c :: rest) <=? 10)%nat; [|discriminate]. cbn [andb].
  destruct (_ <? 4294967295)%N; [|discriminate]. intros [= <-].
  set (k := c :: rest) in *.
  assert (Forall (fun d => d < 10)%N (map (fun c => (c - 48)%N) k)
          /\ Digits.digits_string (map (fun c => (c - 48)%N) k) = k)
    as [Hb Hk].
  { clearbody k. clear Hhead. induction k as [|a k IH]; [now split|].
    cbn [forallb] in Hdigits. apply andb_prop in Hdigits.
    destruct Hdigits as [Ha Hk]. destruct (IH Hk) as [IH1 IH2].
    cbn [map Digits.digits_string]. split.
    - constructor; [|assumption].
      unfold Digits.is_decimal_digit in Ha. apply andb_prop in Ha.
      destruct Ha as [H1 H2]. apply N.leb_le in H1, H2. lia.
    - unfold Digits.digits_string in IH2. now rewrite IH2, digit_char_of_digit. }
  rewrite Digits.to_of_digits; [now symmetry|lia|assumption|].
  unfold k in *. cbn [map forallb] in *.
  apply andb_prop in Hdigits. destruct Hdigits as [Hc _].
  destruct rest as [|c' rest]; [exact I|]. cbn [map].
  cbn [length Nat.eqb] in Hhead. rewrite orb_false_r in Hhead.
  apply negb_true_iff, N.eqb_neq in Hhead.
  unfold Digits.is_decimal_digit in Hc. apply andb_prop in Hc.
  destruct Hc as [H1 H2]. apply N.leb_le in H1, H2. lia.
Qed.

Lemma array_index_injective k k' i :
  Obj.array_index k = Some i -> Obj.array_index k' = Some i -> k = k'.
Proof.
  intros H H'. apply array_index_string in H, H'. congruence.
Qed.

Lemma insert_index_exists f i k v props :
  existsb f (map fst (Obj.insert_index i k v props))
  = f k || existsb f (map fst props).
Proof.
  induction props as [|[k' v'] props IH]; [reflexivity|].
  cbn [Obj.insert_index]. destruct (Obj.array_index k') as [j|];
    [destruct (j <? i)%N|]; try reflexivity.
  cbn [map fst existsb]. rewrite IH.
  now destruct (f k), (f k').
Qed.

Lemma insert_index_distinct i k v props :
  Obj.distinct (map fst props) = true ->
  existsb (string16_eqb k) (map fst props) = false ->
  Obj.distinct (map fst (Obj.insert_index i k v props)) = true.
Proof.
  induction props as [|[k' v'] props IH]; [reflexivity|].
  cbn [map fst Obj.distinct existsb Obj.insert_index]. intros Hd Hk.
  apply andb_prop in Hd. destruct Hd as [Hfresh Hd].
  apply orb_false_elim in Hk. destruct Hk as [Hkk' Hk].
  assert (Obj.distinct (k :: k' :: map fst props) = true) as Hfront.
  { cbn [Obj.distinct existsb]. now rewrite Hkk', Hk, Hfresh, Hd. }
  destruct (Obj.array_index k') as [j|]; [destruct (j <? i)%N|];
    try exact Hfront.
  cbn [map fst Obj.distinct]. rewrite IH by assumption.
  rewrite insert_index_exists. apply negb_true_iff in Hfresh.
  now rewrite Hfresh, Obj.string16_eqb_sym, Hkk'.
Qed.

Lemma insert_index_order i k v props : forall low,
  Obj.array_index k = Some i ->
  Obj.indices_above low (map fst props) = true ->
  match low with Some j => (j < i)%N | None => True end ->
  (forall k', In k' (map fst props) -> Obj.array_index k' <> Some i) ->
  Obj.indices_above low (map fst (Obj.insert_index i k v props)) = true.
Proof.
  induction props as [|[k' v'] props IH]; intros low Hk H Hlow Hother.
  - cbn [Obj.insert_index map fst Obj.indices_above]. rewrite Hk.
    destruct low as [j|]; [|reflexivity].
    apply N.ltb_lt in Hlow. now rewrite Hlow.
  - cbn [map fst Obj.indices_above Obj.insert_index] in *.
    assert (match low with Some j => (j <? i)%N | None => true end = true)
      as Hlow' by (destruct low; [now apply N.ltb_lt|reflexivity]).
    destruct (Obj.array_index k') as [j|] eqn:Ek'.
    + apply andb_prop in H. destruct H as [H1 H2].
      destruct (N.ltb_spec j i) as [Hji|Hji].
      * cbn [map fst Obj.indices_above]. rewrite Ek', H1.
        apply IH; auto. intros k'' Hin. apply Hother. now right.
      * cbn [map fst Obj.indices_above]. rewrite Hk, Ek', Hlow', H2.
        assert (i <> j) as Hne
          by (intros ->; now apply (Hother k' (or_introl eq_refl))).
        assert ((i <? j)%N = true) as -> by (apply N.ltb_lt; lia).
        reflexivity.
    + cbn [map fst Obj.indices_above]. now rewrite Hk, Ek', Hlow'.
Qed.

Lemma CreateDataProperty_key_order props k v :
  Obj.key_order (map fst props) = true ->
  Obj.key_order (map fst (Obj.CreateDataProperty props k v)) = true.
Proof.
  unfold Obj.key_order, Obj.CreateDataProperty. intros H.
  apply andb_prop in H. destruct H as [Hd Ho].
  destruct (Obj.lookup k props) eqn:El.
  - now rewrite replace_keys, Hd, Ho.
  - apply lookup_absent in El.
    destruct (Obj.array_index k) as [i|] eqn:Ek.
    + rewrite insert_index_distinct by assumption.
      rewrite insert_index_order; auto.
      intros k' Hin Ek'.
      assert (k' = k) as -> by now apply (array_index_injective k' k i).
      assert (existsb (string16_eqb k) (map fst props) = true) as Hex
        by (apply existsb_exists; exists k; split;
            [assumption|apply string16_eqb_refl]).
      congruence.
    + rewrite map_app. cbn [map fst].
      now rewrite distinct_snoc, indices_above_snoc.
Qed.

Lemma CreateDataProperty_values (P : value -> bool) props k v :
  forallb (fun kv => P (snd kv)) props = true -> P v = true ->
  forallb (fun kv => P (snd kv)) (Obj.CreateDataProperty props k v) = true.
Proof.
  intros Hprops Hv. unfold Obj.CreateDataProperty.
  destruct (Obj.lookup k props).
  - induction props as [|[k' v'] props IH]; [reflexivity|].
    cbn [Obj.replace forallb snd] in *.
    apply andb_prop in Hprops. destruct Hprops as [H1 H2].
    destruct (string16_eqb k k'); cbn [forallb snd].
    + now rewrite Hv, H2.
    + now rewrite H1, IH.
  - destruct (Obj.array_index k) as [i|].
    + induction props as [|[k' v'] props IH];
        [cbn; now rewrite Hv|].
      cbn [Obj.insert_index forallb snd] in *.
      apply andb_prop in Hprops. destruct Hprops as [H1 H2].
      destruct (Obj.array_index k') as [j|]; [destruct (j <? i)%N|];
        cbn [forallb snd]; rewrite ?Hv, ?H1, ?H2, ?IH; auto.
    + rewrite forallb_app, Hprops. cbn. now rewrite Hv.
Qed.

(** The objects of a value, at every depth, have their keys in key
    order; and the value is made of what JSON text can denote. *)
Fixpoint keys_in_order (v : value) : bool :=
  match v with
  | VArray l => forallb keys_in_order l
  | VObject props =>
      Obj.key_order (map fst props)
      && forallb (fun kv => keys_in_order (snd kv)) props
  | _ => true
  end.

Fixpoint json_shaped (v : value) : bool :=
  match v with
  | VNull | VBoolean _ | VNumber _ | VString _ => true
  | VArray l => forallb json_shaped l
  | VObject props => forallb (fun kv => json_shaped (snd kv)) props
  | VUndefined | VBigInt _ | VSymbol _ | VFunction => false
  end.

Definition model_value (v : value) : Prop :=
  keys_in_order v = true /\ json_shaped v = true.

Definition model_props (l : list (string16 * value)) : Prop :=
  Obj.key_order (map fst l) = true
  /\ forallb (fun kv => keys_in_order (snd kv)) l = true
  /\ forallb (fun kv => json_shaped (snd kv)) l = true.

Lemma model_values l :
  Forall model_value l ->
  forallb keys_in_order l = true /\ forallb json_shaped l = true.
Proof.
  induction 1 as [|v l [Hw Hr] _ [IHw IHr]]; [now split|].
  cbn [forallb]. now rewrite Hw, Hr, IHw, IHr.
Qed.

Lemma model_props_CreateDataProperty acc k v :
  model_props acc -> model_value v ->
  model_props (Obj.CreateDataProperty acc k v).
Proof.
  intros (Hk & Hw & Hr) [Hvw Hvr]. repeat split.
  - now apply CreateDataProperty_key_order.
  - now apply (CreateDataProperty_values keys_in_order).
  - now apply (CreateDataProperty_values json_shaped).
Qed.

Lemma parse_model fuel :
  (forall input v rest,
      JSON.parse_value fuel input = Some (v, rest) -> model_value v)
  /\ (forall input l rest,
        JSON.parse_elements fuel input = Some (l, rest) ->
        Forall model_value l)
  /\ (forall acc input l rest,
        model_props acc ->
        JSON.parse_members fuel acc input = Some (l, rest) ->
        model_props l).
Proof.
  induction fuel as [|fuel (IHv & IHe & IHm)].
  - repeat split; discriminate.
  - split; [|split].
    + intros input v rest. destruct input as [|c r]; [discriminate|].
      cbn [JSON.parse_value].
      destruct (c =? 110)%N.
      { destruct (JSON.expect _ _); [|discriminate]. intros [= <- _].
        now split. }
      destruct (c =? 116)%N.
      { destruct (JSON.expect _ _); [|discriminate]. intros [= <- _].
        now split. }
      destruct (c =? 102)%N.
      { destruct (JSON.expect _ _); [|discriminate]. intros [= <- _].
        now split. }
      destruct (c =? 34)%N.
      { destruct (JSON.parse_string_chars r) as [[s r']|]; [|discriminate].
        intros [= <- _]. now split. }
      destruct (c =? 91)%N.
      { destruct (JSON.skip_whitespace r) as [|c' r']; [discriminate|].
        destruct (c' =? 93)%N; [intros [= <- _]; now split|].
        destruct (JSON.parse_elements fuel (c' :: r')) as [[l r'']|] eqn:El;
          [|discriminate].
        intros [= <- _]. apply IHe in El. now apply model_values. }
      destruct (c =? 123)%N.
      { destruct (JSON.skip_whitespace r) as [|c' r']; [discriminate|].
        destruct (c' =? 125)%N; [intros [= <- _]; now split|].
        destruct (JSON.parse_members fuel [] (c' :: r')) as [[l r'']|] eqn:El;
          [|discriminate].
        intros [= <- _]. apply IHm in El; [|now repeat split].
        destruct El as (Hk & Hw & Hr). split; cbn [keys_in_order json_shaped];
          [now rewrite Hk, Hw|assumption]. }
      destruct (JSON.parse_number (c :: r)) as [[x r']|]; [|discriminate].
      intros [= <- _]. now split.
    + intros input l rest. rewrite JSON.parse_elements_step.
      destruct (JSON.parse_value fuel input) as [[v r]|] eqn:Ev;
        [|discriminate].
      apply IHv in Ev.
      destruct (JSON.skip_whitespace r) as [|c r']; [discriminate|].
      destruct (c =? 44)%N.
      * destruct (JSON.parse_elements fuel _) as [[l' r'']|] eqn:El;
          [|discriminate].
        intros [= <- _]. constructor; [assumption|now apply IHe in El].
      * destruct (c =? 93)%N; [|discriminate].
        intros [= <- _]. now constructor.
    + intros acc input l rest Hacc. destruct input as [|c r]; [discriminate|].
      destruct (N.eqb_spec c 34) as [->|Hc].
      * rewrite JSON.parse_members_step.
        destruct (JSON.parse_string_chars r) as [[key r1]|]; [|discriminate].
        destruct (JSON.skip_whitespace r1) as [|c' r2]; [discriminate|].
        destruct (c' =? 58)%N; [|discriminate].
        destruct (JSON.parse_value fuel _) as [[v r3]|] eqn:Ev;
          [|discriminate].
        apply IHv in Ev. cbv zeta.
        pose proof (model_props_CreateDataProperty acc key v Hacc Ev) as Hacc'.
        destruct (JSON.skip_whitespace r3) as [|c2 r4]; [discriminate|].
        destruct (c2 =? 44)%N; [now apply IHm|].
        destruct (c2 =? 125)%N; [|discriminate].
        now intros [= <- _].
      * cbn [JSON.parse_members]. apply N.eqb_neq in Hc. rewrite Hc.
        discriminate.
Qed.

(** X12. Every value [JSON.parse] returns is made of [null], booleans,
    Numbers, strings, arrays and objects, and the keys of its objects
    are distinct and in key order at every depth, whatever the order and
    the repetitions of the members in the text. *)
Theorem parse_returns_model (text : string16) (v : value) :
  JSON.parse text = Returns v ->
  keys_in_order v = true /\ json_shaped v = true.
Proof.
  unfold JSON.parse.
  destruct (JSON.parse_value _ _) as [[v' rest]|] eqn:E; [|discriminate].
  destruct (JSON.skip_whitespace rest); [|discriminate].
  intros [= <-].
  now apply (proj1 (parse_model (S (length text)))) in E.
Qed.

Lemma parse_returns_model_witness :
  keys_in_order (VObject [(lit "7", VNull); (lit "b", VNumber (Number.of_N 15))])
  = true
  /\ json_shaped
       (VObject [(lit "7", VNull); (lit "b", VNumber (Number.of_N 15))])
     = true.
Proof.
  apply (parse_returns_model
           (lit "{ " ++ [34; 98; 34]%N ++ lit " : 1.50e1, "
            ++ [34; 55; 34]%N ++ lit " : null, "
            ++ [34; 98; 34]%N ++ lit " : 15 }")).
  reflexivity.
Defined.

(** ** What the text keeps of any value

    The value of the JSON data model that a text stands for: a Number
    that is not finite and an array element without a text become
    [null], a property without a text is left out. *)

Fixpoint json_image (v : value) : value :=
  match v with
  | VNumber x => if Number.is_finite x then v else VNull
  | VArray l =>
      VArray (map (fun e => if has_text e then json_image e else VNull) l)
  | VObject props =>
      VObject
        ((fix each (l : list (string16 * value)) : list (string16 * value) :=
            match l with
            | [] => []
            | (k, e) :: rest =>
                if has_text e then (k, json_image e) :: each rest
                else each rest
            end) props)
  | VUndefined | VSymbol _ | VFunction => VNull
  | _ => v
  end.

Fixpoint image_members (l : list (string16 * value))
  : list (string16 * value) :=
  match l with
  | [] => []
  | (k, e) :: rest =>
      if has_text e then (k, json_image e) :: image_members rest
      else image_members rest
  end.

Lemma json_image_object props :
  json_image (VObject props) = VObject (image_members props).
Proof. reflexivity. Qed.

Lemma has_text_json_image v : has_text (json_image v) = true.
Proof.
  destruct v as [| |b|x|s|z|d| |l|props]; try reflexivity.
  cbn. now destruct (Number.is_finite x).
Qed.

Lemma serialize_none v gap indent :
  has_text v = false ->
  JSON.SerializeJSONProperty gap indent v = Returns None.
Proof. destruct v; try discriminate; reflexivity. Qed.

Lemma image_members_keys props :
  exists keep,
    map fst (image_members props)
    = map fst (filter keep props).
Proof.
  exists (fun kv => has_text (snd kv)).
  induction props as [|[k e] props IH]; [reflexivity|].
  cbn [image_members filter snd]. destruct (has_text e); [|exact IH].
  cbn [map fst]. now rewrite IH.
Qed.

Lemma strings_only_any low ks :
  Obj.strings_only ks = true -> Obj.indices_above low ks = true.
Proof.
  destruct ks as [|k ks]; [reflexivity|]. cbn [Obj.strings_only Obj.indices_above].
  destruct (Obj.array_index k); [discriminate|trivial].
Qed.

Lemma indices_above_lower ks : forall low low',
  Obj.indices_above low ks = true ->
  match low, low' with
  | Some j, Some j' => (j' <= j)%N
  | None, Some _ => False
  | _, None => True
  end ->
  Obj.indices_above low' ks = true.
Proof.
  destruct ks as [|k ks]; intros low low' H Hlow; [reflexivity|].
  cbn [Obj.indices_above] in *.
  destruct (Obj.array_index k) as [i|]; [|assumption].
  apply andb_prop in H. destruct H as [H1 H2]. rewrite H2, andb_true_r.
  destruct low' as [j'|]; [|reflexivity].
  destruct low as [j|]; [|contradiction].
  apply N.ltb_lt in H1. apply N.ltb_lt. lia.
Qed.

Lemma filter_strings_only (keep : string16 * value -> bool) props :
  Obj.strings_only (map fst props) = true ->
  Obj.strings_only (map fst (filter keep props)) = true.
Proof.
  induction props as [|[k e] props IH]; [reflexivity|].
  cbn [map fst Obj.strings_only filter].
  destruct (Obj.array_index k) eqn:Ek; [discriminate|]. intros H.
  destruct (keep (k, e)); [|now apply IH].
  cbn [map fst Obj.strings_only]. rewrite Ek. now apply IH.
Qed.

Lemma filter_indices_above (keep : string16 * value -> bool) props :
  forall low,
  Obj.indices_above low (map fst props) = true ->
  Obj.indices_above low (map fst (filter keep props)) = true.
Proof.
  induction props as [|[k e] props IH]; intros low H; [reflexivity|].
  cbn [map fst Obj.indices_above filter] in *.
  destruct (Obj.array_index k) as [i|] eqn:Ek.
  - apply andb_prop in H. destruct H as [H1 H2].
    destruct (keep (k, e)).
    + cbn [map fst Obj.indices_above]. rewrite Ek, H1. now apply IH.
    + apply IH. apply (indices_above_lower _ (Some i) low H2).
      destruct low as [j|]; [|exact I]. apply N.ltb_lt in H1. lia.
  - destruct (keep (k, e)).
    + cbn [map fst Obj.indices_above]. rewrite Ek.
      now apply filter_strings_only.
    + apply strings_only_any. now apply filter_strings_only.
Qed.

Lemma filter_distinct (keep : string16 * value -> bool) props :
  Obj.distinct (map fst props) = true ->
  Obj.distinct (map fst (filter keep props)) = true.
Proof.
  induction props as [|[k e] props IH]; [reflexivity|].
  cbn [map fst Obj.distinct filter]. intros H.
  apply andb_prop in H. destruct H as [Hfresh Hd].
  destruct (keep (k, e)); [|now apply IH].
  cbn [map fst Obj.distinct]. rewrite IH by assumption. rewrite andb_true_r.
  apply negb_true_iff in Hfresh. apply negb_true_iff.
  apply not_true_is_false. intros Hex. apply existsb_exists in Hex.
  destruct Hex as (k' & Hin & Heq).
  assert (existsb (string16_eqb k) (map fst props) = true); [|congruence].
  apply existsb_exists. exists k'. split; [|assumption].
  apply in_map_iff in Hin. destruct Hin as (kv & <- & Hkv).
  apply filter_In in Hkv. now apply in_map.
Qed.

Lemma image_members_key_order props :
  Obj.key_order (map fst props) = true ->
  Obj.key_order (map fst (image_members props)) = true.
Proof.
  destruct (image_members_keys props) as [keep ->].
  unfold Obj.key_order. intros H. apply andb_prop in H. destruct H as [Hd Ho].
  now rewrite filter_distinct, filter_indices_above.
Qed.

Lemma image_members_no_toJSON props :
  JSON.callable_toJSON (image_members props) = false.
Proof.
  unfold JSON.callable_toJSON.
  induction props as [|[k e] props IH]; [reflexivity|].
  cbn [image_members]. destruct (has_text e) eqn:He; [|exact IH].
  cbn [Obj.lookup]. destruct (string16_eqb (lit "toJSON") k); [|exact IH].
  destruct e as [| |b|x|s|z|d| |l|q]; try reflexivity; try discriminate.
  cbn. now destruct (Number.is_finite x).
Qed.

Lemma serialize_json_image v :
  serializable v = true -> has_text v = true ->
  forall gap indent,
    JSON.SerializeJSONProperty gap indent (json_image v)
    = JSON.SerializeJSONProperty gap indent v.
Proof.
  induction v as [| |b|x|s|z|d| |l IH|props IH] using value_nested_ind;
    intros Hs Ht gap indent; try discriminate; try reflexivity.
  - cbn [json_image]. destruct (Number.is_finite x) eqn:Hx;
      cbn [JSON.SerializeJSONProperty]; now rewrite ?Hx.
  - cbn [json_image serializable] in *.
    rewrite !JSON.SerializeJSONProperty_array. f_equal.
    induction IH as [|e l He _ IHl]; [reflexivity|].
    cbn [forallb] in Hs. apply andb_prop in Hs. destruct Hs as [Hse Hsl].
    cbn [map JSON.serialize_elements]. rewrite IHl by assumption.
    destruct (has_text e) eqn:Hte.
    + now rewrite He.
    + rewrite (serialize_none e) by assumption. reflexivity.
  - rewrite json_image_object, !JSON.SerializeJSONProperty_object.
    rewrite image_members_no_toJSON.
    cbn [serializable] in Hs. apply andb_prop in Hs. destruct Hs as [Hno Hs].
    apply negb_true_iff in Hno. rewrite Hno. f_equal. clear Hno Ht.
    induction IH as [|[k e] l He _ IHl]; [reflexivity|].
    cbn [forallb snd] in Hs, He. apply andb_prop in Hs.
    destruct Hs as [Hse Hsl].
    cbn [image_members JSON.serialize_members].
    destruct (has_text e) eqn:Hte.
    + cbn [JSON.serialize_members]. now rewrite He, IHl.
    + rewrite (serialize_none e) by assumption. cbn [bind].
      rewrite IHl by assumption.
      now destruct (JSON.serialize_members gap (indent ++ gap) l).
Qed.

Lemma json_image_model v :
  well_formed v = true -> serializable v = true ->
  well_formed (json_image v) = true /\ representable (json_image v) = true.
Proof.
  induction v as [| |b|x|s|z|d| |l IH|props IH] using value_nested_ind;
    intros Hw Hs; try discriminate; try (now split).
  - cbn in *. destruct (Number.is_finite x) eqn:Hx; cbn; now rewrite ?Hx.
  - cbn [json_image well_formed representable serializable] in *.
    induction IH as [|e l He _ IHl]; [now split|].
    cbn [forallb] in Hw, Hs.
    apply andb_prop in Hw. destruct Hw as [Hwe Hwl].
    apply andb_prop in Hs. destruct Hs as [Hse Hsl].
    destruct (IHl Hwl Hsl) as [IH1 IH2]. cbn [map forallb].
    rewrite IH1, IH2.
    destruct (has_text e); [|now split].
    destruct (He Hwe Hse) as [-> ->]. now split.
  - rewrite json_image_object.
    cbn [well_formed representable serializable] in *.
    apply andb_prop in Hw. destruct Hw as [Hkeys Hw].
    apply andb_prop in Hs. destruct Hs as [_ Hs].
    rewrite image_members_key_order by assumption. cbn [andb].
    clear Hkeys.
    induction IH as [|[k e] l He _ IHl]; [now split|].
    cbn [forallb snd] in Hw, Hs, He.
    apply andb_prop in Hw. destruct Hw as [Hwe Hwl].
    apply andb_prop in Hs. destruct Hs as [Hse Hsl].
    destruct (IHl Hwl Hsl) as [IH1 IH2]. cbn [image_members].
    destruct (has_text e); [|now split].
    cbn [forallb snd]. destruct (He Hwe Hse) as [-> ->].
    now rewrite IH1, IH2.
Qed.

(** The text of a tree without BigInt and [toJSON] method is read back
    as its image. *)
Lemma formatState_image (x : value) :
  well_formed x = true -> serializable x = true -> has_text x = true ->
  exists text,
    formatState x = Returns (Some text)
    /\ JSON.parse text = Returns (positive_zeros (json_image x)).
Proof.
  intros Hw Hs Ht.
  destruct (json_image_model x Hw Hs) as [Hw' Hr'].
  destruct (formatState_then_parse (json_image x) Hw' Hr')
    as (text & Etext & Eparse).
  exists text. split; [|assumption].
  unfold formatState, JSON.stringify in *.
  now rewrite <- serialize_json_image.
Qed.

(** ** Objects by reference

    An ECMAScript value is a primitive or a reference to an object, and
    an object can be reached twice, also from itself.  The values above
    are the finite trees; here the objects lie in a heap and the values
    hold their addresses, so that a structure can be cyclic, and a
    function is given by what a call of it does, so that a [toJSON]
    method can be followed. *)

Module Heap.

Definition address := nat.

Inductive item :=
| JUndefined
| JNull
| JBoolean (b : bool)
| JNumber (x : number)
| JString (s : string16)
| JBigInt (z : Z)
| JSymbol (description : string16)
| JRef (a : address).

(** What a call of a function does, whatever [this] and the arguments
    are: the host's [Math.random]; a function that returns a value it
    holds, as [() => v] does; and any other function, whose body the
    model does not contain. *)
Inductive function :=
| HostMathRandom
| Constant (v : item)
| Unknown.

(** Arrays with their elements, ordinary objects with their enumerable
    own string-keyed data properties in [[OwnPropertyKeys]] order, and
    functions.  Arrays and functions have no other property. *)
Inductive object :=
| Array (elements : list item)
| Ordinary (props : list (string16 * item))
| Function (f : function).

Definition heap := list object.

Fixpoint lookup (k : string16) (props : list (string16 * item))
  : option item :=
  match props with
  | [] => None
  | (k', v) :: rest => if string16_eqb k k' then Some v else lookup k rest
  end.

(** A computation that reads and changes the host: it returns, throws or
    stops at unknown code, in a new state of the host.  [None] is for no
    answer: a reference to no object, or the fuel used up. *)
Definition effect (A : Type) : Type := world -> option (outcome A * world).

Definition pure {A} (a : A) : effect A := fun w => Some (Returns a, w).

Definition throw {A} (e : error) : effect A := fun w => Some (Throws e, w).

Definition no_answer {A} : effect A := fun _ => None.

Definition and_then {A B} (m : effect A) (k : A -> effect B) : effect B :=
  fun w =>
    match m w with
    | None => None
    | Some (Returns a, w') => k a w'
    | Some (Throws e, w') => Some (Throws e, w')
    | Some (RunsUserCode, w') => Some (RunsUserCode, w')
    end.

Notation "x <~ m ;; k" := (and_then m (fun x => k))
  (at level 61, m at next level, right associativity).

(** [Call(F, V, argumentsList)]. *)
Definition Call (f : function) : effect item :=
  fun w =>
    match f with
    | HostMathRandom =>
        let (x, w') := Math_random w in Some (Returns (JNumber x), w')
    | Constant v => Some (Returns v, w)
    | Unknown => Some (RunsUserCode, w)
    end.

(** [GetV(value, "toJSON")] when it is callable.  The own property of an
    ordinary object is the only place where a value of the model can
    have the method. *)
Definition toJSON (h : heap) (v : item) : option function :=
  match v with
  | JRef a =>
      match nth_error h a with
      | Some (Ordinary props) =>
          match lookup (lit "toJSON") props with
          | Some (JRef m) =>
              match nth_error h m with
              | Some (Function f) => Some f
              | _ => None
              end
          | _ => None
          end
      | _ => None
      end
  | _ => None
  end.

(** Step 2 of [SerializeJSONProperty]: the value to serialize is the
    value found, or what its [toJSON] method returns for it. *)
Definition value_of (h : heap) (v : item) : effect item :=
  match toJSON h v with
  | Some f => Call f
  | None => pure v
  end.

(** The loops of [SerializeJSONArray] and [SerializeJSONObject]. *)
Definition serialize_elements (f : item -> effect (option string16))
  : list item -> effect (list string16) :=
  fix each (l : list item) : effect (list string16) :=
    match l with
    | [] => pure []
    | e :: rest =>
        strP <~ f e ;;
        more <~ each rest ;;
        pure (match strP with
              | None => lit "null"
              | Some text => text
              end :: more)
    end.

Definition serialize_members (gap : string16)
  (f : item -> effect (option string16))
  : list (string16 * item) -> effect (list string16) :=
  fix each (l : list (string16 * item)) : effect (list string16) :=
    match l with
    | [] => pure []
    | (P, e) :: rest =>
        strP <~ f e ;;
        more <~ each rest ;;
        pure (match strP with
              | None => more
              | Some text => JSON.member gap P text :: more
              end)
    end.

(** [SerializeJSONProperty] with its [[Stack]] of the objects being
    serialized, applied to the value found under the key.  Every call
    takes one unit of fuel; [stringify] gives enough. *)
Fixpoint SerializeJSONProperty (fuel : nat) (h : heap) (stack : list address)
  (gap indent : string16) (v : item) {struct fuel} : effect (option string16) :=
  match fuel with
  | 0 => no_answer
  | S fuel =>
      v <~ value_of h v ;;
      match v with
      | JNull => pure (Some (lit "null"))
      | JBoolean true => pure (Some (lit "true"))
      | JBoolean false => pure (Some (lit "false"))
      | JString s => pure (Some (JSON.QuoteJSONString s))
      | JNumber x =>
          pure (Some (if Number.is_finite x then Number.toString x
                      else lit "null"))
      | JBigInt _ => throw TypeError
      | JUndefined | JSymbol _ => pure None
      | JRef a =>
          match nth_error h a with
          | None => no_answer
          | Some (Function _) => pure None
          | Some (Array elements) =>
              if existsb (Nat.eqb a) stack then throw TypeError
              else
                let stack := a :: stack in
                let stepback := indent in
                let indent := indent ++ gap in
                partial <~
                  serialize_elements
                    (SerializeJSONProperty fuel h stack gap indent) elements ;;
                pure (Some (JSON.wrap (lit "[") (lit "]") gap stepback indent
                              partial))
          | Some (Ordinary props) =>
              if existsb (Nat.eqb a) stack then throw TypeError
              else
                let stack := a :: stack in
                let stepback := indent in
                let indent := indent ++ gap in
                partial <~
                  serialize_members gap
                    (SerializeJSONProperty fuel h stack gap indent) props ;;
                pure (Some (JSON.wrap (lit "{") (lit "}") gap stepback indent
                              partial))
          end
      end
  end.

(** [JSON.stringify(value, replacer, space)] for a [replacer] that is not
    an object.  The stack holds each object once, so it is never longer
    than the heap. *)
Definition stringify (h : heap) (v : item) (space : value)
  : effect (option string16) :=
  SerializeJSONProperty (S (length h)) h [] (JSON.gap_of_space space) [] v.

(** [return JSON.stringify(state, null, 2);] *)
Definition formatState (h : heap) (state : item) : effect (option string16) :=
  stringify h state (VNumber (Number.of_N 2)).

End Heap.

(** *** Structures that are trees

    [unfolds h x t]: followed from [x], the references of [h] spell out
    the finite tree [t].  No tree is spelled out from an object that
    reaches itself. *)

Unset Elimination Schemes.
Inductive unfolds (h : Heap.heap) : Heap.item -> value -> Prop :=
| unfolds_undefined : unfolds h Heap.JUndefined VUndefined
| unfolds_null : unfolds h Heap.JNull VNull
| unfolds_boolean b : unfolds h (Heap.JBoolean b) (VBoolean b)
| unfolds_number x : unfolds h (Heap.JNumber x) (VNumber x)
| unfolds_string s : unfolds h (Heap.JString s) (VString s)
| unfolds_bigint z : unfolds h (Heap.JBigInt z) (VBigInt z)
| unfolds_symbol d : unfolds h (Heap.JSymbol d) (VSymbol d)
| unfolds_function a f :
    nth_error h a = Some (Heap.Function f) ->
    unfolds h (Heap.JRef a) VFunction
| unfolds_array a elements l :
    nth_error h a = Some (Heap.Array elements) ->
    Forall2 (unfolds h) elements l ->
    unfolds h (Heap.JRef a) (VArray l)
| unfolds_object a props l :
    nth_error h a = Some (Heap.Ordinary props) ->
    Forall2 (fun p q => fst p = fst q /\ unfolds h (snd p) (snd q)) props l ->
    unfolds h (Heap.JRef a) (VObject l).
Set Elimination Schemes.

(** No object with a callable [toJSON] anywhere in the value. *)
Fixpoint method_free (v : value) : bool :=
  match v with
  | VArray l => forallb method_free l
  | VObject props =>
      negb (JSON.callable_toJSON props)
      && forallb (fun kv => method_free (snd kv)) props
  | _ => true
  end.

Lemma serializable_method_free v :
  serializable v = true -> method_free v = true.
Proof.
  induction v as [| |b|x|s|z|d| |l IH|props IH] using value_nested_ind;
    try reflexivity.
  - cbn [serializable method_free]. induction IH as [|e l He _ IHl];
      [reflexivity|].
    cbn [forallb]. intros H. apply andb_prop in H. destruct H as [H1 H2].
    now rewrite He, IHl.
  - cbn [serializable method_free]. intros H. apply andb_prop in H.
    destruct H as [-> H]. cbn [andb].
    induction IH as [|[k e] l He _ IHl]; [reflexivity|].
    cbn [forallb snd] in *. apply andb_prop in H. destruct H as [H1 H2].
    now rewrite He, IHl.
Qed.

Section Trees.

Variable h : Heap.heap.

Lemma unfolds_one x t1 : forall t2,
  unfolds h x t1 -> unfolds h x t2 -> t1 = t2.
Proof.
  revert x.
  induction t1 as [| |b|y|s|z|d| |l IH|props IH] using value_nested_ind;
    intros x t2 H1 H2; inversion H1; subst; inversion H2; subst;
    try reflexivity; try congruence.
  - f_equal.
    assert (elements0 = elements) as -> by congruence.
    clear H1 H2 H0 H3.
    match goal with
    | F1 : Forall2 _ elements l, F2 : Forall2 _ elements ?l2 |- _ =>
        revert l2 F2; induction F1 as [|e t es ts He Hes IHes];
        intros l2 F2; inversion F2; subst
    end; [reflexivity|].
    inversion IH; subst. f_equal; [eauto|eauto].
  - f_equal.
    assert (props1 = props0) as -> by congruence.
    clear H1 H2 H0 H3.
    match goal with
    | F1 : Forall2 _ props0 props, F2 : Forall2 _ props0 ?l2 |- _ =>
        revert l2 F2; induction F1 as [|[k e] [k' t] es ts He Hes IHes];
        intros l2 F2; inversion F2 as [|? [k'' t''] ? ? He2 ?]; subst
    end; [reflexivity|].
    inversion IH; subst. cbn [fst snd] in *.
    destruct He as [<- He]. destruct He2 as [<- He2].
    f_equal; [f_equal; eauto|eauto].
Qed.

Lemma size_element e l : In e l -> (JSON.size e < JSON.size (VArray l))%nat.
Proof.
  cbn [JSON.size]. induction l as [|a l IH]; [contradiction|].
  cbn [fold_right]. intros [->|H]; [lia|]. specialize (IH H). lia.
Qed.

Lemma size_member kv props :
  In kv props -> (JSON.size (snd kv) < JSON.size (VObject props))%nat.
Proof.
  cbn [JSON.size]. induction props as [|a l IH]; [contradiction|].
  cbn [fold_right]. intros [->|H]; [lia|]. specialize (IH H). lia.
Qed.

(** The stack of a serialization in progress: each object once, and all
    of them objects of the heap, so that the fuel left is enough. *)
Definition stack_of (fuel : nat) (stack : list Heap.address) : Prop :=
  NoDup stack
  /\ (forall b, In b stack -> (b < length h)%nat)
  /\ (length h < fuel + length stack)%nat.

Lemma stack_of_fuel fuel stack : stack_of fuel stack -> (0 < fuel)%nat.
Proof.
  intros (Hnd & Hin & Hlen).
  assert (length stack <= length (seq 0 (length h)))%nat as Hle.
  { apply NoDup_incl_length; [assumption|].
    intros b Hb. apply in_seq. specialize (Hin b Hb). lia. }
  rewrite length_seq in Hle. lia.
Qed.

Lemma stack_of_push fuel stack a o :
  stack_of (S fuel) stack -> nth_error h a = Some o ->
  existsb (Nat.eqb a) stack = false ->
  stack_of fuel (a :: stack).
Proof.
  intros (Hnd & Hin & Hlen) Ha Hfresh. repeat split.
  - constructor; [|assumption]. intros Hb.
    assert (existsb (Nat.eqb a) stack = true); [|congruence].
    apply existsb_exists. exists a. split; [assumption|apply Nat.eqb_refl].
  - intros b [<-|Hb]; [|now apply Hin].
    apply nth_error_Some. congruence.
  - cbn [length]. lia.
Qed.

Lemma stack_of_start : stack_of (S (length h)) [].
Proof.
  repeat split; [constructor|contradiction|cbn [length]; lia].
Qed.

End Trees.

(** *** The serialization of a tree

    On a structure that is a tree and has no [toJSON] method, the
    serialization by reference is the serialization of the tree, and
    the host is left as it was. *)

Section Agreement.

Variable h : Heap.heap.

(** Every object of the stack unfolds to a tree larger than [t], as the
    objects around a part of theirs do. *)
Definition above (t : value) (stack : list Heap.address) : Prop :=
  forall b, In b stack ->
  exists tb, unfolds h (Heap.JRef b) tb /\ (JSON.size t < JSON.size tb)%nat.

Lemma above_fresh t a stack :
  unfolds h (Heap.JRef a) t -> above t stack ->
  existsb (Nat.eqb a) stack = false.
Proof.
  intros Ht Habove. apply not_true_is_false. intros Hex.
  apply existsb_exists in Hex. destruct Hex as (b & Hb & E).
  apply Nat.eqb_eq in E. subst b.
  destruct (Habove a Hb) as (tb & Htb & Hlt).
  rewrite (unfolds_one h _ _ _ Ht Htb) in Hlt. lia.
Qed.

Lemma above_push t a stack e :
  unfolds h (Heap.JRef a) t -> above t stack ->
  (JSON.size e < JSON.size t)%nat ->
  above e (a :: stack).
Proof.
  intros Ht Habove Hlt b [<-|Hb].
  - now exists t.
  - destruct (Habove b Hb) as (tb & Htb & Hlt'). exists tb.
    split; [assumption|lia].
Qed.

Lemma Forall2_In_impl {A B} (R S : A -> B -> Prop) l1 l2 :
  Forall2 R l1 l2 ->
  (forall a b, In b l2 -> R a b -> S a b) ->
  Forall2 S l1 l2.
Proof.
  induction 1 as [|a b l1 l2 Hab _ IH]; intros Himp; constructor.
  - apply Himp; [now left|assumption].
  - apply IH. intros a' b' Hin. apply Himp. now right.
Qed.

Lemma lookup_unfolds k props l :
  Forall2 (fun p q => fst p = fst q /\ unfolds h (snd p) (snd q)) props l ->
  match Heap.lookup k props, Obj.lookup k l with
  | Some e, Some t => unfolds h e t
  | None, None => True
  | _, _ => False
  end.
Proof.
  induction 1 as [|[k1 e] [k2 t] props l [Hk He] _ IH]; [exact I|].
  cbn [fst snd] in Hk, He. subst k2. cbn [Heap.lookup Obj.lookup].
  now destruct (string16_eqb k k1).
Qed.

Lemma toJSON_unfolds a props l :
  nth_error h a = Some (Heap.Ordinary props) ->
  Forall2 (fun p q => fst p = fst q /\ unfolds h (snd p) (snd q)) props l ->
  JSON.callable_toJSON l = false ->
  Heap.toJSON h (Heap.JRef a) = None.
Proof.
  intros Ha Hl Hno. unfold Heap.toJSON. rewrite Ha.
  pose proof (lookup_unfolds (lit "toJSON") props l Hl) as H.
  unfold JSON.callable_toJSON in Hno.
  destruct (Heap.lookup (lit "toJSON") props) as [[| | | | | | |m]|];
    try reflexivity.
  destruct (nth_error h m) as [[| |f]|] eqn:Hm; try reflexivity.
  destruct (Obj.lookup (lit "toJSON") l) as [t|]; [|contradiction].
  inversion H; subst; congruence.
Qed.

Lemma and_then_pure {A B} (a : A) (k : A -> Heap.effect B) w :
  Heap.and_then (Heap.pure a) k w = k a w.
Proof. reflexivity. Qed.

Lemma serialize_elements_unfolds F gap indent elements l w :
  Forall2 (fun e t => forall w, F e w
                      = Some (JSON.SerializeJSONProperty gap indent t, w))
    elements l ->
  Heap.serialize_elements F elements w
  = Some (JSON.serialize_elements gap indent l, w).
Proof.
  induction 1 as [|e t elements l He _ IH]; [reflexivity|].
  cbn [Heap.serialize_elements JSON.serialize_elements].
  unfold Heap.and_then at 1. rewrite He.
  destruct (JSON.SerializeJSONProperty gap indent t) as [strP| |];
    cbn [bind]; try reflexivity.
  unfold Heap.and_then. fold (Heap.serialize_elements F). rewrite IH.
  destruct (JSON.serialize_elements gap indent l); reflexivity.
Qed.

Lemma serialize_members_unfolds F gap indent props l w :
  Forall2 (fun p q => fst p = fst q
                      /\ forall w, F (snd p) w
                         = Some (JSON.SerializeJSONProperty gap indent (snd q),
                                 w))
    props l ->
  Heap.serialize_members gap F props w
  = Some (JSON.serialize_members gap indent l, w).
Proof.
  induction 1 as [|[k e] [k' t] props l [Hk He] _ IH]; [reflexivity|].
  cbn [fst snd] in Hk, He. subst k'.
  cbn [Heap.serialize_members JSON.serialize_members].
  unfold Heap.and_then at 1. rewrite He.
  destruct (JSON.SerializeJSONProperty gap indent t) as [strP| |];
    cbn [bind]; try reflexivity.
  unfold Heap.and_then. fold (Heap.serialize_members gap F). rewrite IH.
  destruct (JSON.serialize_members gap indent l); reflexivity.
Qed.

Lemma serialize_unfolds t : forall x fuel stack gap indent w,
  unfolds h x t -> method_free t = true ->
  stack_of h fuel stack -> above t stack ->
  Heap.SerializeJSONProperty fuel h stack gap indent x w
  = Some (JSON.SerializeJSONProperty gap indent t, w).
Proof.
  induction t as [| |b|y|s|z|d| |l IH|props IH] using value_nested_ind;
    intros x fuel stack gap indent w Hx Hfree Hstack Habove;
    pose proof (stack_of_fuel h fuel stack Hstack) as Hfuel;
    (destruct fuel as [|fuel]; [lia|]); clear Hfuel;
    inversion Hx; subst; try reflexivity;
    try match goal with
        | H : nth_error h _ = Some _ |- _ => rename H into Hobj
        end.
  - now destruct b.
  - cbn [Heap.SerializeJSONProperty]. unfold Heap.value_of, Heap.toJSON.
    rewrite Hobj, and_then_pure, Hobj. reflexivity.
  - pose proof (above_fresh _ _ _ Hx Habove) as Hfresh.
    cbn [Heap.SerializeJSONProperty]. unfold Heap.value_of, Heap.toJSON.
    rewrite Hobj, and_then_pure, Hobj, Hfresh. cbv zeta.
    rewrite JSON.SerializeJSONProperty_array.
    unfold Heap.and_then.
    rewrite serialize_elements_unfolds
      with (gap := gap) (indent := indent ++ gap) (l := l).
    + destruct (JSON.serialize_elements gap (indent ++ gap) l); reflexivity.
    + cbn [method_free] in Hfree. rewrite forallb_forall in Hfree.
      rewrite Forall_forall in IH.
      eapply Forall2_In_impl; [eassumption|].
      intros e t Hin He w'. apply IH; try assumption.
      * now apply Hfree.
      * eapply stack_of_push; eassumption.
      * eapply above_push; [exact Hx|assumption|now apply size_element].
  - pose proof (above_fresh _ _ _ Hx Habove) as Hfresh.
    cbn [method_free] in Hfree. apply andb_prop in Hfree.
    destruct Hfree as [Hno Hfree]. apply negb_true_iff in Hno.
    cbn [Heap.SerializeJSONProperty]. unfold Heap.value_of.
    rewrite (toJSON_unfolds a props0 props) by assumption.
    rewrite and_then_pure, Hobj, Hfresh. cbv zeta.
    rewrite JSON.SerializeJSONProperty_object, Hno.
    unfold Heap.and_then.
    rewrite serialize_members_unfolds
      with (indent := indent ++ gap) (l := props).
    + destruct (JSON.serialize_members gap (indent ++ gap) props); reflexivity.
    + rewrite forallb_forall in Hfree. rewrite Forall_forall in IH.
      eapply Forall2_In_impl; [eassumption|].
      intros [k e] [k' t] Hin [Hk He]. split; [assumption|].
      cbn [fst snd] in *. intros w'.
      apply (IH (k', t)); try assumption.
      * now apply (Hfree (k', t)).
      * eapply stack_of_push; eassumption.
      * eapply above_push;
          [exact Hx|assumption|now apply (size_member (k', t))].
Qed.

(** What [Heap.formatState] gives on a tree without [toJSON] methods is
    what [formatState] gives for the tree. *)
Lemma formatState_unfolds x t w :
  unfolds h x t -> method_free t = true ->
  Heap.formatState h x w = Some (formatState t, w).
Proof.
  intros Hx Hfree. apply serialize_unfolds; try assumption.
  - apply stack_of_start.
  - intros b [].
Qed.

End Agreement.

(** *** Every structure

    What holds of the serialization whatever the structure is: it
    answers, the exceptions of its own are [TypeError]s, and without a
    [toJSON] method in reach it neither reads nor changes the host. *)

(** Every reference is to an object of the heap. *)
Definition in_heap (h : Heap.heap) (v : Heap.item) : bool :=
  match v with
  | Heap.JRef a => (a <? length h)%nat
  | _ => true
  end.

Definition closed_object (h : Heap.heap) (o : Heap.object) : bool :=
  match o with
  | Heap.Array elements => forallb (in_heap h) elements
  | Heap.Ordinary props => forallb (fun p => in_heap h (snd p)) props
  | Heap.Function (Heap.Constant v) => in_heap h v
  | Heap.Function _ => true
  end.

Definition closed (h : Heap.heap) : bool := forallb (closed_object h) h.

(** [reaches h x a]: the object at [a] is [x] or a part of it, at any
    depth. *)
Inductive reaches (h : Heap.heap) : Heap.item -> Heap.address -> Prop :=
| reaches_itself a : reaches h (Heap.JRef a) a
| reaches_element a elements e b :
    nth_error h a = Some (Heap.Array elements) -> In e elements ->
    reaches h e b -> reaches h (Heap.JRef a) b
| reaches_member a props k e b :
    nth_error h a = Some (Heap.Ordinary props) -> In (k, e) props ->
    reaches h e b -> reaches h (Heap.JRef a) b.

(** The computations that answer, that throw nothing but a [TypeError],
    and that give one result in every state of the host and leave the
    state as it is. *)
Definition answers {A} (m : Heap.effect A) : Prop :=
  forall w, exists o w', m w = Some (o, w').

Definition throws_TypeError {A} (m : Heap.effect A) : Prop :=
  forall w e w', m w = Some (Throws e, w') -> e = TypeError.

Definition reads_nothing {A} (m : Heap.effect A) : Prop :=
  exists r, forall w,
    m w = match r with Some o => Some (o, w) | None => None end.

Section Effects.

Context {A B : Type}.

Lemma answers_and_then (m : Heap.effect A) (k : A -> Heap.effect B) :
  answers m -> (forall a, answers (k a)) -> answers (Heap.and_then m k).
Proof.
  intros Hm Hk w. unfold Heap.and_then.
  destruct (Hm w) as ([a|e|] & w' & ->); [apply Hk|eauto|eauto].
Qed.

Lemma answers_and_then_where (Q : A -> Prop) (m : Heap.effect A)
  (k : A -> Heap.effect B) :
  (forall w, exists o w',
      m w = Some (o, w')
      /\ match o with Returns a => Q a | _ => True end) ->
  (forall a, Q a -> answers (k a)) -> answers (Heap.and_then m k).
Proof.
  intros Hm Hk w. unfold Heap.and_then.
  destruct (Hm w) as ([a|e|] & w' & -> & Ha); [now apply Hk|eauto|eauto].
Qed.

Lemma throws_and_then (m : Heap.effect A) (k : A -> Heap.effect B) :
  throws_TypeError m -> (forall a, throws_TypeError (k a)) ->
  throws_TypeError (Heap.and_then m k).
Proof.
  intros Hm Hk w e w'. unfold Heap.and_then.
  destruct (m w) as [[[a|e'|] w'']|] eqn:E; try discriminate.
  - apply Hk.
  - intros [= <- <-]. eapply Hm, E.
Qed.

Lemma reads_nothing_and_then (m : Heap.effect A) (k : A -> Heap.effect B) :
  reads_nothing m -> (forall a, reads_nothing (k a)) ->
  reads_nothing (Heap.and_then m k).
Proof.
  intros [[[a|e|]|] Hm] Hk.
  - destruct (Hk a) as [r Hr]. exists r. intros w.
    unfold Heap.and_then. rewrite Hm. apply Hr.
  - exists (Some (Throws e)). intros w. unfold Heap.and_then. now rewrite Hm.
  - exists (Some RunsUserCode). intros w. unfold Heap.and_then. now rewrite Hm.
  - exists None. intros w. unfold Heap.and_then. now rewrite Hm.
Qed.

End Effects.

Lemma answers_pure {A} (a : A) : answers (Heap.pure a).
Proof. intros w. unfold Heap.pure. eauto. Qed.

Lemma answers_throw {A} e : answers (@Heap.throw A e).
Proof. intros w. unfold Heap.throw. eauto. Qed.

Lemma throws_pure {A} (a : A) : throws_TypeError (Heap.pure a).
Proof. intros w e w'. discriminate. Qed.

Lemma throws_throw {A} : throws_TypeError (@Heap.throw A TypeError).
Proof. intros w e w'. now intros [= <- _]. Qed.

Lemma throws_no_answer {A} : throws_TypeError (@Heap.no_answer A).
Proof. intros w e w'. discriminate. Qed.

Lemma reads_nothing_pure {A} (a : A) : reads_nothing (Heap.pure a).
Proof. now exists (Some (Returns a)). Qed.

Lemma reads_nothing_after_pure {A B} (a : A) (k : A -> Heap.effect B) :
  reads_nothing (k a) -> reads_nothing (Heap.and_then (Heap.pure a) k).
Proof. intros [r H]. exists r. intros w. apply H. Qed.

Lemma reads_nothing_throw {A} e : reads_nothing (@Heap.throw A e).
Proof. now exists (Some (Throws e)). Qed.

Lemma reads_nothing_no_answer {A} : reads_nothing (@Heap.no_answer A).
Proof. now exists None. Qed.

Section Loops.

Variable P : forall A, Heap.effect A -> Prop.
Hypothesis P_pure : forall A (a : A), P A (Heap.pure a).
Hypothesis P_and_then : forall A B (m : Heap.effect A) (k : A -> Heap.effect B),
  P A m -> (forall a, P B (k a)) -> P B (Heap.and_then m k).

Lemma serialize_elements_all F l :
  (forall e, In e l -> P _ (F e)) -> P _ (Heap.serialize_elements F l).
Proof.
  induction l as [|e l IH]; intros H; cbn [Heap.serialize_elements].
  - apply P_pure.
  - apply P_and_then; [apply H; now left|]. intros strP.
    apply P_and_then; [apply IH; intros e' He'; apply H; now right|].
    intros more. apply P_pure.
Qed.

Lemma serialize_members_all gap F l :
  (forall k e, In (k, e) l -> P _ (F e)) ->
  P _ (Heap.serialize_members gap F l).
Proof.
  induction l as [|[k e] l IH]; intros H; cbn [Heap.serialize_members].
  - apply P_pure.
  - apply P_and_then; [apply (H k); now left|]. intros strP.
    apply P_and_then; [apply IH; intros k' e' He'; apply (H k'); now right|].
    intros more. apply P_pure.
Qed.

End Loops.

Section Structures.

Variable h : Heap.heap.

Lemma closed_nth a o :
  closed h = true -> nth_error h a = Some o -> closed_object h o = true.
Proof.
  unfold closed. rewrite forallb_forall. intros H Ha.
  apply H. eapply nth_error_In, Ha.
Qed.

Lemma in_heap_nth a :
  in_heap h (Heap.JRef a) = true -> exists o, nth_error h a = Some o.
Proof.
  cbn [in_heap]. intros H. apply Nat.ltb_lt in H.
  destruct (nth_error h a) as [o|] eqn:E; [now exists o|].
  apply nth_error_None in E. lia.
Qed.

(** The value that is serialized is of the heap too. *)
Lemma toJSON_in_heap x f :
  closed h = true -> Heap.toJSON h x = Some f ->
  match f with Heap.Constant v => in_heap h v = true | _ => True end.
Proof.
  intros Hclosed. unfold Heap.toJSON.
  destruct x as [| | | | | | |a]; try discriminate.
  destruct (nth_error h a) as [[| props|]|]; try discriminate.
  destruct (Heap.lookup (lit "toJSON") props) as [[| | | | | | |m]|];
    try discriminate.
  destruct (nth_error h m) as [[| |g]|] eqn:Hm; try discriminate.
  intros [= <-]. pose proof (closed_nth m _ Hclosed Hm) as Hg.
  now destruct g.
Qed.

Lemma serialize_answers fuel : forall stack gap indent x,
  closed h = true -> in_heap h x = true -> stack_of h fuel stack ->
  answers (Heap.SerializeJSONProperty fuel h stack gap indent x).
Proof.
  induction fuel as [|fuel IH]; intros stack gap indent x Hclosed Hx Hstack.
  - pose proof (stack_of_fuel h 0 stack Hstack). lia.
  - cbn [Heap.SerializeJSONProperty].
    apply answers_and_then_where with (Q := fun v => in_heap h v = true).
    { intros w. unfold Heap.value_of.
      destruct (Heap.toJSON h x) as [f|] eqn:Hf.
      - pose proof (toJSON_in_heap x f Hclosed Hf) as Hv.
        unfold Heap.Call. destruct f as [|v|].
        + destruct (Math_random w) as [y w'].
          now exists (Returns (Heap.JNumber y)), w'.
        + now exists (Returns v), w.
        + now exists RunsUserCode, w.
      - now exists (Returns x), w. }
    intros v Hv.
    destruct v as [| |[|]| | | | |a];
      try apply answers_pure; try apply answers_throw.
    destruct (in_heap_nth a Hv) as [o Ho]. rewrite Ho.
    pose proof (closed_nth a o Hclosed Ho) as Hco.
    destruct o as [elements|props|f]; [| |apply answers_pure].
    + destruct (existsb (Nat.eqb a) stack) eqn:Hfresh; [apply answers_throw|].
      cbv zeta. apply answers_and_then; [|intros; apply answers_pure].
      apply (serialize_elements_all (@answers));
        [intros; apply answers_pure|intros; now apply answers_and_then|].
      intros e He. apply IH; [assumption| |eapply stack_of_push; eassumption].
      cbn [closed_object] in Hco. rewrite forallb_forall in Hco.
      now apply Hco.
    + destruct (existsb (Nat.eqb a) stack) eqn:Hfresh; [apply answers_throw|].
      cbv zeta. apply answers_and_then; [|intros; apply answers_pure].
      apply (serialize_members_all (@answers));
        [intros; apply answers_pure|intros; now apply answers_and_then|].
      intros k e He. apply IH; [assumption| |eapply stack_of_push; eassumption].
      cbn [closed_object] in Hco. rewrite forallb_forall in Hco.
      now apply (Hco (k, e)).
Qed.

Lemma throws_Call f : throws_TypeError (Heap.Call f).
Proof.
  intros w e w'. unfold Heap.Call. destruct f; discriminate.
Qed.

Lemma serialize_throws_TypeError fuel : forall stack gap indent x,
  throws_TypeError (Heap.SerializeJSONProperty fuel h stack gap indent x).
Proof.
  induction fuel as [|fuel IH]; intros stack gap indent x;
    [apply throws_no_answer|].
  cbn [Heap.SerializeJSONProperty]. apply throws_and_then.
  - unfold Heap.value_of.
    destruct (Heap.toJSON h x); [apply throws_Call|apply throws_pure].
  - intros v.
    destruct v as [| |[|]| | | | |a];
      try apply throws_pure; try apply throws_throw.
    destruct (nth_error h a) as [[elements|props|f]|];
      [| |apply throws_pure|apply throws_no_answer].
    + destruct (existsb (Nat.eqb a) stack); [apply throws_throw|].
      cbv zeta. apply throws_and_then; [|intros; apply throws_pure].
      apply (serialize_elements_all (@throws_TypeError));
        [intros; apply throws_pure|intros; now apply throws_and_then|].
      intros e _. apply IH.
    + destruct (existsb (Nat.eqb a) stack); [apply throws_throw|].
      cbv zeta. apply throws_and_then; [|intros; apply throws_pure].
      apply (serialize_members_all (@throws_TypeError));
        [intros; apply throws_pure|intros; now apply throws_and_then|].
      intros k e _. apply IH.
Qed.

Lemma toJSON_primitive x :
  (forall a, x <> Heap.JRef a) -> Heap.toJSON h x = None.
Proof. destruct x; try reflexivity. intros H. now destruct (H a). Qed.

Lemma serialize_reads_nothing fuel : forall stack gap indent x,
  (forall a, reaches h x a -> Heap.toJSON h (Heap.JRef a) = None) ->
  reads_nothing (Heap.SerializeJSONProperty fuel h stack gap indent x).
Proof.
  induction fuel as [|fuel IH]; intros stack gap indent x Hfree;
    [apply reads_nothing_no_answer|].
  cbn [Heap.SerializeJSONProperty]. unfold Heap.value_of.
  assert (Heap.toJSON h x = None) as ->.
  { destruct x as [| | | | | | |a]; try reflexivity.
    apply Hfree. constructor. }
  apply reads_nothing_after_pure.
  destruct x as [| |[|]| | | | |a];
    try apply reads_nothing_pure; try apply reads_nothing_throw.
  destruct (nth_error h a) as [[elements|props|f]|] eqn:Ha;
    [| |apply reads_nothing_pure|apply reads_nothing_no_answer].
  - destruct (existsb (Nat.eqb a) stack); [apply reads_nothing_throw|].
    cbv zeta.
    apply reads_nothing_and_then; [|intros; apply reads_nothing_pure].
    apply (serialize_elements_all (@reads_nothing));
      [intros; apply reads_nothing_pure
      |intros; now apply reads_nothing_and_then|].
    intros e He. apply IH. intros b Hb. apply Hfree.
    eapply reaches_element; eassumption.
  - destruct (existsb (Nat.eqb a) stack); [apply reads_nothing_throw|].
    cbv zeta.
    apply reads_nothing_and_then; [|intros; apply reads_nothing_pure].
    apply (serialize_members_all (@reads_nothing));
      [intros; apply reads_nothing_pure
      |intros; now apply reads_nothing_and_then|].
    intros k e He. apply IH. intros b Hb. apply Hfree.
    eapply reaches_member; eassumption.
Qed.

End Structures.

(** *** Normal completion

    Without a [toJSON] method in reach, a serialization that returns has
    gone through the whole structure and has met neither an object
    under way nor a BigInt: the structure is a tree. *)

Definition runs_no_user_code {A} (m : Heap.effect A) : Prop :=
  forall w w', m w <> Some (RunsUserCode, w').

Lemma no_user_code_pure {A} (a : A) : runs_no_user_code (Heap.pure a).
Proof. intros w w'. discriminate. Qed.

Lemma no_user_code_throw {A} e : runs_no_user_code (@Heap.throw A e).
Proof. intros w w'. discriminate. Qed.

Lemma no_user_code_no_answer {A} : runs_no_user_code (@Heap.no_answer A).
Proof. intros w w'. discriminate. Qed.

Lemma no_user_code_and_then {A B} (m : Heap.effect A)
  (k : A -> Heap.effect B) :
  runs_no_user_code m -> (forall a, runs_no_user_code (k a)) ->
  runs_no_user_code (Heap.and_then m k).
Proof.
  intros Hm Hk w w'. unfold Heap.and_then.
  destruct (m w) as [[[a|e|] w'']|] eqn:E; try discriminate.
  - apply Hk.
  - now destruct (Hm w w'').
Qed.

Lemma Forall_exists_Forall2 {A B} (R : A -> B -> Prop) l :
  Forall (fun a => exists b, R a b) l -> exists l', Forall2 R l l'.
Proof.
  induction 1 as [|a l [b Hb] _ [l' IH]].
  - exists []. constructor.
  - exists (b :: l'). now constructor.
Qed.

Section Completion.

Variable h : Heap.heap.

Lemma serialize_no_user_code fuel : forall stack gap indent x,
  (forall a, reaches h x a -> Heap.toJSON h (Heap.JRef a) = None) ->
  runs_no_user_code (Heap.SerializeJSONProperty fuel h stack gap indent x).
Proof.
  induction fuel as [|fuel IH]; intros stack gap indent x Hfree;
    [apply no_user_code_no_answer|].
  cbn [Heap.SerializeJSONProperty]. unfold Heap.value_of.
  assert (Heap.toJSON h x = None) as ->.
  { destruct x as [| | | | | | |a]; try reflexivity.
    apply Hfree. constructor. }
  intros w w'. rewrite and_then_pure. revert w w'.
  destruct x as [| |[|]| | | | |a];
    try apply no_user_code_pure; try apply no_user_code_throw.
  destruct (nth_error h a) as [[elements|props|f]|] eqn:Ha;
    [| |apply no_user_code_pure|apply no_user_code_no_answer].
  - destruct (existsb (Nat.eqb a) stack); [apply no_user_code_throw|].
    cbv zeta.
    apply no_user_code_and_then; [|intros; apply no_user_code_pure].
    apply (serialize_elements_all (@runs_no_user_code));
      [intros; apply no_user_code_pure
      |intros; now apply no_user_code_and_then|].
    intros e He. apply IH. intros b Hb. apply Hfree.
    eapply reaches_element; eassumption.
  - destruct (existsb (Nat.eqb a) stack); [apply no_user_code_throw|].
    cbv zeta.
    apply no_user_code_and_then; [|intros; apply no_user_code_pure].
    apply (serialize_members_all (@runs_no_user_code));
      [intros; apply no_user_code_pure
      |intros; now apply no_user_code_and_then|].
    intros k e He. apply IH. intros b Hb. apply Hfree.
    eapply reaches_member; eassumption.
Qed.

Lemma serialize_elements_returns F l : forall w partial w',
  Heap.serialize_elements F l w = Some (Returns partial, w') ->
  Forall (fun e => exists w1 r w2, F e w1 = Some (Returns r, w2)) l.
Proof.
  induction l as [|e l IH]; intros w partial w' H; constructor.
  - cbn [Heap.serialize_elements] in H. unfold Heap.and_then at 1 in H.
    destruct (F e w) as [[[r|?|] w1]|] eqn:E; try discriminate. eauto.
  - cbn [Heap.serialize_elements] in H. unfold Heap.and_then at 1 in H.
    destruct (F e w) as [[[r|?|] w1]|] eqn:E; try discriminate.
    unfold Heap.and_then in H. fold (Heap.serialize_elements F) in H.
    destruct (Heap.serialize_elements F l w1) as [[[more|?|] w2]|] eqn:El;
      try discriminate.
    eapply IH, El.
Qed.

Lemma serialize_members_returns gap F l : forall w partial w',
  Heap.serialize_members gap F l w = Some (Returns partial, w') ->
  Forall (fun p => exists w1 r w2, F (snd p) w1 = Some (Returns r, w2)) l.
Proof.
  induction l as [|[k e] l IH]; intros w partial w' H; constructor.
  - cbn [Heap.serialize_members] in H. unfold Heap.and_then at 1 in H.
    destruct (F e w) as [[[r|?|] w1]|] eqn:E; try discriminate.
    cbn [snd]. eauto.
  - cbn [Heap.serialize_members] in H. unfold Heap.and_then at 1 in H.
    destruct (F e w) as [[[r|?|] w1]|] eqn:E; try discriminate.
    unfold Heap.and_then in H. fold (Heap.serialize_members gap F) in H.
    destruct (Heap.serialize_members gap F l w1) as [[[more|?|] w2]|] eqn:El;
      try discriminate.
    eapply IH, El.
Qed.

Lemma no_toJSON_unfolds a props l :
  nth_error h a = Some (Heap.Ordinary props) ->
  Forall2 (fun p q => fst p = fst q /\ unfolds h (snd p) (snd q)) props l ->
  Heap.toJSON h (Heap.JRef a) = None ->
  JSON.callable_toJSON l = false.
Proof.
  intros Ha Hl. unfold Heap.toJSON. rewrite Ha.
  pose proof (lookup_unfolds h (lit "toJSON") props l Hl) as H.
  unfold JSON.callable_toJSON.
  destruct (Obj.lookup (lit "toJSON") l) as [[]|]; try reflexivity.
  destruct (Heap.lookup (lit "toJSON") props) as [e|]; [|contradiction].
  inversion H; subst.
  match goal with E : nth_error h _ = Some (Heap.Function _) |- _ =>
    rewrite E end.
  discriminate.
Qed.

Lemma serialize_returns fuel : forall stack gap indent x w r w',
  (forall a, reaches h x a -> Heap.toJSON h (Heap.JRef a) = None) ->
  Heap.SerializeJSONProperty fuel h stack gap indent x w
  = Some (Returns r, w') ->
  exists t, unfolds h x t /\ serializable t = true.
Proof.
  induction fuel as [|fuel IH]; intros stack gap indent x w r w' Hfree;
    [discriminate|].
  cbn [Heap.SerializeJSONProperty]. unfold Heap.value_of.
  assert (Heap.toJSON h x = None) as Hx.
  { destruct x as [| | | | | | |a]; try reflexivity.
    apply Hfree. constructor. }
  rewrite Hx, and_then_pure.
  destruct x as [| |b|y|s|z|d|a]; try discriminate.
  - exists VUndefined. split; [constructor|reflexivity].
  - exists VNull. split; [constructor|reflexivity].
  - exists (VBoolean b). split; [constructor|reflexivity].
  - exists (VNumber y). split; [constructor|reflexivity].
  - exists (VString s). split; [constructor|reflexivity].
  - exists (VSymbol d). split; [constructor|reflexivity].
  - destruct (nth_error h a) as [[elements|props|f]|] eqn:Ha;
      try discriminate.
    + destruct (existsb (Nat.eqb a) stack); [discriminate|]. cbv zeta.
      unfold Heap.and_then.
      destruct (Heap.serialize_elements _ elements w)
        as [[[partial|?|] w1]|] eqn:El; try discriminate.
      intros _. apply serialize_elements_returns in El.
      assert (Forall (fun e => exists t,
                        unfolds h e t /\ serializable t = true) elements)
        as Hall.
      { rewrite Forall_forall in *. intros e He.
        destruct (El e He) as (w2 & r2 & w3 & E).
        eapply IH; [|exact E]. intros b Hb. apply Hfree.
        eapply reaches_element; eassumption. }
      apply Forall_exists_Forall2 in Hall. destruct Hall as [l Hl].
      exists (VArray l). split.
      * apply unfolds_array with (elements := elements); [assumption|].
        eapply Forall2_impl; [|exact Hl]. now intros e t [He _].
      * cbn [serializable]. clear Ha El.
        induction Hl as [|e t es ts [_ Ht] _ IHl]; [reflexivity|].
        cbn [forallb]. now rewrite Ht.
    + destruct (existsb (Nat.eqb a) stack); [discriminate|]. cbv zeta.
      unfold Heap.and_then.
      destruct (Heap.serialize_members _ _ props w)
        as [[[partial|?|] w1]|] eqn:El; try discriminate.
      intros _. apply serialize_members_returns in El.
      assert (Forall (fun p => exists q,
                        (fst p = fst q /\ unfolds h (snd p) (snd q))
                        /\ serializable (snd q) = true) props)
        as Hall.
      { rewrite Forall_forall in *. intros [k e] He.
        destruct (El (k, e) He) as (w2 & r2 & w3 & E). cbn [snd] in E.
        destruct (IH _ _ _ _ _ _ _ (fun b Hb =>
                    Hfree b (reaches_member h a props k e b Ha He Hb)) E)
          as (t & Ht & Hs).
        exists (k, t). now repeat split. }
      apply Forall_exists_Forall2 in Hall. destruct Hall as [l Hl].
      assert (Forall2 (fun p q => fst p = fst q
                                  /\ unfolds h (snd p) (snd q)) props l)
        as Hl'.
      { eapply Forall2_impl; [|exact Hl]. now intros p q [Hp _]. }
      exists (VObject l). split.
      * now apply unfolds_object with (props := props).
      * cbn [serializable].
        rewrite (no_toJSON_unfolds a props l Ha Hl' Hx). cbn [negb andb].
        clear Ha El Hl'.
        induction Hl as [|p q es ts [_ Ht] _ IHl]; [reflexivity|].
        cbn [forallb]. now rewrite Ht.
    + intros _. exists VFunction. split; [|reflexivity].
      now apply unfolds_function with (f := f).
Qed.

End Completion.

(** ** The helpers on every input *)

(** A state with a part it holds twice and a function. *)
Definition shared_heap : Heap.heap :=
  [Heap.Ordinary [(lit "id", Heap.JNumber (Number.of_N 7));
                  (lit "tags", Heap.JRef 1);
                  (lit "again", Heap.JRef 1);
                  (lit "notify", Heap.JRef 2)];
   Heap.Array [Heap.JString (lit "a"); Heap.JUndefined];
   Heap.Function Heap.Unknown].



(** An object that is a property of itself. *)
Definition cyclic_heap : Heap.heap :=
  [Heap.Ordinary [(lit "a", Heap.JNumber (Number.of_N 1));
                  (lit "self", Heap.JRef 0)]].

(** An object whose [toJSON] method is [Math.random]. *)
Definition random_heap : Heap.heap :=
  [Heap.Ordinary [(lit "toJSON", Heap.JRef 1)];
   Heap.Function Heap.HostMathRandom].

(** A world whose source of random numbers gives 0.1, 0.2, 0.3 and so
    on. *)
Definition counting_world : world :=
  {| clock := 1700000000000;
     console := [];
     random_source := fun n => Math.UFraction (Pos.of_nat (S n)) 0;
     random_drawn := 0;
     promises := 0;
     timers := [] |}.

(** C3 fails at [undefined], which the parameter type [any] admits: the
    result is [undefined], where the declared return type is [string]. *)
Theorem formatState_undefined :
  formatState VUndefined = Returns None
  /\ forall h w,
       Heap.formatState h Heap.JUndefined w = Some (Returns None, w).
Proof. split; reflexivity. Qed.

Section Completions.

Variable shortest : NumberPrototype.engine.


End Completions.



(** On a structure that holds itself [formatState] throws a
    [TypeError]. *)
Lemma formatState_cycle_throws w :
  Heap.formatState cyclic_heap (Heap.JRef 0) w = Some (Throws TypeError, w).
Proof. reflexivity. Qed.

(** With a [toJSON] method that returns, [formatState] returns. *)
Lemma formatState_toJSON_returns w :
  Heap.formatState
    [Heap.Ordinary [(lit "toJSON", Heap.JRef 1)];
     Heap.Function (Heap.Constant (Heap.JNumber (Number.of_N 1)))]
    (Heap.JRef 0) w
  = Some (Returns (Some (lit "1")), w).
Proof. reflexivity. Qed.

(** C8, as the code has it.  For every [x] with no [toJSON] method in
    reach, [formatState x] gives one result in every state of the host,
    so the same on any two calls on the same objects, whatever the
    helpers did in between, and it leaves the state of the host as it
    was. *)
Theorem formatState_stateless (h : Heap.heap) (x : Heap.item) :
  closed h = true -> in_heap h x = true ->
  (forall a, reaches h x a -> Heap.toJSON h (Heap.JRef a) = None) ->
  exists o, forall w, Heap.formatState h x w = Some (o, w).
Proof.
  intros Hclosed Hx Hfree.
  destruct (serialize_reads_nothing h (S (length h)) []
              (JSON.gap_of_space (VNumber (Number.of_N 2))) [] x Hfree)
    as [r Hr].
  destruct (serialize_answers h (S (length h)) []
              (JSON.gap_of_space (VNumber (Number.of_N 2))) [] x
              Hclosed Hx (stack_of_start h) counting_world)
    as (o & w' & E).
  rewrite Hr in E. destruct r as [o'|]; [|discriminate].
  exists o'. exact Hr.
Qed.

Lemma formatState_stateless_witness :
  exists o, forall w,
    Heap.formatState shared_heap (Heap.JRef 0) w = Some (o, w).
Proof.
  apply (formatState_stateless shared_heap (Heap.JRef 0));
    [reflexivity|reflexivity|].
  intros a _. do 3 (destruct a as [|a]; [reflexivity|]). now destruct a.
Defined.

(** C8 fails as stated: two calls in a row on one object, nothing
    changed in between, return different strings when the object has a
    [toJSON] method that reads the host, as [Math.random] does. *)
Lemma formatState_toJSON_random :
  ~ (forall h x w r1 w1 r2 w2,
        Heap.formatState h x w = Some (r1, w1) ->
        Heap.formatState h x w1 = Some (r2, w2) ->
        r1 = r2).
Proof.
  intros H.
  specialize (H random_heap (Heap.JRef 0) counting_world
                (Returns (Some (lit "0.1"))) (snd (Math_random counting_world))
                (Returns (Some (lit "0.2")))
                (snd (Math_random (snd (Math_random counting_world))))
                eq_refl eq_refl).
  discriminate.
Qed.

(** ** When [formatState] gives [undefined] *)

(** The values [SerializeJSONProperty] has no text for. *)
Definition textless (h : Heap.heap) (v : Heap.item) : bool :=
  match v with
  | Heap.JUndefined | Heap.JSymbol _ => true
  | Heap.JRef a =>
      match nth_error h a with
      | Some (Heap.Function _) => true
      | _ => false
      end
  | _ => false
  end.

(** X3. [formatState x] is [undefined] exactly when the value that is
    serialized, [x] or what the [toJSON] method of [x] returns, is
    [undefined], a symbol or a function. *)
Theorem formatState_gives_undefined_iff (h : Heap.heap) (x : Heap.item)
  (w w' : world) :
  Heap.formatState h x w = Some (Returns None, w')
  <-> exists v,
        Heap.value_of h x w = Some (Returns v, w') /\ textless h v = true.
Proof.
  unfold Heap.formatState, Heap.stringify.
  cbn [Heap.SerializeJSONProperty]. unfold Heap.and_then at 1.
  destruct (Heap.value_of h x w) as [[[v|e|] w1]|].
  - destruct v as [| |[|]| | | | |a]; cbn [textless];
      try (split; [discriminate|intros (v & [= <- <-] & ?); discriminate]);
      try (split; [intros [= <-]; eexists; split; reflexivity
                  |intros (v & [= <- <-] & _); reflexivity]).
    destruct (nth_error h a) as [[elements|props|f]|] eqn:Ha.
    + cbn [existsb]. cbv zeta. unfold Heap.and_then.
      destruct (Heap.serialize_elements _ elements w1) as [[[?|?|] ?]|];
        (split; [discriminate|]); intros (v & [= <- <-] & Hv);
        cbn [textless] in Hv; rewrite Ha in Hv; discriminate.
    + cbn [existsb]. cbv zeta. unfold Heap.and_then.
      destruct (Heap.serialize_members _ _ props w1) as [[[?|?|] ?]|];
        (split; [discriminate|]); intros (v & [= <- <-] & Hv);
        cbn [textless] in Hv; rewrite Ha in Hv; discriminate.
    + split.
      * intros [= <-]. exists (Heap.JRef a). cbn [textless]. now rewrite Ha.
      * now intros (v & [= <- <-] & _).
    + split; [discriminate|]. intros (v & [= <- <-] & Hv).
      cbn [textless] in Hv. rewrite Ha in Hv. discriminate.
  - split; [discriminate|]. now intros (v & [=] & _).
  - split; [discriminate|]. now intros (v & [=] & _).
  - split; [discriminate|]. now intros (v & [=] & _).
Qed.

(** ** When [formatState] returns *)

(** X4. For every [x] with no [toJSON] method in reach, [formatState x]
    returns normally if [x] unfolds to a finite tree that holds no
    BigInt, and throws a [TypeError] if it does not: an object that
    reaches itself or a BigInt is met.  The host is left as it was. *)
Theorem formatState_completion (h : Heap.heap) (x : Heap.item) (w : world) :
  closed h = true -> in_heap h x = true ->
  (forall a, reaches h x a -> Heap.toJSON h (Heap.JRef a) = None) ->
  ((exists t, unfolds h x t /\ serializable t = true)
   /\ exists r, Heap.formatState h x w = Some (Returns r, w))
  \/ (~ (exists t, unfolds h x t /\ serializable t = true)
      /\ Heap.formatState h x w = Some (Throws TypeError, w)).
Proof.
  intros Hclosed Hx Hfree.
  destruct (serialize_reads_nothing h (S (length h)) []
              (JSON.gap_of_space (VNumber (Number.of_N 2))) [] x Hfree)
    as [r Hr].
  destruct (serialize_answers h (S (length h)) []
              (JSON.gap_of_space (VNumber (Number.of_N 2))) [] x
              Hclosed Hx (stack_of_start h) w)
    as (o & w' & E).
  pose proof (Hr w) as Hw. rewrite E in Hw.
  destruct r as [o'|]; [|discriminate]. injection Hw as <- <-.
  unfold Heap.formatState, Heap.stringify. rewrite E.
  destruct o as [r|e|].
  - left. split; [|now exists r].
    eapply serialize_returns; [exact Hfree|exact E].
  - right. rewrite (serialize_throws_TypeError h _ _ _ _ _ _ _ _ E) in *.
    split; [|reflexivity]. intros (t & Ht & Hs).
    pose proof (formatState_unfolds h x t w' Ht
                  (serializable_method_free t Hs)) as Ef.
    unfold Heap.formatState, Heap.stringify in Ef. rewrite E in Ef.
    injection Ef as Ef.
    pose proof (returns_serializable t
                  (JSON.gap_of_space (VNumber (Number.of_N 2))) []) as H.
    unfold formatState, JSON.stringify in Ef. rewrite <- Ef, Hs in H.
    discriminate.
  - now destruct (serialize_no_user_code h _ _ _ _ _ Hfree _ _ E).
Qed.

Lemma formatState_completion_witness :
  ((exists t, unfolds cyclic_heap (Heap.JRef 0) t /\ serializable t = true)
   /\ exists r,
        Heap.formatState cyclic_heap (Heap.JRef 0) counting_world
        = Some (Returns r, counting_world))
  \/ (~ (exists t,
           unfolds cyclic_heap (Heap.JRef 0) t /\ serializable t = true)
      /\ Heap.formatState cyclic_heap (Heap.JRef 0) counting_world
         = Some (Throws TypeError, counting_world)).
Proof.
  apply (formatState_completion cyclic_heap (Heap.JRef 0) counting_world);
    [reflexivity|reflexivity|].
  intros a _. destruct a as [|[|a]]; reflexivity.
Defined.

(** ** What the text keeps of any structure *)

(** A state with a Number that is not finite, a function, and an array
    with [undefined] and a negative zero. *)
Definition lossy_heap : Heap.heap :=
  [Heap.Ordinary [(lit "n", Heap.JNumber Number.NaN);
                  (lit "f", Heap.JRef 1);
                  (lit "a", Heap.JRef 2)];
   Heap.Function Heap.Unknown;
   Heap.Array [Heap.JUndefined; Heap.JNumber (Number.Zero true)]].

Definition lossy_tree : value :=
  VObject [(lit "n", VNumber Number.NaN); (lit "f", VFunction);
           (lit "a", VArray [VUndefined; VNumber (Number.Zero true)])].

Lemma lossy_heap_unfolds : unfolds lossy_heap (Heap.JRef 0) lossy_tree.
Proof.
  eapply unfolds_object; [reflexivity|].
  repeat (constructor; [split; [reflexivity|]|]); cbn [snd].
  - constructor.
  - eapply unfolds_function. reflexivity.
  - eapply unfolds_array; [reflexivity|]. repeat constructor.
  - constructor.
Defined.

(** X13. What [formatState] keeps of a structure that is a tree [t]
    without BigInt and [toJSON] method, and not [undefined], a function
    or a symbol: [JSON.parse] of its text gives [t] with [null] for the
    Numbers that are not finite and for the array elements that are
    [undefined], functions or symbols, without the properties of such
    values, and with positive zeros. *)
Theorem formatState_parse_image (h : Heap.heap) (x : Heap.item) (t : value)
  (w : world) :
  unfolds h x t ->
  well_formed t = true -> serializable t = true -> has_text t = true ->
  exists text,
    Heap.formatState h x w = Some (Returns (Some text), w)
    /\ JSON.parse text = Returns (positive_zeros (json_image t)).
Proof.
  intros Hx Hw Hs Ht.
  destruct (formatState_image t Hw Hs Ht) as (text & Etext & Eparse).
  exists text. split; [|assumption].
  rewrite (formatState_unfolds h x t w Hx)
    by now apply serializable_method_free.
  now rewrite Etext.
Qed.

Lemma formatState_parse_image_witness :
  exists text,
    Heap.formatState lossy_heap (Heap.JRef 0) counting_world
    = Some (Returns (Some text), counting_world)
    /\ JSON.parse text
       = Returns
           (VObject [(lit "n", VNull);
                     (lit "a", VArray [VNull; VNumber (Number.Zero false)])]).
Proof.
  apply (formatState_parse_image lossy_heap (Heap.JRef 0) lossy_tree
           counting_world lossy_heap_unfolds); reflexivity.
Defined.
